(** * imugi: visual diff and convergence controller

    A shallow embedding of [src/core/analyzer.ts] and
    [src/core/comparator.ts], and the properties the specification
    states about them.

    Numbers.  A TypeScript [number] that holds a score, a threshold or an
    intensity is embedded as an exact rational ([Q]): comparisons are the
    rational ones, and the arithmetic is exact (binary64 rounding, NaN and
    the infinities are not part of this model).  Pixel coordinates, grid
    indices and counts are integers in the source and are embedded as
    [nat] or [Z]. *)

From Stdlib Require Import QArith ZArith List Lia Lqa Sorted Permutation.
From stdpp Require Import gmap strings list.

Open Scope Q_scope.

(** ** JavaScript number comparisons and [Math] helpers *)

Module Num.

Definition ge (a b : Q) : bool := Qle_bool b a.
Definition le (a b : Q) : bool := Qle_bool a b.
Definition gt (a b : Q) : bool := negb (Qle_bool a b).
Definition lt (a b : Q) : bool := negb (Qle_bool b a).

(** [Math.max(a, b)], [Math.min(a, b)] and [Math.abs(a)]. *)
Definition max (a b : Q) : Q := if Qle_bool a b then b else a.
Definition min (a b : Q) : Q := if Qle_bool a b then a else b.
Definition abs (a : Q) : Q := if Qle_bool 0 a then a else - a.

(** The recurring [Math.max(0, Math.min(1, v))]. *)
Definition clamp01 (v : Q) : Q := max 0 (min 1 v).

End Num.

(** ** Shared types ([src/types.ts]) *)

Inductive PatchStrategy := full_regen | surgical_patch.

(** ['converged'] and ['error'] carry a prefix here: [converged] is also
    an iteration category. *)
Inductive StopReason :=
  success | max_iterations | timeout | stop_converged | stop_error.

Inductive IterationCategory :=
  first | improved | stalled | regressed | converged | achieved.

#[global] Instance PatchStrategy_eq_dec : EqDecision PatchStrategy.
Proof. solve_decision. Defined.
#[global] Instance StopReason_eq_dec : EqDecision StopReason.
Proof. solve_decision. Defined.
#[global] Instance IterationCategory_eq_dec : EqDecision IterationCategory.
Proof. solve_decision. Defined.

Record IterationRecord := {
  iteration : Z;
  score : Q;
  strategy : PatchStrategy;
  filesModified : list string;
  elapsedMs : Z;
  category : IterationCategory;
  timestamp : Z
}.

(** The [comparison] block of [ImugiConfig] (the only part the analyzer
    reads). *)
Record ComparisonConfig := {
  threshold : Q;
  maxIterations : Q;
  improvementThreshold : Q;
  patchSwitchThreshold : Q
}.

Record ImugiConfig := { comparison : ComparisonConfig }.

(** The [reason] field is a template string in the source; the embedding
    keeps which template was chosen and the values spliced into it. *)
Inductive Reason :=
  | ReasonThresholdReached
  | ReasonMaxIterations
  | ReasonConverged
  | ReasonRegressed (from to : Q) (target : Z)
  | ReasonBelowPatchThreshold (current switch : Q)
  | ReasonAbovePatchThreshold (current : Q).

(** [rec_strategy] is the field [strategy] (the name is taken by
    [IterationRecord]). *)
Record StrategyRecommendation := {
  rec_strategy : PatchStrategy;
  reason : Reason;
  shouldStop : bool;
  stopReason : option StopReason;
  shouldRollback : bool;
  rollbackTo : option Z
}.

(** ** The convergence controller ([src/core/analyzer.ts]) *)

Definition categorizeIteration
    (currentScore : Q) (previousScore : option Q)
    (threshold improvementThreshold : Q) : IterationCategory :=
  match previousScore with
  | None => first
  | Some previousScore =>
    if Num.ge currentScore threshold then achieved
    else if Num.gt (currentScore - previousScore) improvementThreshold then improved
    else if Num.lt currentScore previousScore then regressed
    else if Num.le (Num.abs (currentScore - previousScore)) improvementThreshold then stalled
    else stalled
  end.

(** [history.slice(-n)]: the last [n] entries, or all of them when there
    are fewer. *)
Definition slice_last {A} (n : nat) (l : list A) : list A :=
  drop (length l - n) l.

(** [history.reduce((best, r) => r.score > best.score ? r : best, init)] *)
Definition bestOf (init : IterationRecord) (history : list IterationRecord)
  : IterationRecord :=
  fold_left (fun best r => if Num.gt (score r) (score best) then r else best)
            history init.

Definition isStalled (r : IterationRecord) : bool :=
  bool_decide (category r = stalled).

Definition historyLength (history : list IterationRecord) : Q :=
  inject_Z (Z.of_nat (length history)).

Definition suggestStrategy
    (currentScore : Q) (history : list IterationRecord) (config : ImugiConfig)
  : StrategyRecommendation :=
  let cfg := comparison config in
  if Num.ge currentScore (threshold cfg) then
    {| rec_strategy := surgical_patch; reason := ReasonThresholdReached;
       shouldStop := true; stopReason := Some success;
       shouldRollback := false; rollbackTo := None |}
  else if Num.ge (historyLength history) (maxIterations cfg) then
    {| rec_strategy := surgical_patch; reason := ReasonMaxIterations;
       shouldStop := true; stopReason := Some max_iterations;
       shouldRollback := false; rollbackTo := None |}
  else
    let recentHistory := slice_last 3 history in
    if (3 <=? length recentHistory)%nat && forallb isStalled recentHistory then
      {| rec_strategy := surgical_patch; reason := ReasonConverged;
         shouldStop := true; stopReason := Some stop_converged;
         shouldRollback := false; rollbackTo := None |}
    else
      let default :=
        let strategy :=
          if Num.lt currentScore (patchSwitchThreshold cfg)
          then full_regen else surgical_patch in
        {| rec_strategy := strategy;
           reason := match strategy with
                     | full_regen =>
                         ReasonBelowPatchThreshold currentScore (patchSwitchThreshold cfg)
                     | surgical_patch => ReasonAbovePatchThreshold currentScore
                     end;
           shouldStop := false; stopReason := None;
           shouldRollback := false; rollbackTo := None |} in
      match history with
      | [] => default
      | first_record :: _ =>
        let lastRecord := List.last history first_record in
        if Num.gt (score lastRecord) currentScore then
          let bestIteration := bestOf first_record history in
          let alternateStrategy :=
            if decide (strategy lastRecord = full_regen)
            then surgical_patch else full_regen in
          {| rec_strategy := alternateStrategy;
             reason := ReasonRegressed (score lastRecord) currentScore
                                       (iteration bestIteration);
             shouldStop := false; stopReason := None;
             shouldRollback := true;
             rollbackTo := Some (iteration bestIteration) |}
        else default
      end.

(** ** Regions and reports ([src/types.ts]) *)

Module DiffRegion.
Record t := {
    x : Z;
    y : Z;
    width : Z;
    height : Z;
    diffIntensity : Q;
    pixelCount : Z
  }.
End DiffRegion.

Module Classification.
Inductive t := color | spacing | size | position | missing | extra | font | unknown.
End Classification.

Module Priority.
Inductive t := high | medium | low.
#[global] Instance eq_dec : EqDecision t.
Proof. solve_decision. Defined.
End Priority.

(** One entry of [VisionAnalysis['differences']]. *)
Record VisionDifference := {
  area : string;
  type : string;
  vd_description : string;
  vd_cssSuggestion : string
}.

Record VisionAnalysis := {
  similarityScore : Q;
  differences : list VisionDifference;
  overallAssessment : string
}.

(** [description] is either the model's text or the template
    "Difference in region at (x, y)". *)
Inductive Description :=
  | DescribedByVision (text : string)
  | DifferenceInRegionAt (x y : Z).

Record AnalyzedRegion := {
  region : DiffRegion.t;
  classification : Classification.t;
  priority : Priority.t;
  description : Description;
  cssSuggestion : option string
}.

(** The summary sentence: either "No significant differences found." or
    the template with the total, its plural marker and the three counts. *)
Inductive Summary :=
  | NoSignificantDifferences
  | FoundDifferences (total : nat) (plural : bool) (nhigh nmedium nlow : nat).

Record DiffReport := {
  overallScore : Q;
  regionCount : nat;
  regions : list AnalyzedRegion;
  summary : Summary;
  suggestedStrategy : PatchStrategy
}.

Record SSIMResult := { mssim : Q; performanceMs : Z }.

Record PixelDiffResult := {
  diffCount : Z;
  totalPixels : Z;
  diffPercentage : Q
}.

(** [ComparisonResult] without its opaque image buffers. *)
Record ComparisonResult := {
  ssim : SSIMResult;
  pixelDiff : PixelDiffResult;
  diffRegions : list DiffRegion.t;
  compositeScore : Q;
  designDimensions : Z * Z;
  cropPairs : list DiffRegion.t
}.

(** ** [Array.prototype.sort] with a comparator

    The engine's sort is stable (ECMAScript 2019), so for a comparator
    that is a consistent ordering its result is the one a stable
    insertion sort produces: [a] is placed after [b] only when
    [cmp a b > 0]. *)

Section ArraySort.
Context {A : Type} (cmp : A -> A -> Q).

Fixpoint sort_insert (a : A) (l : list A) : list A :=
  match l with
  | [] => [a]
  | b :: l' => if Num.gt (cmp a b) 0 then b :: sort_insert a l' else a :: b :: l'
  end.

Definition Array_sort (l : list A) : list A := foldr sort_insert [] l.
End ArraySort.

(** ** Classification and report building ([src/core/analyzer.ts]) *)

(** [typeMap] is an object literal used as a map from the seven known
    labels; the embedding looks a label up among these keys. *)
Definition typeMap : gmap string Classification.t :=
  list_to_map
    [ ("color", Classification.color);
      ("spacing", Classification.spacing);
      ("size", Classification.size);
      ("position", Classification.position);
      ("missing", Classification.missing);
      ("extra", Classification.extra);
      ("font", Classification.font) ].

Definition classifyRegion (region : DiffRegion.t) (visionDiff : option VisionDifference)
  : Classification.t :=
  match visionDiff with
  | Some visionDiff => default Classification.unknown (typeMap !! type visionDiff)
  | None =>
    if (200 <? DiffRegion.width region)%Z || (200 <? DiffRegion.height region)%Z
    then Classification.position
    else if Num.gt (DiffRegion.diffIntensity region) 0.5 then Classification.color
    else Classification.unknown
  end.

Definition assignPriority (classification : Classification.t) : Priority.t :=
  match classification with
  | Classification.missing | Classification.extra | Classification.position =>
      Priority.high
  | Classification.size | Classification.spacing => Priority.medium
  | Classification.color | Classification.font | Classification.unknown =>
      Priority.low
  end.

Definition priorityOrder (p : Priority.t) : Q :=
  match p with Priority.high => 0 | Priority.medium => 1 | Priority.low => 2 end.

(** The callback of [comparison.diffRegions.map((region, i) => ...)]. *)
Definition analyzeRegion (visionAnalysis : option VisionAnalysis)
    (i : nat) (region : DiffRegion.t) : AnalyzedRegion :=
  let visionDiff := visionAnalysis ≫= (fun va => differences va !! i) in
  let classification := classifyRegion region visionDiff in
  let priority := assignPriority classification in
  {| region := region;
     classification := classification;
     priority := priority;
     description :=
       match visionDiff with
       | Some vd => DescribedByVision (vd_description vd)
       | None => DifferenceInRegionAt (DiffRegion.x region) (DiffRegion.y region)
       end;
     cssSuggestion := vd_cssSuggestion <$> visionDiff |}.

Definition countPriority (p : Priority.t) (rs : list AnalyzedRegion) : nat :=
  length (filter (fun r => priority r = p) rs).

Definition analyzeDifferences (comparison : ComparisonResult)
    (visionAnalysis : option VisionAnalysis) : DiffReport :=
  let mapped := imap (analyzeRegion visionAnalysis) (diffRegions comparison) in
  let regions :=
    Array_sort (fun a b => priorityOrder (priority a) - priorityOrder (priority b))
               mapped in
  let score :=
    match visionAnalysis with
    | Some va => similarityScore va
    | None => compositeScore comparison
    end in
  let suggestedStrategy := if Num.lt score 0.7 then full_regen else surgical_patch in
  let summary :=
    if (length regions =? 0)%nat then NoSignificantDifferences
    else FoundDifferences (length regions) (1 <? length regions)%nat
           (countPriority Priority.high regions)
           (countPriority Priority.medium regions)
           (countPriority Priority.low regions) in
  {| overallScore := score;
     regionCount := length regions;
     regions := regions;
     summary := summary;
     suggestedStrategy := suggestedStrategy |}.

(** ** Scores and structural similarity ([src/core/comparator.ts]) *)

(** The argument object [{ssim, layout?, vision?}]. *)
Record Scores := {
  s_ssim : Q;
  s_layout : option Q;
  s_vision : option Q
}.

Definition computeCompositeScore (scores : Scores) : Q :=
  match s_vision scores, s_layout scores with
  | Some vision, Some layout =>
      Num.clamp01 (s_ssim scores * 0.3 + layout * 0.3 + vision * 0.4)
  | Some vision, None =>
      Num.clamp01 (s_ssim scores * 0.4 + vision * 0.6)
  | None, Some layout =>
      Num.clamp01 (s_ssim scores * 0.5 + layout * 0.5)
  | None, None => Num.clamp01 (s_ssim scores)
  end.

(** A [for (let i = start; i <= limit; i += step)] loop whose body may
    fail.  The loop runs on fuel; [None] also stands for fuel running
    out, and the callers are shown to supply enough. *)
Fixpoint for_upto {S : Type} (fuel : nat) (i limit step : Z)
    (body : Z -> S -> option S) (s : S) : option S :=
  if (i <=? limit)%Z then
    match fuel with
    | O => None
    | Datatypes.S fuel' =>
        s' ← body i s; for_upto fuel' (i + step)%Z limit step body s'
    end
  else Some s.

(** A loop body lifted to a state that may already have failed. *)
Definition lifted {S I : Type} (body : I -> S -> option S)
    (acc : option S) (i : I) : option S :=
  s ← acc; body i s.

Module SSIM.

Definition windowSize : nat := 8.
Definition k1 : Q := 0.01.
Definition k2 : Q := 0.03.
Definition L : Q := 255.
Definition c1 : Q := (k1 * L) ^ 2.
Definition c2 : Q := (k2 * L) ^ 2.

(** The five running sums of one window. *)
Record Sums := { sumA : Z; sumB : Z; sumAA : Z; sumBB : Z; sumAB : Z }.

Definition zeroSums : Sums :=
  {| sumA := 0; sumB := 0; sumAA := 0; sumBB := 0; sumAB := 0 |}.

(** The body of the two inner loops: read both images at
    [(y + wy) * width + (x + wx)] and update the sums.  A read outside a
    buffer has no value in this model ([None]). *)
Definition accumulate (width : nat) (designGray screenshotGray : list Z)
    (x y : Z) (acc : option Sums) (w : nat * nat) : option Sums :=
  let '(wy, wx) := w in
  let idx := Z.to_nat ((y + Z.of_nat wy) * Z.of_nat width + (x + Z.of_nat wx)) in
  s ← acc;
  a ← designGray !! idx;
  b ← screenshotGray !! idx;
  Some {| sumA := sumA s + a; sumB := sumB s + b;
          sumAA := sumAA s + a * a; sumBB := sumBB s + b * b;
          sumAB := sumAB s + a * b |}%Z.

(** The [(wy, wx)] pairs in the order the nested loops visit them. *)
Definition windowOffsets : list (nat * nat) :=
  wy ← seq 0 windowSize; wx ← seq 0 windowSize; [(wy, wx)].

Definition windowSums (width : nat) (designGray screenshotGray : list Z)
    (x y : Z) : option Sums :=
  fold_left (accumulate width designGray screenshotGray x y)
            windowOffsets (Some zeroSums).

Definition ssimOfSums (s : Sums) : Q :=
  let n := inject_Z (Z.of_nat (windowSize * windowSize)) in
  let meanA := inject_Z (sumA s) / n in
  let meanB := inject_Z (sumB s) / n in
  let varA := inject_Z (sumAA s) / n - meanA * meanA in
  let varB := inject_Z (sumBB s) / n - meanB * meanB in
  let covAB := inject_Z (sumAB s) / n - meanA * meanB in
  let numerator := (2 * meanA * meanB + c1) * (2 * covAB + c2) in
  let denominator := (meanA * meanA + meanB * meanB + c1) * (varA + varB + c2) in
  numerator / denominator.

Definition windowSSIM (width : nat) (designGray screenshotGray : list Z)
    (x y : Z) : option Q :=
  ssimOfSums <$> windowSums width designGray screenshotGray x y.

(** Loop state: [(totalSSIM, windowCount)]. *)
Definition windowStep (width : nat) (designGray screenshotGray : list Z)
    (y x : Z) (st : Q * nat) : option (Q * nat) :=
  v ← windowSSIM width designGray screenshotGray x y;
  Some (fst st + v, Datatypes.S (snd st)).

Definition rowStep (width : nat) (designGray screenshotGray : list Z)
    (y : Z) (st : Q * nat) : option (Q * nat) :=
  for_upto (Datatypes.S width) 0 (Z.of_nat width - Z.of_nat windowSize)
           (Z.of_nat windowSize)
           (windowStep width designGray screenshotGray y) st.

(** [computeSSIM] after the two images have been aligned to
    [width] x [height] and converted to one grey byte per pixel;
    [elapsed] is the measured [Date.now() - startTime].  The result is
    [None] when a read falls outside a buffer: the source would carry on
    with NaN, which the rationals do not have.  On buffers of at least
    [width * height] bytes this never happens (lemma [computeSSIM_mean]). *)
Definition computeSSIM (width height : nat) (designGray screenshotGray : list Z)
    (elapsed : Z) : option SSIMResult :=
  st ← for_upto (Datatypes.S height) 0 (Z.of_nat height - Z.of_nat windowSize)
                (Z.of_nat windowSize)
                (rowStep width designGray screenshotGray) (0, O);
  let '(totalSSIM, windowCount) := st in
  let mssim :=
    if (0 <? windowCount)%nat
    then totalSSIM / inject_Z (Z.of_nat windowCount) else 1 in
  Some {| mssim := Num.max 0 (Num.min 1 mssim); performanceMs := elapsed |}.

End SSIM.

(** ** Region extraction ([findDiffRegions], [src/core/comparator.ts]) *)

Module Regions.

Definition gridSize : nat := 32.

(** [Math.ceil(a / b)] on non-negative integers. *)
Definition ceilDiv (a b : nat) : nat := (a + b - 1) / b.

(** [rawData[idx] > 50]; a read outside the buffer is [undefined], and
    [undefined > 50] is false. *)
Definition exceeds (rawData : list Z) (idx : nat) : bool :=
  match rawData !! idx with
  | Some r => (50 <? r)%Z
  | None => false
  end.

(** The pixels [(x, y)] in the order of the two nested loops. *)
Definition pixels (width height : nat) : list (nat * nat) :=
  y ← seq 0 height; x ← seq 0 width; [(x, y)].

(** The body of the counting loops.  [grid[i]++] is an in-place update of
    an existing slot: the index is always below [grid.length]
    (lemma [cellIndex_lt]). *)
Definition countPixel (width gridCols : nat) (rawData : list Z)
    (grid : list nat) (p : nat * nat) : list nat :=
  let '(x, y) := p in
  let idx := ((y * width + x) * 4)%nat in
  if exceeds rawData idx then
    let gx := (x / gridSize)%nat in
    let gy := (y / gridSize)%nat in
    alter Datatypes.S (gy * gridCols + gx)%nat grid
  else grid.

Definition buildGrid (width height : nat) (rawData : list Z) : list nat :=
  let gridCols := ceilDiv width gridSize in
  let gridRows := ceilDiv height gridSize in
  fold_left (countPixel width gridCols rawData) (pixels width height)
            (replicate (gridCols * gridRows) O).

(** The mutable state of one flood fill. *)
Record Fill := {
  minX : nat; maxX : nat; minY : nat; maxY : nat;
  totalPixels : nat;
  queue : list nat;
  visited : gset nat
}.

Definition directions : list (Z * Z) := [(0, 1); (0, -1); (1, 0); (-1, 0)]%Z.

(** [grid[ni] > 0]; [undefined > 0] is false. *)
Definition active (grid : list nat) (ni : nat) : bool :=
  match grid !! ni with
  | Some c => (0 <? c)%nat
  | None => false
  end.

(** The body of [for (const [dx, dy] of ...)]. *)
Definition visitNeighbour (gridCols gridRows : nat) (grid : list nat)
    (cx cy : nat) (st : list nat * gset nat) (d : Z * Z) : list nat * gset nat :=
  let '(queue, visited) := st in
  let '(dx, dy) := d in
  let nx := (Z.of_nat cx + dx)%Z in
  let ny := (Z.of_nat cy + dy)%Z in
  if (0 <=? nx)%Z && (nx <? Z.of_nat gridCols)%Z
     && (0 <=? ny)%Z && (ny <? Z.of_nat gridRows)%Z then
    let ni := Z.to_nat (ny * Z.of_nat gridCols + nx) in
    if active grid ni && negb (bool_decide (ni ∈ visited))
    then (queue ++ [ni], {[ni]} ∪ visited)
    else st
  else st.

(** One turn of [while (queue.length > 0)], for the dequeued [cell]. *)
Definition fillStep (gridCols gridRows : nat) (grid : list nat)
    (cell : nat) (rest : list nat) (f : Fill) : Fill :=
  let cx := (cell mod gridCols)%nat in
  let cy := (cell / gridCols)%nat in
  let '(queue', visited') :=
    fold_left (visitNeighbour gridCols gridRows grid cx cy) directions
              (rest, visited f) in
  {| minX := Nat.min (minX f) cx;
     maxX := Nat.max (maxX f) cx;
     minY := Nat.min (minY f) cy;
     maxY := Nat.max (maxY f) cy;
     totalPixels := totalPixels f + default O (grid !! cell);
     queue := queue';
     visited := visited' |}.

(** The [while] loop, on fuel; [None] means the fuel ran out. *)
Fixpoint fillLoop (fuel : nat) (gridCols gridRows : nat) (grid : list nat)
    (f : Fill) : option Fill :=
  match queue f with
  | [] => Some f
  | cell :: rest =>
    match fuel with
    | O => None
    | Datatypes.S fuel' =>
        fillLoop fuel' gridCols gridRows grid
                 (fillStep gridCols gridRows grid cell rest f)
    end
  end.

Definition makeRegion (width height : nat) (f : Fill) : DiffRegion.t :=
  let regionWidth := ((Z.of_nat (maxX f) - Z.of_nat (minX f) + 1) * Z.of_nat gridSize)%Z in
  let regionHeight := ((Z.of_nat (maxY f) - Z.of_nat (minY f) + 1) * Z.of_nat gridSize)%Z in
  let regionArea := (regionWidth * regionHeight)%Z in
  {| DiffRegion.x := Z.of_nat (minX f) * Z.of_nat gridSize;
     DiffRegion.y := Z.of_nat (minY f) * Z.of_nat gridSize;
     DiffRegion.width :=
       Z.min regionWidth (Z.of_nat width - Z.of_nat (minX f) * Z.of_nat gridSize);
     DiffRegion.height :=
       Z.min regionHeight (Z.of_nat height - Z.of_nat (minY f) * Z.of_nat gridSize);
     DiffRegion.diffIntensity :=
       if (0 <? regionArea)%Z
       then inject_Z (Z.of_nat (totalPixels f)) / inject_Z regionArea
       else 0;
     DiffRegion.pixelCount := Z.of_nat (totalPixels f) |}.

(** The body of [for (let i = 0; i < grid.length; i++)]; the state is the
    visited set and the regions pushed so far. *)
Definition scanCell (width height gridCols gridRows : nat) (grid : list nat)
    (minRegionSize : Q) (st : option (gset nat * list DiffRegion.t)) (i : nat)
  : option (gset nat * list DiffRegion.t) :=
  '(visited, regions) ← st;
  if bool_decide (grid !! i = Some O) || bool_decide (i ∈ visited)
  then Some (visited, regions)
  else
    f ← fillLoop (length grid) gridCols gridRows grid
          {| minX := gridCols; maxX := O; minY := gridRows; maxY := O;
             totalPixels := O; queue := [i]; visited := {[i]} ∪ visited |};
    if Num.lt (inject_Z (Z.of_nat (totalPixels f))) minRegionSize
    then Some (Regions.visited f, regions)
    else Some (Regions.visited f, regions ++ [makeRegion width height f]).

(** [findDiffRegions] on a decoded diff image: [width], [height] from the
    metadata and [rawData] the RGBA bytes. *)
Definition findDiffRegions (width height : nat) (rawData : list Z)
    (minRegionSize : Q) : option (list DiffRegion.t) :=
  let gridCols := ceilDiv width gridSize in
  let gridRows := ceilDiv height gridSize in
  let grid := buildGrid width height rawData in
  st ← fold_left (scanCell width height gridCols gridRows grid minRegionSize)
                 (seq 0 (length grid)) (Some (∅, []));
  Some (Array_sort
          (fun a b => DiffRegion.diffIntensity b - DiffRegion.diffIntensity a)
          (snd st)).

End Regions.

(** ** [compareImages] *)

(** What the image libraries hand to [compareImages]: the two aligned
    grey images, the pixelmatch result with its decoded diff image, the
    design's own dimensions and the measured SSIM time. *)
Record Decoded := {
  d_width : nat;
  d_height : nat;
  d_designGray : list Z;
  d_screenshotGray : list Z;
  d_pixelDiff : PixelDiffResult;
  d_diffRaw : list Z;
  d_designDimensions : Z * Z;
  d_elapsed : Z
}.

(** [None] only when [computeSSIM] has no value (see there). *)
Definition compareImages (d : Decoded) : option ComparisonResult :=
  ssimResult ← SSIM.computeSSIM (d_width d) (d_height d)
                 (d_designGray d) (d_screenshotGray d) (d_elapsed d);
  diffRegions ← Regions.findDiffRegions (d_width d) (d_height d) (d_diffRaw d) 100;
  let compositeScore :=
    computeCompositeScore
      {| s_ssim := mssim ssimResult; s_layout := None; s_vision := None |} in
  Some {| ssim := ssimResult;
          pixelDiff := d_pixelDiff d;
          diffRegions := diffRegions;
          compositeScore := compositeScore;
          designDimensions := d_designDimensions d;
          cropPairs := take 5 diffRegions |}.

(** The score the loop driver works with ([src/agent/loop.ts]): SSIM
    blended with the vision score when one was obtained. *)
Definition loopCompositeScore (comparison : ComparisonResult)
    (visionScore : option Q) : Q :=
  computeCompositeScore
    {| s_ssim := mssim (ssim comparison); s_layout := None; s_vision := visionScore |}.

(** ** The specification's wording, as definitions *)

Module Spec.

(** "The last 3 history entries are all categorized stalled." *)
Definition lastThreeStalled (history : list IterationRecord) : Prop :=
  exists older a b c,
    history = older ++ [a; b; c]
    /\ category a = stalled /\ category b = stalled /\ category c = stalled.

(** "The single best-scoring entry in the entire history (ties broken by
    first occurrence)." *)
Definition firstBest (history : list IterationRecord) (best : IterationRecord) : Prop :=
  exists i,
    history !! i = Some best
    /\ (forall r, r ∈ history -> score r <= score best)
    /\ (forall j r, (j < i)%nat -> history !! j = Some r -> score r < score best).

(** [full_regen <-> surgical_patch]. *)
Definition flip (s : PatchStrategy) : PatchStrategy :=
  match s with full_regen => surgical_patch | surgical_patch => full_regen end.

(** The categories in the precedence order achieved > improved >
    regressed > stalled; [None] when no rule matches. *)
Definition categorize (current previous threshold improvementThreshold : Q)
  : option IterationCategory :=
  if Num.ge current threshold then Some achieved
  else if Num.gt (current - previous) improvementThreshold then Some improved
  else if Num.lt current previous then Some regressed
  else if Num.le (Num.abs (current - previous)) improvementThreshold then Some stalled
  else None.

(** The rule table of the composite scorer, before clamping. *)
Definition blend (ssim : Q) (layout vision : option Q) : Q :=
  match layout, vision with
  | Some layout, Some vision => 0.3 * ssim + 0.3 * layout + 0.4 * vision
  | None, Some vision => 0.4 * ssim + 0.6 * vision
  | Some layout, None => 0.5 * ssim + 0.5 * layout
  | None, None => ssim
  end.

Definition inUnit (v : Q) : Prop := 0 <= v /\ v <= 1.

(** Regions in descending order of [diffIntensity]. *)
Definition descendingIntensity (rs : list DiffRegion.t) : Prop :=
  StronglySorted
    (fun a b => DiffRegion.diffIntensity b <= DiffRegion.diffIntensity a) rs.

(** Grid cell [(gx, gy)] lies in the bounding box of region [r]. *)
Definition cellInBox (r : DiffRegion.t) (c : nat * nat) : Prop :=
  (DiffRegion.x r <= Z.of_nat (fst c) * 32 < DiffRegion.x r + DiffRegion.width r
   /\ DiffRegion.y r <= Z.of_nat (snd c) * 32 < DiffRegion.y r + DiffRegion.height r)%Z.

(** The pixels of the image that exceed the brightness threshold and
    fall in one of the given grid cells. *)
Definition brightPixelsIn (width height : nat) (rawData : list Z)
    (cells : list (nat * nat)) : list (nat * nat) :=
  filter (fun p => Regions.exceeds rawData ((snd p * width + fst p) * 4) = true
                   /\ (fst p / 32, snd p / 32)%nat ∈ cells)
         (Regions.pixels width height).

(** [pixelCount] counts bright pixels only: it is the number of bright
    pixels in some duplicate-free set of grid cells inside the region's
    bounding box. *)
Definition countsBrightPixels (width height : nat) (rawData : list Z)
    (r : DiffRegion.t) : Prop :=
  exists cells : list (nat * nat),
    NoDup cells
    /\ Forall (cellInBox r) cells
    /\ DiffRegion.pixelCount r
       = Z.of_nat (length (brightPixelsIn width height rawData cells)).




(** The origins [(x, y)] of the complete 8x8 windows, row by row. *)
Definition windowOrigins (width height : nat) : list (Z * Z) :=
  j ← seq 0 (height / 8); i ← seq 0 (width / 8);
  [(Z.of_nat (8 * i), Z.of_nat (8 * j))].

(** The mean of a list of values, 1 for the empty list. *)
Definition meanOr1 (vs : list Q) : Q :=
  match vs with
  | [] => 1
  | _ => fold_left Qplus vs 0 / inject_Z (Z.of_nat (length vs))
  end.

End Spec.

(** ** Auxiliary notions for the region proofs *)

(** The grid index that the counting loop increments for pixel [p]. *)
Definition cellIndex (gridCols : nat) (p : nat * nat) : nat :=
  (snd p / Regions.gridSize * gridCols + fst p / Regions.gridSize)%nat.

(** Pixel [p = (x, y)] exceeds the brightness threshold. *)
Definition bright (width : nat) (rawData : list Z) (p : nat * nat) : Prop :=
  Regions.exceeds rawData ((snd p * width + fst p) * 4) = true.

#[global] Instance bright_dec width rawData p : Decision (bright width rawData p).
Proof. unfold bright. apply _. Defined.

(** The number of bright pixels that fall in grid cell [c]. *)
Definition brightInCell (width height : nat) (rawData : list Z)
    (gridCols c : nat) : nat :=
  length (filter (fun p => bright width rawData p /\ cellIndex gridCols p = c)
                 (Regions.pixels width height)).

(** Column and row of a grid index. *)
Definition cellCoords (gridCols c : nat) : nat * nat :=
  (c mod gridCols, c / gridCols)%nat.

(** The grid cells of the box [minX..maxX] x [minY..maxY]. *)
Definition boxCells (minX maxX minY maxY : nat) : list (nat * nat) :=
  gx ← seq minX (maxX + 1 - minX); gy ← seq minY (maxY + 1 - minY); [(gx, gy)].

(** The sum of the grid counts of a list of cells. *)
Definition sumCells (grid : list nat) (cells : list nat) : nat :=
  sum_list_with (fun c => default O (grid !! c)) cells.

(** The invariant of the flood fill: [done] are the cells dequeued so
    far, [n] is the size of the grid. *)
Record FillInv (gridCols n : nat) (grid : list nat)
    (done : list nat) (f : Regions.Fill) : Prop := {
  inv_nodup : NoDup (done ++ Regions.queue f);
  inv_seen : forall c, c ∈ done ++ Regions.queue f ->
               c ∈ Regions.visited f /\ (c < n)%nat;
  inv_total : Regions.totalPixels f = sumCells grid done;
  inv_box : forall c, c ∈ done ->
              (Regions.minX f <= c mod gridCols <= Regions.maxX f
               /\ Regions.minY f <= c / gridCols <= Regions.maxY f)%nat
}.

(** The queue and the visited set while the neighbours of one cell are
    examined: nothing is queued twice, and everything handled or queued
    is a visited grid index. *)
Definition Pending (n : nat) (done : list nat) (st : list nat * gset nat) : Prop :=
  NoDup (done ++ fst st)
  /\ forall c, c ∈ done ++ fst st -> c ∈ snd st /\ (c < n)%nat.

(** The pixels of the rectangle at [(x0, y0)] of size [w0] x [h0]. *)
Definition rectPixels (x0 w0 y0 h0 : nat) : list (nat * nat) :=
  py ← seq y0 h0; px ← seq x0 w0; [(px, py)].

(** What the region proofs establish about each returned region. *)
Definition goodRegion (width height : nat) (rawData : list Z) (minRegionSize : Q)
    (r : DiffRegion.t) : Prop :=
  minRegionSize <= inject_Z (DiffRegion.pixelCount r)
  /\ (0 < DiffRegion.width r)%Z
  /\ (0 < DiffRegion.height r)%Z
  /\ Spec.inUnit (DiffRegion.diffIntensity r)
  /\ Spec.countsBrightPixels width height rawData r
  /\ (DiffRegion.pixelCount r <= DiffRegion.width r * DiffRegion.height r)%Z.

(** ** Fixtures of the repository's tests *)

(** The configuration the repository's own tests use. *)
Definition mockConfig : ImugiConfig :=
  {| comparison := {| threshold := 0.95; maxIterations := 10;
                      improvementThreshold := 0.01;
                      patchSwitchThreshold := 0.7 |} |}.

Definition stalledRecord (n : Z) (s : Q) : IterationRecord :=
  {| iteration := n; score := s; strategy := full_regen; filesModified := [];
     elapsedMs := 1000; category := stalled; timestamp := 0 |}.

Definition regressionHistory : list IterationRecord :=
  [ {| iteration := 1; score := 0.80; strategy := full_regen; filesModified := [];
       elapsedMs := 1000; category := first; timestamp := 0 |} ].

(** The two regions of the test fixture [mockComparisonResult]. *)
Definition smallRegion : DiffRegion.t :=
  {| DiffRegion.x := 0; DiffRegion.y := 0; DiffRegion.width := 100;
     DiffRegion.height := 100; DiffRegion.diffIntensity := 0.3;
     DiffRegion.pixelCount := 300 |}.

Definition largeRegion : DiffRegion.t :=
  {| DiffRegion.x := 200; DiffRegion.y := 200; DiffRegion.width := 300;
     DiffRegion.height := 300; DiffRegion.diffIntensity := 0.7;
     DiffRegion.pixelCount := 1000 |}.

Definition denseRegion : DiffRegion.t :=
  {| DiffRegion.x := 0; DiffRegion.y := 0; DiffRegion.width := 64;
     DiffRegion.height := 32; DiffRegion.diffIntensity := 0.7;
     DiffRegion.pixelCount := 1434 |}.

Definition mockComparisonResult : ComparisonResult :=
  {| ssim := {| mssim := 0.85; performanceMs := 100 |};
     pixelDiff := {| diffCount := 500; totalPixels := 10000; diffPercentage := 0.05 |};
     diffRegions := [smallRegion; largeRegion];
     compositeScore := 0.85;
     designDimensions := (1440, 900)%Z;
     cropPairs := [] |}.

(** A small comparison input: two 16 x 8 grey images, dark against
    light, with an all-red diff image. *)
Definition sampleDecoded : Decoded :=
  {| d_width := 16; d_height := 8;
     d_designGray := replicate 128 10%Z;
     d_screenshotGray := replicate 128 200%Z;
     d_pixelDiff := {| diffCount := 128; totalPixels := 128; diffPercentage := 1 |};
     d_diffRaw := mjoin (replicate 128 [255; 0; 0; 255]%Z);
     d_designDimensions := (16, 8)%Z;
     d_elapsed := 0 |}.

(** A 70 x 40 diff image whose left 40 columns are red. *)
Definition sampleDiffRaw : list Z :=
  mjoin (replicate 40 (mjoin (replicate 40 [255; 0; 0; 255]%Z)
                       ++ mjoin (replicate 30 [0; 0; 0; 255]%Z))).

Definition labelled (label : string) : VisionDifference :=
  {| area := "header"; type := label; vd_description := "differs";
     vd_cssSuggestion := "fix" |}.

(** A 40 x 3 diff image in which every pixel is red. *)
Definition allBrightRaw : list Z := mjoin (replicate 120 [255; 0; 0; 255]%Z).

(** * Further code of the cited files *)

(** ** Cropping ([cropRegion], [src/core/comparator.ts]) *)

(** The argument of [sharp(...).extract]. *)
Record Extract := {
  e_left : Z;
  e_top : Z;
  e_width : Z;
  e_height : Z
}.

(** [cropRegion] up to the call of [extract]: [imgWidth] and [imgHeight]
    are the metadata of the image that is cropped. *)
Definition cropRegion (imgWidth imgHeight : Z) (region : DiffRegion.t) (padding : Z)
  : Extract :=
  let left := Z.max 0 (DiffRegion.x region - padding) in
  let top := Z.max 0 (DiffRegion.y region - padding) in
  let right := Z.min imgWidth (DiffRegion.x region + DiffRegion.width region + padding) in
  let bottom := Z.min imgHeight (DiffRegion.y region + DiffRegion.height region + padding) in
  {| e_left := left; e_top := top;
     e_width := right - left; e_height := bottom - top |}.

(** The default [padding = 20]. *)
Definition defaultPadding : Z := 20.

(** A non-empty rectangle that lies inside an image of the given size. *)
Definition insideImage (imgWidth imgHeight : Z) (e : Extract) : Prop :=
  (0 <= e_left e /\ 0 <= e_top e /\ 0 < e_width e /\ 0 < e_height e
   /\ e_left e + e_width e <= imgWidth /\ e_top e + e_height e <= imgHeight)%Z.

(** The rectangle covers the region. *)
Definition coversRegion (e : Extract) (r : DiffRegion.t) : Prop :=
  (e_left e <= DiffRegion.x r /\ e_top e <= DiffRegion.y r
   /\ DiffRegion.x r + DiffRegion.width r <= e_left e + e_width e
   /\ DiffRegion.y r + DiffRegion.height r <= e_top e + e_height e)%Z.

(** A region that lies inside an image of the given size, on the 32-pixel
    grid. *)
Definition regionInImage (width height : nat) (r : DiffRegion.t) : Prop :=
  (0 <= DiffRegion.x r /\ 0 <= DiffRegion.y r
   /\ DiffRegion.x r + DiffRegion.width r <= Z.of_nat width
   /\ DiffRegion.y r + DiffRegion.height r <= Z.of_nat height
   /\ (32 | DiffRegion.x r) /\ (32 | DiffRegion.y r))%Z.

(** ** Report text ([generateReportText], [src/core/analyzer.ts]) *)

Inductive Badge := BadgeHigh | BadgeMed | BadgeLow.

(** The lines that [generateReportText] joins with newlines; each
    constructor is one of its templates with the values spliced in. *)
Inductive ReportLine :=
  | HeaderLine (overallScore : Q) (regionCount : nat)
  | BlankLine
  | NoDifferencesLine
  | ItemLine (number : nat) (badge : Badge) (description : Description)
  | FixLine (suggestion : string).

Definition badgeOf (p : Priority.t) : Badge :=
  match p with
  | Priority.high => BadgeHigh
  | Priority.medium => BadgeMed
  | Priority.low => BadgeLow
  end.

(** [if (r.cssSuggestion)]: present and not the empty string. *)
Definition truthy (s : option string) : bool :=
  match s with
  | Some EmptyString | None => false
  | Some _ => true
  end.

(** The callback of [report.regions.forEach((r, i) => ...)]. *)
Definition reportItem (i : nat) (r : AnalyzedRegion) : list ReportLine :=
  ItemLine (i + 1) (badgeOf (priority r)) (description r)
  :: (if truthy (cssSuggestion r)
      then [FixLine (default EmptyString (cssSuggestion r))] else []).

Definition generateReportText (report : DiffReport) : list ReportLine :=
  let lines := [HeaderLine (overallScore report) (regionCount report); BlankLine] in
  if (length (regions report) =? 0)%nat then lines ++ [NoDifferencesLine]
  else lines ++ mjoin (imap reportItem (regions report)).

(** The badges of the item lines, in order. *)
Definition badges (lines : list ReportLine) : list Badge :=
  omap (fun l => match l with ItemLine _ b _ => Some b | _ => None end) lines.



(** ** Regions handed to the surgical patch ([surgicalPatch],
    [src/core/patcher.ts]) *)

(** [diffReport.regions.filter((r) => r.priority !== 'low')] *)
Definition highMedRegions (report : DiffReport) : list AnalyzedRegion :=
  filter (fun r => priority r <> Priority.low) (regions report).

(** "Wider or taller than 200 px". *)
Definition isLarge (r : DiffRegion.t) : Prop :=
  (200 < DiffRegion.width r \/ 200 < DiffRegion.height r)%Z.

#[global] Instance isLarge_dec r : Decision (isLarge r).
Proof. unfold isLarge. apply _. Defined.

(** The vision argument that the loop passes to [analyzeDifferences]:
    the score alone, with an empty list of differences. *)
Definition loopVisionAnalysis (visionScore : option Q) : option VisionAnalysis :=
  (fun v => {| similarityScore := v; differences := [];
               overallAssessment := EmptyString |}) <$> visionScore.

(** ** Fixtures of the repository's tests, continued *)

Definition testRecord (n : Z) (s : Q) (c : IterationCategory) : IterationRecord :=
  {| iteration := n; score := s; strategy := full_regen; filesModified := [];
     elapsedMs := 1000; category := c; timestamp := 0 |}.

(** The history of the test "finds best iteration for rollback". *)
Definition rollbackHistory : list IterationRecord :=
  [testRecord 1 0.7 first; testRecord 2 0.85 improved; testRecord 3 0.8 regressed].

(** The region found in [sampleDiffRaw]. *)
Definition sampleRegion : DiffRegion.t :=
  {| DiffRegion.x := 0; DiffRegion.y := 0;
     DiffRegion.width := 64; DiffRegion.height := 40;
     DiffRegion.diffIntensity := 1600 # 4096;
     DiffRegion.pixelCount := 1600 |}.


(** ** Auxiliary notions for the SSIM proofs *)

(** Sums of [k] pairs of equal bytes: both images contribute the same,
    and the sum of squares dominates as in the Cauchy-Schwarz
    inequality. *)
Definition Balanced (k : Z) (s : SSIM.Sums) : Prop :=
  SSIM.sumB s = SSIM.sumA s
  /\ SSIM.sumBB s = SSIM.sumAA s
  /\ SSIM.sumAB s = SSIM.sumAA s
  /\ (forall t : Z, 0 <= SSIM.sumAA s - 2 * t * SSIM.sumA s + k * t * t)%Z
  /\ (SSIM.sumA s * SSIM.sumA s <= k * SSIM.sumAA s)%Z.

(** The sums with the roles of the two images exchanged. *)
Definition swapSums (s : SSIM.Sums) : SSIM.Sums :=
  {| SSIM.sumA := SSIM.sumB s; SSIM.sumB := SSIM.sumA s;
     SSIM.sumAA := SSIM.sumBB s; SSIM.sumBB := SSIM.sumAA s;
     SSIM.sumAB := SSIM.sumAB s |}.

(** ** Auxiliary notions for the connected-component proofs *)

(** The grid index reached from cell [(cx, cy)] in direction [d], when it
    lies inside the grid: the bounds test of the neighbour loop. *)
Definition neighbourIndex (gridCols gridRows cx cy : nat) (d : Z * Z) : option nat :=
  let '(dx, dy) := d in
  let nx := (Z.of_nat cx + dx)%Z in
  let ny := (Z.of_nat cy + dy)%Z in
  if (0 <=? nx)%Z && (nx <? Z.of_nat gridCols)%Z
     && (0 <=? ny)%Z && (ny <? Z.of_nat gridRows)%Z
  then Some (Z.to_nat (ny * Z.of_nat gridCols + nx))
  else None.

(** Grid index [c'] is one of the (up to four) neighbours of [c]. *)
Definition adjacent (gridCols gridRows : nat) (c c' : nat) : Prop :=
  exists d, d ∈ Regions.directions
            /\ neighbourIndex gridCols gridRows (c mod gridCols)%nat (c / gridCols)%nat d = Some c'.

(** Two grid cells share an edge. *)
Definition touching (a b : nat * nat) : Prop :=
  (fst a = fst b /\ (snd a = snd b + 1 \/ snd b = snd a + 1))%nat
  \/ (snd a = snd b /\ (fst a = fst b + 1 \/ fst b = fst a + 1))%nat.

(** What the flood fill from [seed] has established beyond [FillInv]:
    [visited0] is the visited set before the fill. *)
Record FillTrace (gridCols gridRows : nat) (grid : list nat)
    (visited0 : gset nat) (seed : nat) (done : list nat) (f : Regions.Fill)
  : Prop := {
  t_visited : Regions.visited f = list_to_set (done ++ Regions.queue f) ∪ visited0;
  t_fresh : forall c, c ∈ done ++ Regions.queue f -> c ∉ visited0;
  t_active : forall c, c ∈ done ++ Regions.queue f -> Regions.active grid c = true;
  t_closed : forall c c', c ∈ done -> adjacent gridCols gridRows c c' ->
               Regions.active grid c' = true -> c' ∈ Regions.visited f;
  t_seed : (done ++ Regions.queue f) !! O = Some seed;
  t_parent : forall k c, (done ++ Regions.queue f) !! k = Some c ->
               k = O \/ exists j p, (j < k)%nat
                                    /\ (done ++ Regions.queue f) !! j = Some p
                                    /\ adjacent gridCols gridRows p c;
  t_minX : Regions.minX f = fold_left Nat.min (map (fun c : nat => (c mod gridCols)%nat) done) gridCols;
  t_maxX : Regions.maxX f = fold_left Nat.max (map (fun c : nat => (c mod gridCols)%nat) done) O;
  t_minY : Regions.minY f = fold_left Nat.min (map (fun c : nat => (c / gridCols)%nat) done) gridRows;
  t_maxY : Regions.maxY f = fold_left Nat.max (map (fun c : nat => (c / gridCols)%nat) done) O
}.

(** One finished flood fill: the cells it dequeued, in order, and its
    final state. *)
Definition FinishedFill : Type := list nat * Regions.Fill.

(** [totalPixels < minRegionSize] is false: the fill's region is pushed. *)
Definition kept (minRegionSize : Q) (t : FinishedFill) : Prop :=
  Num.lt (inject_Z (Z.of_nat (Regions.totalPixels (snd t)))) minRegionSize = false.

#[global] Instance kept_dec minRegionSize t : Decision (kept minRegionSize t).
Proof. unfold kept. apply _. Defined.

Record ComponentOK (gridCols gridRows : nat) (grid : list nat)
    (t : FinishedFill) : Prop := {
  c_inv : FillInv gridCols (gridCols * gridRows) grid (fst t) (snd t);
  c_queue : Regions.queue (snd t) = [];
  c_nonempty : fst t <> [];
  c_active : forall c, c ∈ fst t -> Regions.active grid c = true;
  c_parent : forall k c, fst t !! k = Some c ->
               k = O \/ exists j p, (j < k)%nat /\ fst t !! j = Some p
                                    /\ adjacent gridCols gridRows p c;
  c_minX : Regions.minX (snd t)
           = fold_left Nat.min (map (fun c : nat => (c mod gridCols)%nat) (fst t)) gridCols;
  c_maxX : Regions.maxX (snd t)
           = fold_left Nat.max (map (fun c : nat => (c mod gridCols)%nat) (fst t)) O;
  c_minY : Regions.minY (snd t)
           = fold_left Nat.min (map (fun c : nat => (c / gridCols)%nat) (fst t)) gridRows;
  c_maxY : Regions.maxY (snd t)
           = fold_left Nat.max (map (fun c : nat => (c / gridCols)%nat) (fst t)) O
}.

(** The invariant of the scan over the grid, before index [i]: [fills]
    are the flood fills run so far, in order. *)
Record ScanInv (width height gridCols gridRows : nat) (grid : list nat)
    (minRegionSize : Q) (i : nat) (visited : gset nat)
    (regions : list DiffRegion.t) (fills : list FinishedFill) : Prop := {
  s_regions : regions
              = map (fun t => Regions.makeRegion width height (snd t))
                    (filter (kept minRegionSize) fills);
  s_visited : visited = list_to_set (mjoin (fst <$> fills));
  s_nodup : NoDup (mjoin (fst <$> fills));
  s_fills : Forall (ComponentOK gridCols gridRows grid) fills;
  s_together : forall a b, a ∈ visited -> adjacent gridCols gridRows a b ->
                 Regions.active grid b = true ->
                 exists t, t ∈ fills /\ a ∈ fst t /\ b ∈ fst t;
  s_covered : forall j, (j < i)%nat -> Regions.active grid j = true -> j ∈ visited
}.

(** ** Connected components of the grid, stated on cell coordinates *)

(** Grid cell [cell] holds at least one bright pixel. *)
Definition activeCell (width height : nat) (rawData : list Z) (cell : nat * nat) : Prop :=
  Spec.brightPixelsIn width height rawData [cell] <> [].

(** Two cells of [comp] that share an edge. *)
Definition linked (comp : list (nat * nat)) (a b : nat * nat) : Prop :=
  a ∈ comp /\ b ∈ comp /\ touching a b.

(** [comp] is not empty and any two of its cells are joined by a path of
    edge-sharing cells of [comp]. *)
Definition connectedCells (comp : list (nat * nat)) : Prop :=
  comp <> [] /\ forall a b, a ∈ comp -> b ∈ comp -> rtc (linked comp) a b.

Definition minimumOf (l : list nat) : nat :=
  match l with [] => O | a :: l' => fold_left Nat.min l' a end.

Definition maximumOf (l : list nat) : nat :=
  match l with [] => O | a :: l' => fold_left Nat.max l' a end.

(** The number of bright pixels in the cells of [comp]. *)
Definition brightCount (width height : nat) (rawData : list Z)
    (comp : list (nat * nat)) : nat :=
  length (Spec.brightPixelsIn width height rawData comp).

(** The region of a set of cells: its bounding box in pixels, cut at the
    right and bottom edge of the image, with the number of bright pixels
    in the cells and their share of the uncut box. *)
Definition regionOf (width height : nat) (rawData : list Z)
    (comp : list (nat * nat)) : DiffRegion.t :=
  let minX := Z.of_nat (minimumOf (map fst comp)) in
  let maxX := Z.of_nat (maximumOf (map fst comp)) in
  let minY := Z.of_nat (minimumOf (map snd comp)) in
  let maxY := Z.of_nat (maximumOf (map snd comp)) in
  let boxWidth := ((maxX - minX + 1) * 32)%Z in
  let boxHeight := ((maxY - minY + 1) * 32)%Z in
  let count := Z.of_nat (brightCount width height rawData comp) in
  {| DiffRegion.x := minX * 32;
     DiffRegion.y := minY * 32;
     DiffRegion.width := Z.min boxWidth (Z.of_nat width - minX * 32);
     DiffRegion.height := Z.min boxHeight (Z.of_nat height - minY * 32);
     DiffRegion.diffIntensity := inject_Z count / inject_Z (boxWidth * boxHeight);
     DiffRegion.pixelCount := count |}.

(** [comp] holds at least [minRegionSize] bright pixels. *)
Definition reaches (width height : nat) (rawData : list Z) (minRegionSize : Q)
    (comp : list (nat * nat)) : Prop :=
  Num.lt (inject_Z (Z.of_nat (brightCount width height rawData comp))) minRegionSize = false.

#[global] Instance reaches_dec width height rawData minRegionSize comp :
  Decision (reaches width height rawData minRegionSize comp).
Proof. unfold reaches. apply _. Defined.

(** The sum of the regions' [pixelCount]s. *)
Definition sumPixelCounts (regions : list DiffRegion.t) : Z :=
  foldr Z.add 0%Z (map DiffRegion.pixelCount regions).

(** The bright pixels of the whole diff image. *)
Definition brightPixels (width height : nat) (rawData : list Z) : list (nat * nat) :=
  filter (bright width rawData) (Regions.pixels width height).

(** * The boulder loop ([src/agent/loop.ts]) and the file operations of
      the patcher ([src/core/patcher.ts])

    The loop talks to a clock, a renderer, the image decoder, a language
    model and the project directory.  The project directory is part of
    the model ([FileSystem]); what the others answer is an argument of
    the model ([Environment]), and every theorem below holds for all
    environments.  A request to the outside that throws in the source
    ends the run as [Threw]: the loop catches nothing but a failed
    vision request.

    Assumptions.  File paths are normalised, relative to the project
    directory and outside its [.imugi] folder, so that two different
    keys name two different files.  Creating folders and writing files
    in the project directory succeeds, and nothing else changes the
    directory during a run.  The [onProgress] and [onStream] callbacks
    return normally.  They and the report artifacts written by
    [saveIterationArtifacts] take no part in what the loop computes and
    are left out. *)

From Stdlib Require Import Qround.

Module Loop.

(** A [Map<string, string>] from file path to content.  The insertion
    order of the map decides nothing but the order of the keys in
    [filesModified]; [keysOf] lists them in the order of the finite
    map. *)
Notation Code := (gmap string string) (only parsing).

(** [Array.from(code.keys())] *)
Definition keysOf (code : Code) : list string := (map_to_list code).*1.

(** The project directory: its files, and the backup folders
    [.imugi/backups/<id>] by id. *)
Record FileSystem := {
  files : gmap string string;
  backups : gmap Z (gmap string string)
}.

(** [writeCodeToFiles]: every entry is written, other files stay. *)
Definition writeCodeToFiles (code : Code) (fs : FileSystem) : FileSystem :=
  {| files := code ∪ files fs; backups := backups fs |}.

(** The body of the copy loops: [cp] or [readFile] inside a [try] that
    swallows the error of a missing file. *)
Definition copyFile (source target : gmap string string) (filePath : string)
  : gmap string string :=
  match source !! filePath with
  | Some content => <[filePath := content]> target
  | None => target
  end.

(** [createBackup]: [mkdir -p] keeps what the folder holds already. *)
Definition createBackup (filePaths : list string) (iterationNumber : Z)
    (fs : FileSystem) : FileSystem :=
  let backupDir := default ∅ (backups fs !! iterationNumber) in
  {| files := files fs;
     backups := <[iterationNumber := foldl (copyFile (files fs)) backupDir filePaths]>
                  (backups fs) |}.

(** [rollbackToBackup]: [readdir] of a folder that does not exist
    throws; otherwise every file of the folder is read into the map and
    written back to the project. *)
Definition rollbackToBackup (backupId : Z) (fs : FileSystem)
  : option (Code * FileSystem) :=
  backupDir ← backups fs !! backupId;
  Some (backupDir, {| files := backupDir ∪ files fs; backups := backups fs |}).


(** [patchCode], given the files [extracted] from the model's answer:
    a full regeneration returns them, a surgical patch lays them over a
    copy of the current code. *)
Definition patchCode (strategy : PatchStrategy) (currentCode extracted : Code) : Code :=
  match strategy with
  | full_regen => extracted
  | surgical_patch => extracted ∪ currentCode
  end.

Definition buildIterationRecord (iteration : Z) (score : Q) (strategy : PatchStrategy)
    (filesModified : list string) (elapsedMs : Z) (category : IterationCategory)
    (now : Z) : IterationRecord :=
  {| iteration := iteration; score := score; strategy := strategy;
     filesModified := filesModified; elapsedMs := elapsedMs;
     category := category; timestamp := now |}.

(** [BoulderLoopResult] without [reportDir]. *)
Record BoulderLoopResult := {
  finalScore : Q;
  totalIterations : Q;
  r_stopReason : option StopReason;
  finalCode : Code;
  r_history : list IterationRecord;
  r_elapsedMs : Z
}.

(** The part of [BoulderLoopOptions] that the loop computes with:
    [timeoutOverall] is [config.timeouts.overall]. *)
Record BoulderLoopOptions := {
  config : ImugiConfig;
  timeoutOverall : Q;
  existingCode : option Code
}.

(** What the outside answers during one iteration. *)
Record Observation := {
  (** [Date.now() - startTime] at the top of the iteration *)
  elapsedAtStart : Z;
  (** the design and the captured, resized screenshot as
      [compareImages] decodes them; [None] when capturing, resizing or
      decoding throws *)
  decoded : option Decoded;
  (** [similarityScore] of the vision request; [None] when it throws *)
  visionReply : option Q;
  (** [Date.now() - startTime] and [Date.now()] for the record *)
  elapsedAtRecord : Z;
  recordTimestamp : Z;
  (** [Date.now() - startTime] when the loop stops in this iteration *)
  elapsedAtStop : Z;
  (** the files extracted from the model's answer to the patch request;
      [None] when the request throws *)
  patchReply : PatchStrategy -> Code -> DiffReport -> option Code
}.

Record Environment := {
  (** the files of [generateInitialCode]; [None] when it throws *)
  initialReply : option Code;
  (** the observations of iteration 1, 2, ... *)
  observe : Z -> Observation;
  (** [Date.now() - startTime] after the last iteration *)
  elapsedAtEnd : Z
}.

(** The variables of the loop. *)
Record LoopState := {
  st_currentCode : Code;
  st_filePaths : list string;
  st_history : list IterationRecord;
  st_previousScore : option Q;
  st_strategy : PatchStrategy;
  st_fs : FileSystem
}.

(** What the comparison of one iteration yields. *)
Record Evaluation := {
  ev_comparison : ComparisonResult;
  ev_compositeScore : Q;
  ev_diffReport : DiffReport;
  ev_recommendation : StrategyRecommendation;
  ev_record : IterationRecord
}.

(** Lines 134-168: compare, ask for a vision score when SSIM is below
    0.98, score, analyse, categorise, recommend, build the record.
    [None] when capturing or comparing throws, or when the comparison
    has no value in this model (see [compareImages]). *)
Definition evaluate (options : BoulderLoopOptions) (iteration : Z)
    (obs : Observation) (st : LoopState) : option Evaluation :=
  let cfg := comparison (config options) in
  comparison ← decoded obs ≫= compareImages;
  let visionScore :=
    if Num.lt (mssim (ssim comparison)) 0.98 then visionReply obs else None in
  let compositeScore := loopCompositeScore comparison visionScore in
  let diffReport := analyzeDifferences comparison (loopVisionAnalysis visionScore) in
  let category :=
    categorizeIteration compositeScore (st_previousScore st)
                        (threshold cfg) (improvementThreshold cfg) in
  let recommendation := suggestStrategy compositeScore (st_history st) (config options) in
  let record :=
    buildIterationRecord iteration compositeScore (st_strategy st) (st_filePaths st)
                         (elapsedAtRecord obs) category (recordTimestamp obs) in
  Some {| ev_comparison := comparison; ev_compositeScore := compositeScore;
          ev_diffReport := diffReport; ev_recommendation := recommendation;
          ev_record := record |}.

(** Lines 185-191: the code, the file paths and the project directory
    after the rollback, if one is recommended. *)
Definition restore (recommendation : StrategyRecommendation)
    (currentCode : Code) (filePaths : list string) (fs : FileSystem)
  : option (Code * list string * FileSystem) :=
  match shouldRollback recommendation, rollbackTo recommendation with
  | true, Some target =>
      '(code, fs') ← rollbackToBackup target fs;
      Some (code, keysOf code, fs')
  | _, _ => Some (currentCode, filePaths, fs)
  end.

Inductive Step :=
  | Continue (st : LoopState)
  | Return (result : BoulderLoopResult) (fs : FileSystem)
  | Throw.

(** Lines 117-119: the backup at the top of every iteration but the
    first. *)
Definition backupBefore (iteration : Z) (st : LoopState) : FileSystem :=
  if (1 <? iteration)%Z
  then createBackup (st_filePaths st) (iteration - 1) (st_fs st)
  else st_fs st.

(** The body of the [for] loop. *)
Definition iterationBody (options : BoulderLoopOptions) (iteration : Z)
    (obs : Observation) (st : LoopState) : Step :=
  if Num.gt (inject_Z (elapsedAtStart obs)) (timeoutOverall options * 1000) then
    Return {| finalScore := default 0 (st_previousScore st);
              totalIterations := inject_Z (iteration - 1);
              r_stopReason := Some timeout;
              finalCode := st_currentCode st;
              r_history := st_history st;
              r_elapsedMs := elapsedAtStart obs |}
           (st_fs st)
  else
    let fs := backupBefore iteration st in
    match evaluate options iteration obs st with
    | None => Throw
    | Some ev =>
      let history := st_history st ++ [ev_record ev] in
      let recommendation := ev_recommendation ev in
      if shouldStop recommendation then
        Return {| finalScore := ev_compositeScore ev;
                  totalIterations := inject_Z iteration;
                  r_stopReason := stopReason recommendation;
                  finalCode := st_currentCode st;
                  r_history := history;
                  r_elapsedMs := elapsedAtStop obs |}
               fs
      else
        match restore recommendation (st_currentCode st) (st_filePaths st) fs with
        | None => Throw
        | Some (currentCode, _, fs') =>
          let strategy := rec_strategy recommendation in
          match patchReply obs strategy currentCode (ev_diffReport ev) with
          | None => Throw
          | Some extracted =>
            let newCode := patchCode strategy currentCode extracted in
            Continue {| st_currentCode := newCode;
                        st_filePaths := keysOf newCode;
                        st_history := history;
                        st_previousScore := Some (ev_compositeScore ev);
                        st_strategy := strategy;
                        st_fs := writeCodeToFiles newCode fs' |}
          end
        end
    end.

Inductive Outcome :=
  | Returned (result : BoulderLoopResult) (fs : FileSystem)
  | Threw.

(** [for (let iteration = 1; iteration <= maxIterations; iteration++)],
    on fuel; [None] means the fuel ran out. *)
Fixpoint iterations (fuel : nat) (options : BoulderLoopOptions) (env : Environment)
    (iteration : Z) (st : LoopState) : option Outcome :=
  if Num.le (inject_Z iteration) (maxIterations (comparison (config options))) then
    match fuel with
    | O => None
    | Datatypes.S fuel' =>
      match iterationBody options iteration (observe env iteration) st with
      | Continue st' => iterations fuel' options env (iteration + 1) st'
      | Return result fs => Some (Returned result fs)
      | Throw => Some Threw
      end
    end
  else
    Some (Returned {| finalScore := default 0 (st_previousScore st);
                      totalIterations := maxIterations (comparison (config options));
                      r_stopReason := Some max_iterations;
                      finalCode := st_currentCode st;
                      r_history := st_history st;
                      r_elapsedMs := elapsedAtEnd env |}
                   (st_fs st)).

(** Lines 87-101: the code the loop starts from, generated and written
    unless [existingCode] is given. *)
Definition initialState (options : BoulderLoopOptions) (env : Environment)
    (fs : FileSystem) : option LoopState :=
  '(currentCode, fs') ←
    match existingCode options with
    | Some code => Some (code, fs)
    | None => code ← initialReply env; Some (code, writeCodeToFiles code fs)
    end;
  Some {| st_currentCode := currentCode; st_filePaths := keysOf currentCode;
          st_history := []; st_previousScore := None;
          st_strategy := full_regen; st_fs := fs' |}.

(** The fuel that [runBoulderLoop] needs. *)
Definition loopFuel (options : BoulderLoopOptions) : nat :=
  Z.to_nat (Qfloor (maxIterations (comparison (config options)))).

Definition runBoulderLoop (options : BoulderLoopOptions) (env : Environment)
    (fs : FileSystem) : option Outcome :=
  match initialState options env fs with
  | None => Some Threw
  | Some st => iterations (loopFuel options) options env 1 st
  end.

(** The state at the top of iteration [start + n], when the [n]
    iterations from [start] on all went through. *)
Fixpoint stateAfter (n : nat) (options : BoulderLoopOptions) (env : Environment)
    (start : Z) (st : LoopState) : option LoopState :=
  match n with
  | O => Some st
  | Datatypes.S n' =>
    match iterationBody options start (observe env start) st with
    | Continue st' => stateAfter n' options env (start + 1) st'
    | _ => None
    end
  end.

(** The state in which iteration [k] of a run starts (k = 1, 2, ...). *)
Definition stateAt (options : BoulderLoopOptions) (env : Environment)
    (fs : FileSystem) (k : nat) : option LoopState :=
  st ← initialState options env fs;
  stateAfter (k - 1) options env 1 st.

End Loop.

(** What holds of the loop variables at the top of iteration [k]. *)
Record LoopInv (options : Loop.BoulderLoopOptions) (k : Z)
    (st : Loop.LoopState) : Prop := {
  li_iteration : (1 <= k)%Z;
  li_passed : k = 1%Z
              \/ inject_Z (k - 1) <= maxIterations (comparison (Loop.config options));
  li_length : Z.of_nat (length (Loop.st_history st)) = (k - 1)%Z;
  li_numbered : forall i r, Loop.st_history st !! i = Some r ->
                  iteration r = (Z.of_nat i + 1)%Z;
  li_scores : Forall (fun r => 0 <= score r /\ score r <= 1
                               /\ score r < threshold (comparison (Loop.config options)))
                     (Loop.st_history st);
  li_previous : Loop.st_previousScore st = score <$> last (Loop.st_history st)
}.

(** What holds of every result the loop returns. *)
Record GoodResult (options : Loop.BoulderLoopOptions)
    (r : Loop.BoulderLoopResult) : Prop := {
  gr_numbered : forall i rec, Loop.r_history r !! i = Some rec ->
                  iteration rec = (Z.of_nat i + 1)%Z
                  /\ 0 <= score rec /\ score rec <= 1;
  gr_final : Loop.finalScore r = default 0 (score <$> last (Loop.r_history r));
  gr_reason : Loop.r_stopReason r = Some success
              \/ Loop.r_stopReason r = Some stop_converged
              \/ Loop.r_stopReason r = Some timeout
              \/ Loop.r_stopReason r = Some max_iterations;
  gr_success : Loop.r_stopReason r = Some success
               <-> (Loop.r_history r <> []
                    /\ threshold (comparison (Loop.config options)) <= Loop.finalScore r);
  gr_total : Loop.r_stopReason r <> Some max_iterations ->
             Loop.totalIterations r = inject_Z (Z.of_nat (length (Loop.r_history r)));
  gr_exhausted : Loop.r_stopReason r = Some max_iterations ->
                 Loop.totalIterations r = maxIterations (comparison (Loop.config options))
                 /\ length (Loop.r_history r) = Loop.loopFuel options;
  gr_converged : Loop.r_stopReason r = Some stop_converged ->
                 exists older a b c final,
                   Loop.r_history r = older ++ [a; b; c; final]
                   /\ category a = stalled /\ category b = stalled
                   /\ category c = stalled
}.

(** What holds of the project directory at the top of iteration [k] of
    the run that started on [fs0]: backup [j] holds the code with which
    iteration [j + 1] started, laid over what the folder held before
    the run. *)
Record BackupInv (options : Loop.BoulderLoopOptions) (env : Loop.Environment)
    (fs0 : Loop.FileSystem) (k : nat) (st : Loop.LoopState) : Prop := {
  bi_state : Loop.stateAt options env fs0 k = Some st;
  bi_length : length (Loop.st_history st) = (k - 1)%nat;
  bi_records : forall i rec, Loop.st_history st !! i = Some rec ->
                 exists st_i ev_i,
                   Loop.stateAt options env fs0 (i + 1) = Some st_i
                   /\ Loop.evaluate options (Z.of_nat (i + 1))
                        (Loop.observe env (Z.of_nat (i + 1))) st_i = Some ev_i
                   /\ rec = Loop.ev_record ev_i;
  bi_paths : Loop.st_filePaths st = Loop.keysOf (Loop.st_currentCode st);
  bi_disk : Loop.existingCode options = None \/ (2 <= k)%nat ->
            Loop.st_currentCode st ⊆ Loop.files (Loop.st_fs st);
  bi_kept : forall p, is_Some (Loop.files fs0 !! p) ->
              is_Some (Loop.files (Loop.st_fs st) !! p);
  bi_backups : forall j, (1 <= j)%nat -> (j + 2 <= k)%nat ->
                 exists next,
                   Loop.stateAt options env fs0 (j + 1) = Some next
                   /\ Loop.backups (Loop.st_fs st) !! Z.of_nat j
                      = Some (Loop.st_currentCode next
                              ∪ default ∅ (Loop.backups fs0 !! Z.of_nat j));
  bi_untouched : forall id, (Z.of_nat k - 1 <= id)%Z ->
                   Loop.backups (Loop.st_fs st) !! id = Loop.backups fs0 !! id
}.

(** ** Sample runs *)

(** Two 8 x 8 grey images of one shade each, with an empty diff image. *)
Definition flatDecoded (design screenshot : Z) : Decoded :=
  {| d_width := 8; d_height := 8;
     d_designGray := replicate 64 design;
     d_screenshotGray := replicate 64 screenshot;
     d_pixelDiff := {| diffCount := 0; totalPixels := 64; diffPercentage := 0 |};
     d_diffRaw := replicate 256 0%Z;
     d_designDimensions := (8, 8)%Z;
     d_elapsed := 1 |}.

Definition emptyProject : Loop.FileSystem :=
  {| Loop.files := ∅; Loop.backups := ∅ |}.

(** An environment whose first screenshot matches the design and whose
    later screenshots do not; the model answers every patch request with
    one file whose content names the strategy. *)
Definition sampleEnvironment : Loop.Environment :=
  {| Loop.initialReply := Some {[ "page.tsx" := "generated" ]};
     Loop.observe := fun k =>
       {| Loop.elapsedAtStart := k;
          Loop.decoded := Some (if (k =? 1)%Z then flatDecoded 100 100
                                else flatDecoded 100 200);
          Loop.visionReply := None;
          Loop.elapsedAtRecord := k;
          Loop.recordTimestamp := k;
          Loop.elapsedAtStop := k;
          Loop.patchReply := fun strategy _ _ =>
            Some {[ "page.tsx" := match strategy with
                                 | full_regen => "regenerated"
                                 | surgical_patch => "patched"
                                 end ]} |};
     Loop.elapsedAtEnd := 100 |}.

(** Options with a threshold that no score reaches. *)
Definition strictOptions : Loop.BoulderLoopOptions :=
  {| Loop.config := {| comparison := {| threshold := 2; maxIterations := 5;
                                        improvementThreshold := 0.01;
                                        patchSwitchThreshold := 0.7 |} |};
     Loop.timeoutOverall := 1800;
     Loop.existingCode := None |}.





(** How a returned result arises from the state [st] in which iteration
    [k] starts: the loop ends before the iteration compares anything
    (timeout, or no iteration left), or the iteration compares and
    stops. *)
Definition ReturnsAt (options : Loop.BoulderLoopOptions) (env : Loop.Environment)
    (k : nat) (st : Loop.LoopState) (r : Loop.BoulderLoopResult)
    (fs' : Loop.FileSystem) : Prop :=
  Loop.finalCode r = Loop.st_currentCode st
  /\ Loop.files fs' = Loop.files (Loop.st_fs st)
  /\ (((Loop.r_stopReason r = Some timeout \/ Loop.r_stopReason r = Some max_iterations)
       /\ Loop.r_history r = Loop.st_history st
       /\ Loop.finalScore r = default 0 (Loop.st_previousScore st))
      \/ ((Loop.r_stopReason r = Some success \/ Loop.r_stopReason r = Some stop_converged)
          /\ exists ev,
               Loop.evaluate options (Z.of_nat k) (Loop.observe env (Z.of_nat k)) st
               = Some ev
               /\ Loop.r_history r = Loop.st_history st ++ [Loop.ev_record ev]
               /\ Loop.finalScore r = Loop.ev_compositeScore ev)).

(** What the strict run returns, and the project directory it leaves. *)
Definition sampleOutcome : Loop.Outcome :=
  default Loop.Threw (Loop.runBoulderLoop strictOptions sampleEnvironment emptyProject).

Definition sampleResult : Loop.BoulderLoopResult :=
  match sampleOutcome with
  | Loop.Returned r _ => r
  | Loop.Threw =>
      {| Loop.finalScore := 0; Loop.totalIterations := 0; Loop.r_stopReason := None;
         Loop.finalCode := ∅; Loop.r_history := []; Loop.r_elapsedMs := 0 |}
  end.

Definition sampleProject : Loop.FileSystem :=
  match sampleOutcome with
  | Loop.Returned _ fs => fs
  | Loop.Threw => emptyProject
  end.
(** * Properties *)

(** ** Facts about the number helpers *)

Module NumFacts.

Lemma ge_true a b : Num.ge a b = true <-> b <= a.
Proof. unfold Num.ge. apply Qle_bool_iff. Qed.

Lemma ge_false a b : Num.ge a b = false <-> a < b.
Proof.
  unfold Num.ge. split; intros H.
  - apply Qnot_le_lt. intros Hle. apply Qle_bool_iff in Hle. congruence.
  - destruct (Qle_bool b a) eqn:E; [|reflexivity].
    apply Qle_bool_iff in E. exfalso. exact (Qlt_not_le _ _ H E).
Qed.

Lemma le_true a b : Num.le a b = true <-> a <= b.
Proof. unfold Num.le. apply Qle_bool_iff. Qed.

Lemma le_false a b : Num.le a b = false <-> b < a.
Proof. exact (ge_false b a). Qed.

Lemma gt_true a b : Num.gt a b = true <-> b < a.
Proof. unfold Num.gt. rewrite negb_true_iff. exact (ge_false b a). Qed.

Lemma gt_false a b : Num.gt a b = false <-> a <= b.
Proof. unfold Num.gt. rewrite negb_false_iff. apply Qle_bool_iff. Qed.

Lemma lt_true a b : Num.lt a b = true <-> a < b.
Proof. unfold Num.lt. rewrite negb_true_iff. exact (ge_false a b). Qed.

Lemma lt_false a b : Num.lt a b = false <-> b <= a.
Proof. unfold Num.lt. rewrite negb_false_iff. apply Qle_bool_iff. Qed.

Lemma abs_nonneg a : 0 <= a -> Num.abs a = a.
Proof. intros H. unfold Num.abs. apply Qle_bool_iff in H. rewrite H. reflexivity. Qed.

Lemma clamp01_range v : 0 <= Num.clamp01 v /\ Num.clamp01 v <= 1.
Proof.
  unfold Num.clamp01, Num.max, Num.min.
  destruct (Qle_bool 1 v) eqn:E1.
  - simpl. split; [discriminate | apply Qle_refl].
  - destruct (Qle_bool 0 v) eqn:E0.
    + split; [apply Qle_bool_iff; exact E0|].
      apply Qlt_le_weak. apply (ge_false v 1). exact E1.
    + split; [apply Qle_refl | discriminate].
Qed.

(** Clamping is idempotent, as an equality of values (not only up to
    [==]). *)
Lemma clamp01_idem v : Num.clamp01 (Num.clamp01 v) = Num.clamp01 v.
Proof.
  unfold Num.clamp01, Num.max, Num.min.
  destruct (Qle_bool 1 v) eqn:E1; simpl.
  - reflexivity.
  - destruct (Qle_bool 0 v) eqn:E0.
    + rewrite E1, E0. reflexivity.
    + reflexivity.
Qed.


End NumFacts.

(** Turn the boolean tests of the embedding into rational
    (in)equalities. *)
Ltac num_props :=
  repeat match goal with
  | H : Num.ge _ _ = true |- _ => apply NumFacts.ge_true in H
  | H : Num.ge _ _ = false |- _ => apply NumFacts.ge_false in H
  | H : Num.gt _ _ = true |- _ => apply NumFacts.gt_true in H
  | H : Num.gt _ _ = false |- _ => apply NumFacts.gt_false in H
  | H : Num.lt _ _ = true |- _ => apply NumFacts.lt_true in H
  | H : Num.lt _ _ = false |- _ => apply NumFacts.lt_false in H
  | H : Num.le _ _ = true |- _ => apply NumFacts.le_true in H
  | H : Num.le _ _ = false |- _ => apply NumFacts.le_false in H
  end.

(** ** Iteration categories *)

(** After the three earlier tests have failed the difference lies between
    0 and the improvement threshold, so the final test of
    [categorizeIteration] always succeeds. *)
Lemma stalled_test_succeeds current previous improvementThreshold :
  Num.gt (current - previous) improvementThreshold = false ->
  Num.lt current previous = false ->
  Num.le (Num.abs (current - previous)) improvementThreshold = true.
Proof.
  intros Hgt Hlt. num_props. apply NumFacts.le_true.
  rewrite NumFacts.abs_nonneg; lra.
Qed.

(** C3. [categorizeIteration] answers [first] when there is no previous
    score; with a previous score it answers the first rule that matches
    in the order achieved, improved, regressed, stalled (one of them
    always does); and the two sample calls give achieved and regressed. *)
Theorem categorizeIteration_precedence :
  (forall current threshold improvementThreshold,
      categorizeIteration current None threshold improvementThreshold = first)
  /\ (forall current previous threshold improvementThreshold,
        Spec.categorize current previous threshold improvementThreshold
        = Some (categorizeIteration current (Some previous)
                                    threshold improvementThreshold))
  /\ categorizeIteration 0.96 (Some 0.8) 0.95 0.01 = achieved
  /\ categorizeIteration 0.8 (Some 0.85) 0.95 0.01 = regressed.
Proof.
  split; [reflexivity|]. split; [|split; reflexivity].
  intros current previous threshold improvementThreshold.
  unfold Spec.categorize, categorizeIteration.
  destruct (Num.ge current threshold); [reflexivity|].
  destruct (Num.gt (current - previous) improvementThreshold) eqn:Hgt; [reflexivity|].
  destruct (Num.lt current previous) eqn:Hlt; [reflexivity|].
  rewrite (stalled_test_succeeds _ _ _ Hgt Hlt). reflexivity.
Qed.

(** ** The per-round decision *)

Lemma slice_last_three_stalled (history : list IterationRecord) :
  (3 <=? length (slice_last 3 history))%nat
    && forallb isStalled (slice_last 3 history) = true
  <-> Spec.lastThreeStalled history.
Proof.
  unfold slice_last, Spec.lastThreeStalled. split.
  - intros H. apply andb_true_iff in H as [Hlen Hall].
    apply Nat.leb_le in Hlen. rewrite length_drop in Hlen.
    exists (take (length history - 3) history).
    destruct (drop (length history - 3) history) as [|a [|b [|c [|d rest]]]] eqn:Hd;
      try (apply (f_equal length) in Hd; rewrite length_drop in Hd; simpl in Hd; lia).
    exists a, b, c. split.
    + rewrite <- Hd. symmetry. apply take_drop.
    + simpl in Hall. unfold isStalled in Hall.
      repeat (apply andb_true_iff in Hall as [?%bool_decide_eq_true Hall]).
      auto.
  - intros (older & a & b & c & -> & Ha & Hb & Hc).
    rewrite length_app. simpl length.
    replace (length older + 3 - 3)%nat with (length older) by lia.
    rewrite drop_app_length. simpl. unfold isStalled.
    rewrite !bool_decide_eq_true_2 by assumption. reflexivity.
Qed.

Lemma slice_last_not_stalled (history : list IterationRecord) :
  ~ Spec.lastThreeStalled history ->
  (3 <=? length (slice_last 3 history))%nat
    && forallb isStalled (slice_last 3 history) = false.
Proof.
  intros Hn. apply not_true_is_false. intros H.
  apply Hn, slice_last_three_stalled, H.
Qed.

(** C1. The stop conditions of [suggestStrategy] are tried in the order
    threshold reached, iteration budget used up, three stalled rounds in a
    row; when none holds the recommendation does not stop. *)
Theorem suggestStrategy_stop_priority currentScore history config :
  let cfg := comparison config in
  let r := suggestStrategy currentScore history config in
  (threshold cfg <= currentScore ->
     shouldStop r = true /\ stopReason r = Some success)
  /\ (currentScore < threshold cfg ->
      maxIterations cfg <= historyLength history ->
      shouldStop r = true /\ stopReason r = Some max_iterations)
  /\ (currentScore < threshold cfg ->
      historyLength history < maxIterations cfg ->
      Spec.lastThreeStalled history ->
      shouldStop r = true /\ stopReason r = Some stop_converged)
  /\ (currentScore < threshold cfg ->
      historyLength history < maxIterations cfg ->
      ~ Spec.lastThreeStalled history ->
      shouldStop r = false).
Proof.
  intros cfg r. subst cfg r. unfold suggestStrategy.
  repeat split.
  - apply NumFacts.ge_true in H. rewrite H. reflexivity.
  - apply NumFacts.ge_true in H. rewrite H. reflexivity.
  - apply NumFacts.ge_false in H. apply NumFacts.ge_true in H0.
    rewrite H, H0. reflexivity.
  - apply NumFacts.ge_false in H. apply NumFacts.ge_true in H0.
    rewrite H, H0. reflexivity.
  - apply NumFacts.ge_false in H, H0. apply slice_last_three_stalled in H1.
    rewrite H, H0, H1. reflexivity.
  - apply NumFacts.ge_false in H, H0. apply slice_last_three_stalled in H1.
    rewrite H, H0, H1. reflexivity.
  - intros H H0 H1.
    apply NumFacts.ge_false in H, H0. apply slice_last_not_stalled in H1.
    rewrite H, H0, H1.
    destruct history as [|h0 t]; [reflexivity|].
    destruct (Num.gt _ _); reflexivity.
Qed.

Lemma suggestStrategy_stop_priority_witness :
  (shouldStop (suggestStrategy 0.96 [] mockConfig) = true
   /\ stopReason (suggestStrategy 0.96 [] mockConfig) = Some success)
  /\ (shouldStop (suggestStrategy 0.5 (replicate 10 (stalledRecord 1 0.5)) mockConfig) = true
      /\ stopReason (suggestStrategy 0.5 (replicate 10 (stalledRecord 1 0.5)) mockConfig)
         = Some max_iterations)
  /\ (shouldStop (suggestStrategy 0.5 (replicate 3 (stalledRecord 1 0.5)) mockConfig) = true
      /\ stopReason (suggestStrategy 0.5 (replicate 3 (stalledRecord 1 0.5)) mockConfig)
         = Some stop_converged)
  /\ shouldStop (suggestStrategy 0.5 [stalledRecord 1 0.5] mockConfig) = false.
Proof.
  split; [|split; [|split]].
  - apply (suggestStrategy_stop_priority 0.96 [] mockConfig).
    vm_compute. discriminate.
  - apply (suggestStrategy_stop_priority 0.5 (replicate 10 (stalledRecord 1 0.5)) mockConfig).
    + vm_compute. reflexivity.
    + vm_compute. discriminate.
  - apply (suggestStrategy_stop_priority 0.5 (replicate 3 (stalledRecord 1 0.5)) mockConfig).
    + vm_compute. reflexivity.
    + vm_compute. reflexivity.
    + exists [], (stalledRecord 1 0.5), (stalledRecord 1 0.5), (stalledRecord 1 0.5).
      repeat split.
  - apply (suggestStrategy_stop_priority 0.5 [stalledRecord 1 0.5] mockConfig).
    + vm_compute. reflexivity.
    + vm_compute. reflexivity.
    + intros (older & a & b & c & Heq & _).
      apply (f_equal length) in Heq. rewrite length_app in Heq. simpl in Heq. lia.
Defined.

(** ** Regression: rollback target and strategy flip *)

Section BestOf.

Let pick (best r : IterationRecord) : IterationRecord :=
  if Num.gt (score r) (score best) then r else best.

Lemma firstBest_singleton r : Spec.firstBest [r] r.
Proof.
  exists 0%nat. split; [reflexivity|]. split.
  - intros r' Hin. apply list_elem_of_singleton in Hin. subst r'. apply Qle_refl.
  - intros j r' Hj. lia.
Qed.

(** Appending one entry keeps the running best the first best. *)
Lemma firstBest_snoc seen best r :
  Spec.firstBest seen best -> Spec.firstBest (seen ++ [r]) (pick best r).
Proof.
  intros (i & Hi & Hmax & Hfirst). unfold pick.
  destruct (Num.gt (score r) (score best)) eqn:Hgt; num_props.
  - exists (length seen). split; [|split].
    + rewrite lookup_app_r by lia. rewrite Nat.sub_diag. reflexivity.
    + intros r' Hin. apply elem_of_app in Hin as [Hin|Hin].
      * specialize (Hmax _ Hin). lra.
      * apply list_elem_of_singleton in Hin. subst r'. apply Qle_refl.
    + intros j r' Hj Hlook. rewrite lookup_app_l in Hlook by exact Hj.
      apply list_elem_of_lookup_2 in Hlook. specialize (Hmax _ Hlook). lra.
  - exists i. pose proof (lookup_lt_Some _ _ _ Hi) as Hlt. split; [|split].
    + rewrite lookup_app_l by exact Hlt. exact Hi.
    + intros r' Hin. apply elem_of_app in Hin as [Hin|Hin].
      * exact (Hmax _ Hin).
      * apply list_elem_of_singleton in Hin. subst r'. exact Hgt.
    + intros j r' Hj Hlook. rewrite lookup_app_l in Hlook by lia.
      exact (Hfirst _ _ Hj Hlook).
Qed.

Lemma fold_pick_firstBest rest : forall seen best,
  Spec.firstBest seen best ->
  Spec.firstBest (seen ++ rest) (fold_left pick rest best).
Proof.
  induction rest as [|r rest IH]; intros seen best Hbest; simpl.
  - rewrite app_nil_r. exact Hbest.
  - replace (seen ++ r :: rest) with ((seen ++ [r]) ++ rest)
      by (rewrite <- app_assoc; reflexivity).
    apply IH, firstBest_snoc, Hbest.
Qed.

(** The [reduce] call, seeded with [history[0]], returns the first entry
    of maximal score. *)
Lemma bestOf_firstBest h0 rest :
  Spec.firstBest (h0 :: rest) (bestOf h0 (h0 :: rest)).
Proof.
  unfold bestOf. simpl.
  assert (Hself : Num.gt (score h0) (score h0) = false)
    by (apply NumFacts.gt_false, Qle_refl).
  rewrite Hself.
  exact (fold_pick_firstBest rest [h0] h0 (firstBest_singleton h0)).
Qed.

End BestOf.

Lemma firstBest_unique_iteration history a b :
  Spec.firstBest history a -> Spec.firstBest history b -> a = b.
Proof.
  intros (i & Hi & Hmaxa & Hfa) (j & Hj & Hmaxb & Hfb).
  destruct (Nat.lt_trichotomy i j) as [Hlt|[Heq|Hlt]].
  - pose proof (Hfb _ _ Hlt Hi) as H1.
    pose proof (Hmaxa b (list_elem_of_lookup_2 _ _ _ Hj)) as H2. lra.
  - subst j. congruence.
  - pose proof (Hfa _ _ Hlt Hj) as H1.
    pose proof (Hmaxb a (list_elem_of_lookup_2 _ _ _ Hi)) as H2. lra.
Qed.

Lemma last_with_default {A} (l : list A) (d x : A) :
  last l = Some x -> List.last l d = x.
Proof.
  induction l as [|a l IH]; intros H; [discriminate|].
  destruct l as [|b l].
  - simpl in *. congruence.
  - change (last (b :: l) = Some x) in H.
    change (List.last (b :: l) d = x). exact (IH H).
Qed.

Lemma flip_as_test s :
  (if decide (s = full_regen) then surgical_patch else full_regen) = Spec.flip s.
Proof. destruct s; reflexivity. Qed.

(** C2. On a non-empty history for which no stop condition holds, a last
    recorded score above the current one makes [suggestStrategy] ask for a
    rollback to the iteration of the first best-scoring entry of the whole
    history, with the strategy of the last round flipped; the sample
    history [(1, 0.80, full_regen)] at score 0.75 rolls back to 1 with
    [surgical_patch]. *)
Theorem suggestStrategy_regression :
  (forall currentScore history config lastRecord,
      let cfg := comparison config in
      let r := suggestStrategy currentScore history config in
      history <> [] ->
      currentScore < threshold cfg ->
      historyLength history < maxIterations cfg ->
      ~ Spec.lastThreeStalled history ->
      last history = Some lastRecord ->
      currentScore < score lastRecord ->
      exists best,
        Spec.firstBest history best
        /\ shouldStop r = false
        /\ shouldRollback r = true
        /\ rollbackTo r = Some (iteration best)
        /\ rec_strategy r = Spec.flip (strategy lastRecord))
  /\ (forall config,
        0.75 < threshold (comparison config) ->
        1 < maxIterations (comparison config) ->
        let r := suggestStrategy 0.75 regressionHistory config in
        shouldStop r = false /\ shouldRollback r = true
        /\ rollbackTo r = Some 1%Z /\ rec_strategy r = surgical_patch).
Proof.
  assert (General : forall currentScore history config lastRecord,
      let cfg := comparison config in
      let r := suggestStrategy currentScore history config in
      history <> [] ->
      currentScore < threshold cfg ->
      historyLength history < maxIterations cfg ->
      ~ Spec.lastThreeStalled history ->
      last history = Some lastRecord ->
      currentScore < score lastRecord ->
      exists best,
        Spec.firstBest history best
        /\ shouldStop r = false
        /\ shouldRollback r = true
        /\ rollbackTo r = Some (iteration best)
        /\ rec_strategy r = Spec.flip (strategy lastRecord)).
  { intros currentScore history config lastRecord cfg r Hne Hthr Hmax Hstall Hlast Hreg.
    subst cfg r. unfold suggestStrategy.
    apply NumFacts.ge_false in Hthr, Hmax. apply slice_last_not_stalled in Hstall.
    rewrite Hthr, Hmax, Hstall.
    destruct history as [|h0 rest]; [congruence|].
    rewrite (last_with_default _ h0 _ Hlast).
    apply NumFacts.gt_true in Hreg. rewrite Hreg.
    exists (bestOf h0 (h0 :: rest)). cbn [shouldStop shouldRollback rollbackTo rec_strategy].
    split; [apply bestOf_firstBest|].
    rewrite flip_as_test. repeat split. }
  split; [exact General|].
  intros config Hthr Hmax r.
  destruct (General 0.75 regressionHistory config
              {| iteration := 1; score := 0.80; strategy := full_regen;
                 filesModified := []; elapsedMs := 1000; category := first;
                 timestamp := 0 |})
    as (best & Hbest & Hstop & Hroll & Hto & Hstrat).
  - discriminate.
  - exact Hthr.
  - exact Hmax.
  - intros (older & a & b & c & Heq & _).
    apply (f_equal length) in Heq. rewrite length_app in Heq. simpl in Heq. lia.
  - reflexivity.
  - reflexivity.
  - fold r in Hstop, Hroll, Hto, Hstrat.
    rewrite (firstBest_unique_iteration _ _ _ Hbest (firstBest_singleton _)) in Hto.
    repeat split; assumption.
Qed.

Lemma suggestStrategy_regression_witness :
  exists best,
    Spec.firstBest regressionHistory best
    /\ shouldStop (suggestStrategy 0.75 regressionHistory mockConfig) = false
    /\ shouldRollback (suggestStrategy 0.75 regressionHistory mockConfig) = true
    /\ rollbackTo (suggestStrategy 0.75 regressionHistory mockConfig)
       = Some (iteration best)
    /\ rec_strategy (suggestStrategy 0.75 regressionHistory mockConfig)
       = Spec.flip full_regen.
Proof.
  refine (proj1 suggestStrategy_regression 0.75 regressionHistory mockConfig
            {| iteration := 1; score := 0.80; strategy := full_regen;
               filesModified := []; elapsedMs := 1000; category := first;
               timestamp := 0 |} _ _ _ _ _ _).
  - discriminate.
  - vm_compute. reflexivity.
  - vm_compute. reflexivity.
  - intros (older & a & b & c & Heq & _).
    apply (f_equal length) in Heq. rewrite length_app in Heq. simpl in Heq. lia.
  - reflexivity.
  - vm_compute. reflexivity.
Defined.

(** C10. Every recommendation is well-formed: it never both stops and
    rolls back; it carries a rollback target exactly when it rolls back
    and a stop reason exactly when it stops; and a stopping
    recommendation names [surgical_patch]. *)
Theorem suggestStrategy_well_formed currentScore history config :
  let r := suggestStrategy currentScore history config in
  ~ (shouldStop r = true /\ shouldRollback r = true)
  /\ (is_Some (rollbackTo r) <-> shouldRollback r = true)
  /\ (is_Some (stopReason r) <-> shouldStop r = true)
  /\ (shouldStop r = true -> rec_strategy r = surgical_patch).
Proof.
  intros r. subst r. unfold suggestStrategy.
  assert (Hnone : forall A, is_Some (@None A) <-> false = true)
    by (intros A; split; [intros [? ?]; discriminate | discriminate]).
  assert (Hsome : forall A (a : A), is_Some (Some a) <-> true = true)
    by (intros A a; split; [reflexivity | eauto]).
  destruct (Num.ge currentScore _);
    [cbn; repeat split; auto; try tauto; try (apply Hnone); try (apply Hsome); intros [? ?]; discriminate|].
  destruct (Num.ge (historyLength history) _);
    [cbn; repeat split; auto; try tauto; try (apply Hnone); try (apply Hsome); intros [? ?]; discriminate|].
  destruct (_ && _);
    [cbn; repeat split; auto; try tauto; try (apply Hnone); try (apply Hsome); intros [? ?]; discriminate|].
  destruct history as [|h0 rest].
  - cbn. repeat split; auto; try tauto; try (apply Hnone); try discriminate;
      intros [? ?]; discriminate.
  - destruct (Num.gt _ _).
    + cbn. repeat split; auto; try tauto; try (apply Hnone); try (apply Hsome);
        try discriminate; intros [? ?]; discriminate.
    + cbn. repeat split; auto; try tauto; try (apply Hnone); try discriminate;
        intros [? ?]; discriminate.
Qed.

(** ** The composite score *)

Lemma clamp01_proper a b : a == b -> Num.clamp01 a == Num.clamp01 b.
Proof.
  intros H. unfold Num.clamp01, Num.max, Num.min.
  assert (H1 : Qle_bool 1 a = Qle_bool 1 b) by (rewrite H; reflexivity).
  assert (H0 : Qle_bool 0 a = Qle_bool 0 b) by (rewrite H; reflexivity).
  rewrite <- H1. destruct (Qle_bool 1 a); [reflexivity|].
  rewrite <- H0. destruct (Qle_bool 0 a); [exact H | reflexivity].
Qed.

(** C4. [computeCompositeScore] is the rule table of the specification
    clamped to the unit interval, for all rational inputs; so its result
    lies in that interval, and the three sample calls give 1, 0.6 and
    0.4. *)
Theorem computeCompositeScore_table :
  (forall ssim layout vision,
      computeCompositeScore {| s_ssim := ssim; s_layout := layout; s_vision := vision |}
      == Num.clamp01 (Spec.blend ssim layout vision))
  /\ (forall scores, Spec.inUnit (computeCompositeScore scores))
  /\ computeCompositeScore {| s_ssim := 1; s_layout := None; s_vision := None |} == 1
  /\ computeCompositeScore {| s_ssim := 0; s_layout := None; s_vision := Some 1 |} == 0.6
  /\ computeCompositeScore {| s_ssim := 1; s_layout := None; s_vision := Some 0 |} == 0.4.
Proof.
  split; [|split; [|repeat split]].
  - intros ssim [layout|] [vision|]; unfold computeCompositeScore, Spec.blend;
      cbn [s_ssim s_layout s_vision]; apply clamp01_proper; ring.
  - intros [ssim [layout|] [vision|]]; unfold computeCompositeScore, Spec.inUnit;
      cbn [s_ssim s_layout s_vision]; apply NumFacts.clamp01_range.
Qed.

(** ** Sorting *)

Section ArraySortFacts.
Context {A : Type} (cmp : A -> A -> Q).

Lemma sort_insert_perm a l : Permutation (sort_insert cmp a l) (a :: l).
Proof.
  induction l as [|b l IH]; simpl; [reflexivity|].
  destruct (Num.gt (cmp a b) 0); [|reflexivity].
  rewrite IH. apply perm_swap.
Qed.

Lemma Array_sort_perm l : Permutation (Array_sort cmp l) l.
Proof.
  induction l as [|a l IH]; simpl; [reflexivity|].
  rewrite sort_insert_perm. apply perm_skip, IH.
Qed.

Lemma Array_sort_elem a l : a ∈ Array_sort cmp l <-> a ∈ l.
Proof. rewrite (Array_sort_perm l). reflexivity. Qed.


(** Stability: a class of elements that the comparator never orders
    strictly keeps its relative order. *)
Lemma sort_insert_filter (P : A -> Prop) `{forall a, Decision (P a)} a l :
  (forall b, P a -> P b -> Num.gt (cmp a b) 0 = false) ->
  filter P (sort_insert cmp a l) = filter P (a :: l).
Proof.
  intros Hclass. induction l as [|b l IH]; simpl; [reflexivity|].
  destruct (Num.gt (cmp a b) 0) eqn:Hgt; [|reflexivity].
  rewrite filter_cons, IH, !filter_cons.
  destruct (decide (P b)) as [Hb|Hb]; [|reflexivity].
  destruct (decide (P a)) as [Ha|Ha]; [|reflexivity].
  rewrite (Hclass b Ha Hb) in Hgt. discriminate.
Qed.

Lemma Array_sort_filter (P : A -> Prop) `{forall a, Decision (P a)} l :
  (forall a b, P a -> P b -> Num.gt (cmp a b) 0 = false) ->
  filter P (Array_sort cmp l) = filter P l.
Proof.
  intros Hclass. induction l as [|a l IH]; simpl; [reflexivity|].
  rewrite sort_insert_filter by (intros b; apply Hclass).
  rewrite !filter_cons, IH. reflexivity.
Qed.

(** Sortedness, for a comparator that is the difference of a key. *)
Context (key : A -> Q) (cmp_key : forall a b, cmp a b == key a - key b).

Lemma sort_insert_sorted a l :
  StronglySorted (fun a b => key a <= key b) l ->
  StronglySorted (fun a b => key a <= key b) (sort_insert cmp a l).
Proof.
  induction l as [|b l IH]; intros Hs; simpl.
  - constructor; [constructor | constructor].
  - apply StronglySorted_inv in Hs as [Hs Hb].
    destruct (Num.gt (cmp a b) 0) eqn:Hgt; num_props; rewrite cmp_key in Hgt.
    + constructor; [apply IH, Hs|].
      rewrite (sort_insert_perm a l).
      constructor; [lra | exact Hb].
    + constructor; [constructor; assumption|].
      constructor; [lra|].
      eapply Forall_impl; [exact Hb|]. intros c Hc. simpl in Hc. lra.
Qed.

Lemma Array_sort_sorted l :
  StronglySorted (fun a b => key a <= key b) (Array_sort cmp l).
Proof.
  induction l as [|a l IH]; simpl; [constructor|].
  apply sort_insert_sorted, IH.
Qed.

End ArraySortFacts.

(** ** Classification, priority and the report *)

Lemma StronglySorted_weaken {A} (R1 R2 : A -> A -> Prop) l :
  (forall a b, R1 a b -> R2 a b) -> StronglySorted R1 l -> StronglySorted R2 l.
Proof.
  intros Himp. induction 1 as [|a l Hs IH Hall]; constructor; [exact IH|].
  eapply Forall_impl; [exact Hall|]. intros b. apply Himp.
Qed.


Lemma analyzeRegion_priority va i region :
  priority (analyzeRegion va i region)
  = assignPriority (classification (analyzeRegion va i region)).
Proof. reflexivity. Qed.

Lemma report_regions_perm comparison va :
  Permutation (regions (analyzeDifferences comparison va))
              (imap (analyzeRegion va) (diffRegions comparison)).
Proof. unfold analyzeDifferences. cbn [regions]. apply Array_sort_perm. Qed.

(** C6. Without a label from the vision model a region wider or taller
    than 200 is [position], otherwise one of intensity above 0.5 is
    [color], otherwise it is [unknown]; the priority is fixed by the
    classification (missing, extra, position: high; size, spacing: medium;
    color, font, unknown: low), also for every region of a report. *)
Theorem classifyRegion_heuristics_and_priority :
  (forall region,
      (200 < DiffRegion.width region \/ 200 < DiffRegion.height region)%Z ->
      classifyRegion region None = Classification.position)
  /\ (forall region,
        (DiffRegion.width region <= 200)%Z -> (DiffRegion.height region <= 200)%Z ->
        0.5 < DiffRegion.diffIntensity region ->
        classifyRegion region None = Classification.color)
  /\ (forall region,
        (DiffRegion.width region <= 200)%Z -> (DiffRegion.height region <= 200)%Z ->
        DiffRegion.diffIntensity region <= 0.5 ->
        classifyRegion region None = Classification.unknown)
  /\ (assignPriority Classification.missing = Priority.high
      /\ assignPriority Classification.extra = Priority.high
      /\ assignPriority Classification.position = Priority.high
      /\ assignPriority Classification.size = Priority.medium
      /\ assignPriority Classification.spacing = Priority.medium
      /\ assignPriority Classification.color = Priority.low
      /\ assignPriority Classification.font = Priority.low
      /\ assignPriority Classification.unknown = Priority.low)
  /\ (forall comparison visionAnalysis r,
        r ∈ regions (analyzeDifferences comparison visionAnalysis) ->
        priority r = assignPriority (classification r)).
Proof.
  split; [|split; [|split; [|split]]].
  - intros region [H|H]; unfold classifyRegion.
    + apply Z.ltb_lt in H. rewrite H. reflexivity.
    + apply Z.ltb_lt in H. rewrite H, orb_true_r. reflexivity.
  - intros region Hw Hh Hi. unfold classifyRegion.
    apply Z.ltb_ge in Hw, Hh. apply NumFacts.gt_true in Hi.
    rewrite Hw, Hh, Hi. reflexivity.
  - intros region Hw Hh Hi. unfold classifyRegion.
    apply Z.ltb_ge in Hw, Hh. apply NumFacts.gt_false in Hi.
    rewrite Hw, Hh, Hi. reflexivity.
  - repeat split.
  - intros comparison va r Hin.
    rewrite (report_regions_perm comparison va) in Hin.
    apply elem_of_lookup_imap_1 in Hin as (i & region & -> & _).
    apply analyzeRegion_priority.
Qed.

Lemma classifyRegion_heuristics_and_priority_witness :
  classifyRegion largeRegion None = Classification.position
  /\ classifyRegion denseRegion None = Classification.color
  /\ classifyRegion smallRegion None = Classification.unknown.
Proof.
  destruct classifyRegion_heuristics_and_priority as (Hpos & Hcol & Hunk & _).
  split; [|split].
  - apply Hpos. left. reflexivity.
  - apply Hcol; [discriminate | discriminate | reflexivity].
  - apply Hunk; discriminate.
Defined.



(** ** Counted loops *)

Lemma fold_lifted_None {S I} (body : I -> S -> option S) (l : list I) :
  fold_left (lifted body) l None = None.
Proof. induction l as [|i l IH]; simpl; [reflexivity | exact IH]. Qed.

Section ForUpto.
Context {S : Type} (body : Z -> S -> option S).

(** With a positive step, the loop runs its body at
    [i, i + step, ..., i + step * (n - 1)], where [n] is the number of
    these values not above [limit]; fuel [n] is enough. *)
Lemma for_upto_unroll (step limit : Z) (n : nat) :
  (0 < step)%Z ->
  forall fuel i s,
    (n <= fuel)%nat ->
    (forall k, (k < n)%nat -> i + step * Z.of_nat k <= limit)%Z ->
    (limit < i + step * Z.of_nat n)%Z ->
    for_upto fuel i limit step body s
    = fold_left (lifted body) (map (fun k => i + step * Z.of_nat k)%Z (seq 0 n)) (Some s).
Proof.
  intros Hstep. induction n as [|n IH]; intros fuel i s Hfuel Hin Hout.
  - simpl. destruct fuel; simpl;
      (destruct (i <=? limit)%Z eqn:E; [apply Z.leb_le in E; lia | reflexivity]).
  - destruct fuel as [|fuel]; [lia|]. simpl for_upto.
    assert (Hi : (i <=? limit)%Z = true).
    { apply Z.leb_le. specialize (Hin 0%nat). lia. }
    rewrite Hi. simpl seq. simpl map. simpl fold_left.
    replace (i + step * Z.of_nat 0)%Z with i by lia.
    destruct (body i s) as [s'|]; simpl; [|symmetry; apply fold_lifted_None].
    rewrite (IH fuel (i + step)%Z s'); [|lia| |lia].
    + f_equal. rewrite <- seq_shift, map_map. apply map_ext. intros k. lia.
    + intros k Hk. specialize (Hin (Datatypes.S k)). lia.
Qed.

End ForUpto.

(** ** Structural similarity *)

Lemma fold_left_bind {A B C} (g : C -> B -> C) (k : A -> list B) (l : list A) :
  forall c, fold_left g (l ≫= k) c = fold_left (fun c a => fold_left g (k a) c) l c.
Proof.
  induction l as [|a l IH]; intros c; [reflexivity|].
  rewrite bind_cons, fold_left_app. simpl. apply IH.
Qed.

Lemma fold_left_ext_in {A B} (f g : A -> B -> A) (l : list B) :
  (forall a b, b ∈ l -> f a b = g a b) ->
  forall a, fold_left f l a = fold_left g l a.
Proof.
  induction l as [|b l IH]; intros Heq a; [reflexivity|].
  simpl. rewrite Heq by (left; reflexivity).
  apply IH. intros a' b' Hin. apply Heq. right. exact Hin.
Qed.

(** The origins are the multiples of 8 at which a whole window fits. *)
Lemma windowOrigins_iff (width height : nat) x y :
  (x, y) ∈ Spec.windowOrigins width height
  <-> exists i j : nat,
        x = Z.of_nat (8 * i) /\ y = Z.of_nat (8 * j)
        /\ (8 * i + 8 <= width)%nat /\ (8 * j + 8 <= height)%nat.
Proof.
  unfold Spec.windowOrigins. split.
  - intros Hin.
    apply list_elem_of_bind in Hin as (j & Hin & Hj).
    apply list_elem_of_bind in Hin as (i & Hin & Hi).
    apply list_elem_of_singleton in Hin. injection Hin as -> ->.
    apply elem_of_seq in Hi, Hj. exists i, j.
    pose proof (Nat.Div0.mul_div_le width 8). pose proof (Nat.Div0.mul_div_le height 8).
    repeat split; lia.
  - intros (i & j & -> & -> & Hi & Hj).
    apply list_elem_of_bind. exists j. split.
    + apply list_elem_of_bind. exists i. split; [apply list_elem_of_singleton; reflexivity|].
      apply elem_of_seq.
      pose proof (Nat.div_le_lower_bound width 8 (Datatypes.S i)). lia.
    + apply elem_of_seq.
      pose proof (Nat.div_le_lower_bound height 8 (Datatypes.S j)). lia.
Qed.

Lemma windowOrigins_nil (width height : nat) :
  Spec.windowOrigins width height = [] <-> (width < 8 \/ height < 8)%nat.
Proof.
  split.
  - intros Hnil. destruct (Nat.lt_ge_cases width 8) as [|Hw]; [left; assumption|].
    destruct (Nat.lt_ge_cases height 8) as [|Hh]; [right; assumption|].
    exfalso. assert (Hin : (Z.of_nat (8 * 0), Z.of_nat (8 * 0)) ∈ Spec.windowOrigins width height).
    { apply windowOrigins_iff. exists 0%nat, 0%nat. repeat split; lia. }
    rewrite Hnil in Hin. inversion Hin.
  - intros Hsmall. destruct (Spec.windowOrigins width height) as [|[x y] l] eqn:E;
      [reflexivity|].
    assert (Hin : (x, y) ∈ Spec.windowOrigins width height) by (rewrite E; left).
    apply windowOrigins_iff in Hin as (i & j & _ & _ & Hi & Hj). lia.
Qed.

Section SSIMFacts.
Context (width height : nat) (designGray screenshotGray : list Z).
Context (design_size : (width * height <= length designGray)%nat).
Context (screenshot_size : (width * height <= length screenshotGray)%nat).

Lemma windowOffsets_bound wy wx :
  (wy, wx) ∈ SSIM.windowOffsets -> (wy < 8 /\ wx < 8)%nat.
Proof.
  unfold SSIM.windowOffsets. intros Hin.
  apply list_elem_of_bind in Hin as (wy' & Hin & Hwy).
  apply list_elem_of_bind in Hin as (wx' & Hin & Hwx).
  apply list_elem_of_singleton in Hin. injection Hin as -> ->.
  apply elem_of_seq in Hwy, Hwx. unfold SSIM.windowSize in *. lia.
Qed.

(** Inside a complete window every read hits both buffers. *)
Lemma accumulate_defined x y s wy wx :
  (0 <= x)%Z -> (0 <= y)%Z ->
  (x + Z.of_nat wx < Z.of_nat width)%Z -> (y + Z.of_nat wy < Z.of_nat height)%Z ->
  is_Some (SSIM.accumulate width designGray screenshotGray x y (Some s) (wy, wx)).
Proof.
  intros Hx Hy Hxw Hyh. unfold SSIM.accumulate. simpl.
  set (idx := Z.to_nat _).
  assert (Hidx : (idx < width * height)%nat) by (subst idx; nia).
  destruct (lookup_lt_is_Some_2 designGray idx ltac:(lia)) as [a ->].
  destruct (lookup_lt_is_Some_2 screenshotGray idx ltac:(lia)) as [b ->].
  simpl. eauto.
Qed.

Lemma windowSums_defined x y :
  (0 <= x)%Z -> (0 <= y)%Z ->
  (x + 8 <= Z.of_nat width)%Z -> (y + 8 <= Z.of_nat height)%Z ->
  is_Some (SSIM.windowSums width designGray screenshotGray x y).
Proof.
  intros Hx Hy Hxw Hyh. unfold SSIM.windowSums.
  generalize SSIM.zeroSums.
  pose proof windowOffsets_bound as Hb. revert Hb.
  induction SSIM.windowOffsets as [|[wy wx] l IH]; intros Hb s; simpl; [eauto|].
  destruct (Hb wy wx ltac:(left)) as [Hwy Hwx].
  destruct (accumulate_defined x y s wy wx) as [s' Hs']; [lia..|].
  simpl in Hs'. rewrite Hs'. apply IH.
  intros wy' wx' Hin. apply Hb. right. exact Hin.
Qed.

Lemma windowSSIM_defined x y :
  (0 <= x)%Z -> (0 <= y)%Z ->
  (x + 8 <= Z.of_nat width)%Z -> (y + 8 <= Z.of_nat height)%Z ->
  is_Some (SSIM.windowSSIM width designGray screenshotGray x y).
Proof.
  intros Hx Hy Hxw Hyh. unfold SSIM.windowSSIM.
  destruct (windowSums_defined x y Hx Hy Hxw Hyh) as [s ->]. simpl. eauto.
Qed.

(** Every complete window has an SSIM value. *)
Lemma windowValues_defined :
  is_Some (mapM (fun o => SSIM.windowSSIM width designGray screenshotGray (fst o) (snd o))
                (Spec.windowOrigins width height)).
Proof.
  apply mapM_is_Some, Forall_forall. intros [x y] Hin.
  apply windowOrigins_iff in Hin as (i & j & -> & -> & Hi & Hj).
  apply windowSSIM_defined; cbn [fst snd]; lia.
Qed.

End SSIMFacts.

Lemma fold_left_map {A B C} (f : A -> C -> A) (g : B -> C) (l : list B) :
  forall a, fold_left f (map g l) a = fold_left (fun a x => f a (g x)) l a.
Proof. induction l as [|x l IH]; intros a; [reflexivity | apply IH]. Qed.

Lemma fold_left_ext {A B} (f g : A -> B -> A) (l : list B) :
  (forall a b, f a b = g a b) -> forall a, fold_left f l a = fold_left g l a.
Proof. intros Heq. apply fold_left_ext_in. intros a b _. apply Heq. Qed.

Section SSIMLoops.
Context (width height : nat) (designGray screenshotGray : list Z).

Let windowAt (o : Z * Z) (st : Q * nat) : option (Q * nat) :=
  SSIM.windowStep width designGray screenshotGray (snd o) (fst o) st.

Let valueAt (o : Z * Z) : option Q :=
  SSIM.windowSSIM width designGray screenshotGray (fst o) (snd o).

(** The number of loop turns along an axis of length [n] is [n / 8]. *)
Lemma axis_turns (n : nat) :
  (n / 8 <= Datatypes.S n)%nat
  /\ (forall k, (k < n / 8)%nat ->
        (0 + Z.of_nat SSIM.windowSize * Z.of_nat k
         <= Z.of_nat n - Z.of_nat SSIM.windowSize)%Z)
  /\ (Z.of_nat n - Z.of_nat SSIM.windowSize
      < 0 + Z.of_nat SSIM.windowSize * Z.of_nat (n / 8))%Z.
Proof.
  unfold SSIM.windowSize.
  pose proof (Nat.div_mod_eq n 8) as Heq.
  pose proof (Nat.mod_upper_bound n 8 ltac:(lia)) as Hlt.
  split; [lia|]. split; [intros k Hk|]; lia.
Qed.

Lemma rowStep_unrolled y st :
  SSIM.rowStep width designGray screenshotGray y st
  = fold_left (fun acc i => lifted windowAt acc (Z.of_nat (8 * i), y))
              (seq 0 (width / 8)) (Some st).
Proof.
  unfold SSIM.rowStep.
  destruct (axis_turns width) as (Hfuel & Hin & Hout).
  rewrite (for_upto_unroll _ _ _ (width / 8)); [|reflexivity|exact Hfuel|exact Hin|exact Hout].
  rewrite fold_left_map. apply fold_left_ext. intros acc i.
  unfold lifted, windowAt, SSIM.windowSize. cbn [fst snd].
  replace (0 + Z.of_nat 8 * Z.of_nat i)%Z with (Z.of_nat (8 * i)) by lia.
  reflexivity.
Qed.

Lemma fold_lifted_pass {S I} (body : I -> S -> option S) (l : list I) (acc : option S) :
  (s ← acc; fold_left (lifted body) l (Some s)) = fold_left (lifted body) l acc.
Proof. destruct acc; simpl; [reflexivity|]. symmetry. apply fold_lifted_None. Qed.

(** The two nested loops visit exactly the window origins, in order. *)
Lemma windows_loop_unrolled :
  for_upto (Datatypes.S height) 0 (Z.of_nat height - Z.of_nat SSIM.windowSize)
           (Z.of_nat SSIM.windowSize)
           (SSIM.rowStep width designGray screenshotGray) (0, O)
  = fold_left (lifted windowAt) (Spec.windowOrigins width height) (Some (0, O)).
Proof.
  destruct (axis_turns height) as (Hfuel & Hin & Hout).
  rewrite (for_upto_unroll _ _ _ (height / 8)); [|reflexivity|exact Hfuel|exact Hin|exact Hout].
  rewrite fold_left_map. unfold Spec.windowOrigins.
  rewrite fold_left_bind. apply fold_left_ext. intros acc j.
  rewrite fold_left_bind.
  replace (0 + Z.of_nat SSIM.windowSize * Z.of_nat j)%Z with (Z.of_nat (8 * j))
    by (unfold SSIM.windowSize; lia).
  unfold lifted at 1.
  transitivity (s ← acc; fold_left (lifted (fun (i : nat) st => windowAt (Z.of_nat (8 * i), Z.of_nat (8 * j)) st))
                                   (seq 0 (width / 8)) (Some s)).
  - destruct acc as [s|]; [|reflexivity]. simpl. apply rowStep_unrolled.
  - rewrite fold_lifted_pass. apply fold_left_ext. intros acc' i. reflexivity.
Qed.

Lemma fold_windowAt origins : forall vals st,
  mapM valueAt origins = Some vals ->
  fold_left (lifted windowAt) origins (Some st)
  = Some (fold_left Qplus vals (fst st), (snd st + length vals)%nat).
Proof.
  intros vals st Hvals. apply mapM_Some in Hvals. revert st.
  induction Hvals as [|o v origins vals Hv _ IH]; intros st.
  - simpl. rewrite Nat.add_0_r. destruct st; reflexivity.
  - cbn [fold_left]. unfold lifted at 2. cbn [mbind option_bind].
    unfold windowAt at 2, SSIM.windowStep. unfold valueAt in Hv. rewrite Hv.
    cbn [mbind option_bind]. rewrite IH. cbn [fst snd length].
    f_equal. f_equal. lia.
Qed.

End SSIMLoops.

(** The loops of [computeSSIM] return the clamped mean of the window
    values. *)
Lemma computeSSIM_mean width height designGray screenshotGray elapsed :
  (width * height <= length designGray)%nat ->
  (width * height <= length screenshotGray)%nat ->
  exists vals,
    mapM (fun o => SSIM.windowSSIM width designGray screenshotGray (fst o) (snd o))
         (Spec.windowOrigins width height) = Some vals
    /\ SSIM.computeSSIM width height designGray screenshotGray elapsed
       = Some {| mssim := Num.clamp01 (Spec.meanOr1 vals); performanceMs := elapsed |}.
Proof.
  intros Hd Hs.
  destruct (windowValues_defined width height designGray screenshotGray Hd Hs)
    as [vals Hvals].
  exists vals. split; [exact Hvals|].
  unfold SSIM.computeSSIM. rewrite windows_loop_unrolled.
  rewrite (fold_windowAt width designGray screenshotGray _ vals (0, O) Hvals).
  cbn [mbind option_bind fst snd]. f_equal. f_equal.
  unfold Spec.meanOr1. fold (Num.clamp01).
  destruct vals as [|v vals]; reflexivity.
Qed.

(** C8. On two aligned grey images of the given width and height,
    [computeSSIM] returns the mean of the SSIM values of the complete 8x8
    windows (those at the multiples of 8 that fit; a partial trailing
    window is left out), 1 when there is no complete window, which is the
    case exactly when the width or the height is below 8; the returned
    value is clamped to the unit interval. *)
Theorem computeSSIM_windows width height designGray screenshotGray elapsed :
  (width * height <= length designGray)%nat ->
  (width * height <= length screenshotGray)%nat ->
  exists vals,
    mapM (fun o => SSIM.windowSSIM width designGray screenshotGray (fst o) (snd o))
         (Spec.windowOrigins width height) = Some vals
    /\ (forall x y, (x, y) ∈ Spec.windowOrigins width height
          <-> exists i j : nat,
                x = Z.of_nat (8 * i) /\ y = Z.of_nat (8 * j)
                /\ (8 * i + 8 <= width)%nat /\ (8 * j + 8 <= height)%nat)
    /\ SSIM.computeSSIM width height designGray screenshotGray elapsed
       = Some {| mssim := Num.clamp01 (Spec.meanOr1 vals); performanceMs := elapsed |}
    /\ (vals = [] <-> (width < 8 \/ height < 8)%nat)
    /\ ((width < 8 \/ height < 8)%nat -> Num.clamp01 (Spec.meanOr1 vals) = 1)
    /\ Spec.inUnit (Num.clamp01 (Spec.meanOr1 vals)).
Proof.
  intros Hd Hs.
  destruct (computeSSIM_mean width height designGray screenshotGray elapsed Hd Hs)
    as (vals & Hvals & Hrun).
  assert (Hnil : vals = [] <-> (width < 8 \/ height < 8)%nat).
  { rewrite <- windowOrigins_nil. pose proof (length_mapM _ _ _ Hvals) as Hlen.
    split; intros H.
    - subst vals. simpl in Hlen. apply nil_length_inv. exact Hlen.
    - rewrite H in Hlen. simpl in Hlen. apply nil_length_inv. symmetry. exact Hlen. }
  exists vals. split; [exact Hvals|]. split; [apply windowOrigins_iff|].
  split; [exact Hrun|]. split; [exact Hnil|]. split.
  - intros Hsmall. apply Hnil in Hsmall. subst vals. reflexivity.
  - apply NumFacts.clamp01_range.
Qed.

(** ** The grid of bright-pixel counts *)

Lemma ceilDiv_bounds (n : nat) :
  (n <= 32 * Regions.ceilDiv n Regions.gridSize < n + 32)%nat.
Proof.
  unfold Regions.ceilDiv, Regions.gridSize.
  pose proof (Nat.div_mod_eq (n + 32 - 1) 32).
  pose proof (Nat.mod_upper_bound (n + 32 - 1) 32 ltac:(lia)). lia.
Qed.

Section GridFacts.
Context (width height : nat) (rawData : list Z).

Let gridCols := Regions.ceilDiv width Regions.gridSize.
Let gridRows := Regions.ceilDiv height Regions.gridSize.
Let grid := Regions.buildGrid width height rawData.

Lemma pixels_bound x y :
  (x, y) ∈ Regions.pixels width height <-> (x < width /\ y < height)%nat.
Proof.
  unfold Regions.pixels. rewrite list_elem_of_bind. split.
  - intros (y' & Hin & Hy). apply list_elem_of_bind in Hin as (x' & Hin & Hx).
    apply list_elem_of_singleton in Hin. injection Hin as -> ->.
    apply elem_of_seq in Hx, Hy. lia.
  - intros [Hx Hy]. exists y. split; [|apply elem_of_seq; lia].
    apply list_elem_of_bind. exists x. split; [left|apply elem_of_seq; lia].
Qed.

Lemma pixels_NoDup : NoDup (Regions.pixels width height).
Proof.
  unfold Regions.pixels. apply NoDup_bind.
  - intros y1 y2 p _ _ H1 H2.
    apply list_elem_of_bind in H1 as (x1 & H1 & _).
    apply list_elem_of_bind in H2 as (x2 & H2 & _).
    apply list_elem_of_singleton in H1, H2. congruence.
  - intros y _. apply NoDup_bind.
    + intros x1 x2 p _ _ H1 H2. apply list_elem_of_singleton in H1, H2. congruence.
    + intros x _. apply NoDup_singleton.
    + apply NoDup_seq.
  - apply NoDup_seq.
Qed.

(** The slot the counting loop increments always exists. *)
Lemma cellIndex_lt p :
  p ∈ Regions.pixels width height ->
  (fst p / 32 < gridCols /\ snd p / 32 < gridRows
   /\ cellIndex gridCols p < gridCols * gridRows)%nat.
Proof.
  destruct p as [x y]. intros Hin. apply pixels_bound in Hin as [Hx Hy].
  pose proof (ceilDiv_bounds width) as Hw. pose proof (ceilDiv_bounds height) as Hh.
  fold gridCols in Hw. fold gridRows in Hh. cbn [fst snd].
  pose proof (Nat.div_mod_eq x 32). pose proof (Nat.mod_upper_bound x 32 ltac:(lia)).
  pose proof (Nat.div_mod_eq y 32). pose proof (Nat.mod_upper_bound y 32 ltac:(lia)).
  assert (Hgx : (x / 32 < gridCols)%nat) by lia.
  assert (Hgy : (y / 32 < gridRows)%nat) by lia.
  split; [exact Hgx|]. split; [exact Hgy|].
  unfold cellIndex, Regions.gridSize. cbn [fst snd]. nia.
Qed.

Lemma fold_countPixel_length ps : forall g,
  length (fold_left (Regions.countPixel width gridCols rawData) ps g) = length g.
Proof.
  induction ps as [|[x y] ps IH]; intros g; [reflexivity|].
  simpl. rewrite IH. unfold Regions.countPixel.
  destruct (Regions.exceeds _ _); [apply length_alter | reflexivity].
Qed.

Lemma grid_length : length grid = (gridCols * gridRows)%nat.
Proof.
  unfold grid, Regions.buildGrid. rewrite fold_countPixel_length.
  apply length_replicate.
Qed.

(** Each pass of the loop body adds one to the slot of a bright pixel
    and leaves the other slots alone. *)
Lemma fold_countPixel_lookup ps c : forall g,
  fold_left (Regions.countPixel width gridCols rawData) ps g !! c
  = (fun k => k + length (filter (fun p => bright width rawData p
                                           /\ cellIndex gridCols p = c) ps))%nat
    <$> g !! c.
Proof.
  induction ps as [|[x y] ps IH]; intros g.
  - simpl. destruct (g !! c); simpl; [f_equal; lia | reflexivity].
  - cbn [fold_left]. rewrite IH. rewrite filter_cons.
    unfold Regions.countPixel. cbv beta iota.
    assert (Hcell : cellIndex gridCols (x, y)
                    = (y / Regions.gridSize * gridCols + x / Regions.gridSize)%nat)
      by reflexivity.
    assert (Hbright : bright width rawData (x, y)
                      <-> Regions.exceeds rawData ((y * width + x) * 4) = true)
      by reflexivity.
    destruct (Regions.exceeds rawData ((y * width + x) * 4)) eqn:Hex.
    + destruct (decide (y / Regions.gridSize * gridCols + x / Regions.gridSize = c)%nat)
        as [Heq|Hne].
      * rewrite decide_True by (split; [apply Hbright; reflexivity | rewrite Hcell; exact Heq]).
        rewrite Heq, list_lookup_alter_eq.
        destruct (g !! c); simpl; [f_equal; lia | reflexivity].
      * rewrite decide_False by (rewrite Hcell; intros [_ ?]; contradiction).
        rewrite list_lookup_alter_ne by exact Hne. reflexivity.
    + rewrite decide_False by (intros [Hb _]; apply Hbright in Hb; discriminate).
      reflexivity.
Qed.

Lemma grid_lookup c :
  (c < gridCols * gridRows)%nat ->
  grid !! c = Some (brightInCell width height rawData gridCols c).
Proof.
  intros Hc. unfold grid, Regions.buildGrid. rewrite fold_countPixel_lookup.
  fold gridCols gridRows. rewrite lookup_replicate_2 by exact Hc. reflexivity.
Qed.

End GridFacts.

(** ** The flood fill *)

Lemma bounded_NoDup_length (l : list nat) (n : nat) :
  NoDup l -> (forall c, c ∈ l -> (c < n)%nat) -> (length l <= n)%nat.
Proof.
  intros Hnd Hlt. rewrite <- (length_seq n 0).
  apply submseteq_length, NoDup_submseteq; [exact Hnd|].
  intros c Hc. apply elem_of_seq. specialize (Hlt c Hc). lia.
Qed.

Section FillFacts.
Context (gridCols gridRows : nat) (grid : list nat).

Let n := (gridCols * gridRows)%nat.

Lemma visitNeighbour_pending done cx cy st d :
  Pending n done st ->
  Pending n done (Regions.visitNeighbour gridCols gridRows grid cx cy st d).
Proof.
  intros [Hnd Hseen]. destruct st as [q v], d as [dx dy].
  unfold Regions.visitNeighbour.
  destruct (_ && _ && _ && _) eqn:Hin; [|split; assumption].
  set (ni := Z.to_nat _).
  destruct (Regions.active grid ni && negb (bool_decide (ni ∈ v))) eqn:Hnew;
    [|split; assumption].
  apply andb_true_iff in Hnew as [_ Hfresh].
  apply negb_true_iff, bool_decide_eq_false in Hfresh.
  repeat (apply andb_true_iff in Hin as [Hin ?]).
  assert (Hni : (ni < n)%nat) by (subst ni n; nia).
  unfold Pending. cbn [fst snd] in *. split.
  - rewrite app_assoc. apply NoDup_app. split; [exact Hnd|]. split.
    + intros c Hc Hc'. apply list_elem_of_singleton in Hc'. subst c.
      apply Hfresh, (Hseen ni Hc).
    + apply NoDup_singleton.
  - intros c Hc. rewrite app_assoc in Hc. apply elem_of_app in Hc as [Hc|Hc].
    + destruct (Hseen c Hc) as [Hv Hlt].
      split; [apply elem_of_union; right; exact Hv | exact Hlt].
    + apply list_elem_of_singleton in Hc. subst c.
      split; [apply elem_of_union; left; apply elem_of_singleton; reflexivity | exact Hni].
Qed.

Lemma neighbours_pending done cx cy ds : forall st,
  Pending n done st ->
  Pending n done (fold_left (Regions.visitNeighbour gridCols gridRows grid cx cy) ds st).
Proof.
  induction ds as [|d ds IH]; intros st Hst; [exact Hst|].
  simpl. apply IH, visitNeighbour_pending, Hst.
Qed.

Lemma sumCells_snoc done cell :
  sumCells grid (done ++ [cell]) = (sumCells grid done + default O (grid !! cell))%nat.
Proof.
  unfold sumCells. rewrite sum_list_with_app. simpl. lia.
Qed.

(** One turn of the loop moves the dequeued cell to [done]. *)
Lemma fillStep_inv done cell rest f :
  FillInv gridCols n grid done f ->
  Regions.queue f = cell :: rest ->
  FillInv gridCols n grid (done ++ [cell])
          (Regions.fillStep gridCols gridRows grid cell rest f).
Proof.
  intros [Hnd Hseen Htotal Hbox] Hq. rewrite Hq in Hnd, Hseen.
  unfold Regions.fillStep.
  pose proof (neighbours_pending (done ++ [cell]) (cell mod gridCols) (cell / gridCols)
                Regions.directions (rest, Regions.visited f)) as Hpend.
  destruct (fold_left _ Regions.directions (rest, Regions.visited f)) as [q' v'].
  destruct Hpend as [Hnd' Hseen'].
  { split; cbn [fst snd]; rewrite <- app_assoc; assumption. }
  cbn [fst snd] in *.
  split; cbn [Regions.queue Regions.visited Regions.totalPixels
              Regions.minX Regions.maxX Regions.minY Regions.maxY].
  - exact Hnd'.
  - exact Hseen'.
  - rewrite sumCells_snoc, Htotal. reflexivity.
  - intros c Hc. apply elem_of_app in Hc as [Hc|Hc].
    + specialize (Hbox c Hc). lia.
    + apply list_elem_of_singleton in Hc. subst c. lia.
Qed.

(** The fill terminates within the fuel it is given and ends with an
    empty queue; the cell at the head of the queue is among those it
    handles. *)
Lemma fillLoop_inv fuel : forall done f,
  FillInv gridCols n grid done f ->
  (n <= fuel + length done)%nat ->
  exists f' done',
    Regions.fillLoop fuel gridCols gridRows grid f = Some f'
    /\ FillInv gridCols n grid done' f'
    /\ Regions.queue f' = []
    /\ (forall c, c ∈ done -> c ∈ done')
    /\ (forall c, head (Regions.queue f) = Some c -> c ∈ done').
Proof.
  induction fuel as [|fuel IH]; intros done f Hinv Hfuel.
  - destruct (Regions.queue f) as [|cell rest] eqn:Hq.
    + exists f, done. simpl. rewrite Hq.
      split; [reflexivity|]. split; [exact Hinv|]. split; [reflexivity|].
      split; [tauto | intros c Hc; discriminate].
    + exfalso. destruct Hinv as [Hnd Hseen _ _]. rewrite Hq in Hnd, Hseen.
      pose proof (bounded_NoDup_length _ n Hnd (fun c Hc => proj2 (Hseen c Hc))) as Hlen.
      rewrite length_app in Hlen. simpl in Hlen. lia.
  - destruct (Regions.queue f) as [|cell rest] eqn:Hq.
    + exists f, done. simpl. rewrite Hq.
      split; [reflexivity|]. split; [exact Hinv|]. split; [reflexivity|].
      split; [tauto | intros c Hc; discriminate].
    + destruct (IH (done ++ [cell])
                   (Regions.fillStep gridCols gridRows grid cell rest f))
        as (f' & done' & Hrun & Hinv' & Hempty & Hsub & _).
      * apply fillStep_inv; assumption.
      * rewrite length_app. simpl. lia.
      * exists f', done'. simpl. rewrite Hq.
        split; [exact Hrun|]. split; [exact Hinv'|]. split; [exact Hempty|]. split.
        -- intros c Hc. apply Hsub, elem_of_app. left. exact Hc.
        -- intros c Hc. injection Hc as <-. apply Hsub, elem_of_app. right. left.
Qed.

End FillFacts.

(** ** Counting lemmas *)

Lemma filter_iff_in {A} (P1 P2 : A -> Prop)
    `{!forall x, Decision (P1 x), !forall x, Decision (P2 x)} (l : list A) :
  (forall x, x ∈ l -> P1 x <-> P2 x) -> filter P1 l = filter P2 l.
Proof.
  induction l as [|a l IH]; intros Hiff; [reflexivity|].
  assert (Ha : P1 a <-> P2 a) by (apply Hiff; left).
  assert (Hl : filter P1 l = filter P2 l).
  { apply IH. intros x Hx. apply Hiff. right. exact Hx. }
  rewrite !filter_cons, Hl.
  destruct (decide (P1 a)), (decide (P2 a)); tauto.
Qed.

Lemma filter_none {A} (P : A -> Prop) `{!forall x, Decision (P x)} (l : list A) :
  (forall x, ~ P x) -> filter P l = [].
Proof.
  intros Hno. induction l as [|a l IH]; [reflexivity|].
  rewrite filter_cons_False by apply Hno. exact IH.
Qed.

Section CountByKey.
Context {A : Type} (B : A -> Prop) `{!forall a, Decision (B a)} (key : A -> nat).

(** Elements whose key is [c0] or in [cs] split into the two groups. *)
Lemma filter_key_split c0 cs ps :
  c0 ∉ cs ->
  length (filter (fun p => B p /\ key p ∈ c0 :: cs) ps)
  = (length (filter (fun p => B p /\ key p = c0) ps)
     + length (filter (fun p => B p /\ key p ∈ cs) ps))%nat.
Proof.
  intros Hfresh. induction ps as [|p ps IH]; [reflexivity|].
  rewrite !filter_cons.
  destruct (decide (B p /\ key p = c0)) as [[Hb Hk]|Hn0].
  - rewrite decide_True by (split; [exact Hb | rewrite Hk; left]).
    rewrite decide_False by (intros [_ Hin]; rewrite Hk in Hin; contradiction).
    simpl. rewrite IH. reflexivity.
  - destruct (decide (B p /\ key p ∈ cs)) as [[Hb Hk]|Hn1].
    + rewrite decide_True by (split; [exact Hb | right; exact Hk]).
      simpl. rewrite IH. lia.
    + rewrite decide_False; [exact IH|].
      intros [Hb Hin]. apply elem_of_cons in Hin as [Hin|Hin]; tauto.
Qed.

Lemma sum_counts_by_key cs ps :
  NoDup cs ->
  sum_list_with (fun c => length (filter (fun p => B p /\ key p = c) ps)) cs
  = length (filter (fun p => B p /\ key p ∈ cs) ps).
Proof.
  induction 1 as [|c0 cs Hfresh _ IH]; simpl.
  - rewrite filter_none; [reflexivity|]. intros p [_ Hin]. inversion Hin.
  - rewrite IH, filter_key_split by exact Hfresh. reflexivity.
Qed.

End CountByKey.

Lemma bind_const_length {A B} (f : A -> list B) (m : nat) (l : list A) :
  (forall a, length (f a) = m) -> length (l ≫= f) = (length l * m)%nat.
Proof.
  intros Hf. induction l as [|a l IH]; [reflexivity|].
  rewrite bind_cons, length_app, Hf, IH. simpl. lia.
Qed.

Lemma boxCells_length minX maxX minY maxY :
  length (boxCells minX maxX minY maxY)
  = ((maxX + 1 - minX) * (maxY + 1 - minY))%nat.
Proof.
  unfold boxCells.
  rewrite (bind_const_length _ (maxY + 1 - minY)).
  - rewrite length_seq. reflexivity.
  - intros gx. rewrite (bind_const_length _ 1).
    + rewrite length_seq. lia.
    + reflexivity.
Qed.

Lemma boxCells_elem minX maxX minY maxY gx gy :
  (minX <= gx <= maxX)%nat -> (minY <= gy <= maxY)%nat ->
  (gx, gy) ∈ boxCells minX maxX minY maxY.
Proof.
  intros Hx Hy. unfold boxCells. apply list_elem_of_bind. exists gx. split.
  - apply list_elem_of_bind. exists gy. split; [left | apply elem_of_seq; lia].
  - apply elem_of_seq. lia.
Qed.

Lemma rectPixels_length x0 w0 y0 h0 :
  length (rectPixels x0 w0 y0 h0) = (w0 * h0)%nat.
Proof.
  unfold rectPixels. rewrite (bind_const_length _ w0).
  - rewrite length_seq. lia.
  - intros py. rewrite (bind_const_length _ 1); [rewrite length_seq; lia | reflexivity].
Qed.

Lemma rectPixels_elem x0 w0 y0 h0 px py :
  (x0 <= px < x0 + w0)%nat -> (y0 <= py < y0 + h0)%nat ->
  (px, py) ∈ rectPixels x0 w0 y0 h0.
Proof.
  intros Hx Hy. unfold rectPixels. apply list_elem_of_bind. exists py. split.
  - apply list_elem_of_bind. exists px. split; [left | apply elem_of_seq; lia].
  - apply elem_of_seq. lia.
Qed.

(** ** Grid indices and their coordinates *)

Lemma cellCoords_bounds gridCols gridRows c :
  (c < gridCols * gridRows)%nat ->
  (c mod gridCols < gridCols /\ c / gridCols < gridRows)%nat.
Proof.
  intros Hc. assert (Hpos : (gridCols <> 0)%nat) by lia.
  split; [apply Nat.mod_upper_bound, Hpos|].
  apply Nat.Div0.div_lt_upper_bound. lia.
Qed.

Lemma cellCoords_inj gridCols c1 c2 :
  cellCoords gridCols c1 = cellCoords gridCols c2 -> c1 = c2.
Proof.
  unfold cellCoords. intros H. injection H as Hm Hd.
  rewrite (Nat.div_mod_eq c1 gridCols), (Nat.div_mod_eq c2 gridCols). congruence.
Qed.

Lemma cellCoords_of_index gridCols gx gy :
  (gx < gridCols)%nat -> cellCoords gridCols (gy * gridCols + gx) = (gx, gy).
Proof.
  intros Hgx. unfold cellCoords. f_equal.
  - rewrite Nat.add_comm, Nat.Div0.mod_add. apply Nat.mod_small, Hgx.
  - rewrite Nat.div_add_l by lia. rewrite (Nat.div_small gx) by exact Hgx. lia.
Qed.

(** ** From a finished fill to a region *)

Lemma sum_list_with_ext_in {A} (f g : A -> nat) (l : list A) :
  (forall a, a ∈ l -> f a = g a) -> sum_list_with f l = sum_list_with g l.
Proof.
  induction l as [|a l IH]; intros Heq; [reflexivity|].
  simpl. rewrite (Heq a) by left. rewrite IH; [reflexivity|].
  intros b Hb. apply Heq. right. exact Hb.
Qed.

Lemma sum_list_with_le {A} (f : A -> nat) (m : nat) (l : list A) :
  (forall a, a ∈ l -> (f a <= m)%nat) -> (sum_list_with f l <= m * length l)%nat.
Proof.
  induction l as [|a l IH]; intros Hle; simpl; [lia|].
  specialize (Hle a (list_elem_of_here _ _)) as Ha.
  assert (Hl : (sum_list_with f l <= m * length l)%nat).
  { apply IH. intros b Hb. apply Hle. right. exact Hb. }
  lia.
Qed.

Section RegionFacts.
Context (width height : nat) (rawData : list Z).

Let gridCols := Regions.ceilDiv width Regions.gridSize.
Let gridRows := Regions.ceilDiv height Regions.gridSize.
Let grid := Regions.buildGrid width height rawData.
Let n := (gridCols * gridRows)%nat.

(** A grid cell holds at most 32 x 32 pixels. *)
Lemma brightInCell_le c : (brightInCell width height rawData gridCols c <= 1024)%nat.
Proof.
  unfold brightInCell.
  set (gx := (c mod gridCols)%nat). set (gy := (c / gridCols)%nat).
  set (cellPixels := x ← seq (32 * gx) 32; y ← seq (32 * gy) 32; [(x, y)]).
  assert (Hlen : length cellPixels = 1024%nat).
  { unfold cellPixels. rewrite (bind_const_length _ 32).
    - rewrite length_seq. reflexivity.
    - intros x. rewrite (bind_const_length _ 1); [rewrite length_seq; reflexivity|].
      reflexivity. }
  rewrite <- Hlen. apply submseteq_length, NoDup_submseteq.
  - apply NoDup_filter, pixels_NoDup.
  - intros [x y] Hin. apply list_elem_of_filter in Hin as [[_ Hcell] Hpix].
    destruct (cellIndex_lt width height (x, y) Hpix) as (Hgx & _ & _).
    fold gridCols in Hgx. cbn [fst snd] in Hgx.
    pose proof (cellCoords_of_index gridCols (x / 32) (y / 32) Hgx) as Hco.
    unfold cellIndex, Regions.gridSize in Hcell. cbn [fst snd] in Hcell.
    rewrite Hcell in Hco.
    assert (Hx : gx = (x / 32)%nat) by exact (f_equal fst Hco).
    assert (Hy : gy = (y / 32)%nat) by exact (f_equal snd Hco).
    pose proof (Nat.div_mod_eq x 32). pose proof (Nat.mod_upper_bound x 32 ltac:(lia)).
    pose proof (Nat.div_mod_eq y 32). pose proof (Nat.mod_upper_bound y 32 ltac:(lia)).
    unfold cellPixels. apply list_elem_of_bind. exists x. split.
    + apply list_elem_of_bind. exists y. split; [left | apply elem_of_seq; lia].
    + apply elem_of_seq. lia.
Qed.

Lemma sumCells_counts done :
  (forall c, c ∈ done -> (c < n)%nat) ->
  sumCells grid done
  = sum_list_with (brightInCell width height rawData gridCols) done.
Proof.
  intros Hlt. unfold sumCells. apply sum_list_with_ext_in. intros c Hc.
  unfold grid. rewrite grid_lookup by (apply Hlt, Hc). reflexivity.
Qed.

Lemma sumCells_le done :
  (forall c, c ∈ done -> (c < n)%nat) ->
  (sumCells grid done <= 1024 * length done)%nat.
Proof.
  intros Hlt. rewrite sumCells_counts by exact Hlt.
  apply sum_list_with_le. intros c _. apply brightInCell_le.
Qed.

(** The grid counts of a set of cells add up to the number of bright
    pixels lying in those cells. *)
Lemma sumCells_bright done :
  NoDup done ->
  (forall c, c ∈ done -> (c < n)%nat) ->
  sumCells grid done
  = length (Spec.brightPixelsIn width height rawData (cellCoords gridCols <$> done)).
Proof.
  intros Hnd Hlt. rewrite sumCells_counts by exact Hlt.
  unfold brightInCell.
  rewrite (sum_counts_by_key (bright width rawData) (cellIndex gridCols)) by exact Hnd.
  unfold Spec.brightPixelsIn. f_equal. apply filter_iff_in.
  intros [x y] Hpix.
  destruct (cellIndex_lt width height (x, y) Hpix) as (Hgx & _ & _).
  fold gridCols in Hgx. cbn [fst snd] in Hgx.
  pose proof (cellCoords_of_index gridCols (x / 32) (y / 32) Hgx) as Hco.
  change (y / 32 * gridCols + x / 32)%nat with (cellIndex gridCols (x, y)) in Hco.
  unfold bright. cbn [fst snd].
  split; intros [Hb Hin]; (split; [exact Hb|]).
  - apply list_elem_of_fmap. exists (cellIndex gridCols (x, y)).
    split; [symmetry; exact Hco | exact Hin].
  - apply list_elem_of_fmap in Hin as (c & Hc & Hin).
    rewrite <- Hco in Hc. apply cellCoords_inj in Hc. rewrite Hc. exact Hin.
Qed.

Lemma done_in_box done f :
  FillInv gridCols n grid done f ->
  (length done
   <= (Regions.maxX f + 1 - Regions.minX f) * (Regions.maxY f + 1 - Regions.minY f))%nat.
Proof.
  intros [Hnd _ _ Hbox].
  rewrite <- boxCells_length, <- (length_fmap (cellCoords gridCols)).
  apply submseteq_length, NoDup_submseteq.
  - apply NoDup_fmap_2_strong.
    + intros c1 c2 _ _. apply cellCoords_inj.
    + apply NoDup_app in Hnd as [Hnd _]. exact Hnd.
  - intros [gx gy] Hin. apply list_elem_of_fmap in Hin as (c & Hc & Hin).
    unfold cellCoords in Hc. injection Hc as -> ->.
    destruct (Hbox c Hin) as [Hx Hy]. apply boxCells_elem; assumption.
Qed.

End RegionFacts.

Section RegionGood.
Context (width height : nat) (rawData : list Z) (minRegionSize : Q).

Let gridCols := Regions.ceilDiv width Regions.gridSize.
Let gridRows := Regions.ceilDiv height Regions.gridSize.
Let grid := Regions.buildGrid width height rawData.
Let n := (gridCols * gridRows)%nat.

(** The region made from a finished fill meets every requirement. *)
Lemma makeRegion_good done f :
  FillInv gridCols n grid done f ->
  Regions.queue f = [] ->
  done <> [] ->
  minRegionSize <= inject_Z (Z.of_nat (Regions.totalPixels f)) ->
  goodRegion width height rawData minRegionSize (Regions.makeRegion width height f).
Proof.
  intros Hinv Hq Hne Hsize.
  pose proof (done_in_box width height rawData done f Hinv) as Hcells.
  destruct Hinv as [Hnd Hseen Htotal Hbox].
  rewrite Hq, app_nil_r in Hnd, Hseen.
  assert (Hlt : forall c, c ∈ done -> (c < n)%nat) by (intros c Hc; apply Hseen, Hc).
  pose proof (sumCells_le width height rawData done Hlt) as Hsum.
  pose proof (sumCells_bright width height rawData done Hnd Hlt) as Hbright.
  fold gridCols grid in Hsum, Hbright. rewrite <- Htotal in Hsum, Hbright.
  pose proof (ceilDiv_bounds width) as Hw. pose proof (ceilDiv_bounds height) as Hh.
  fold gridCols in Hw. fold gridRows in Hh.
  assert (Hcoords : forall c, c ∈ done ->
            (Regions.minX f <= c mod gridCols <= Regions.maxX f
             /\ Regions.minY f <= c / gridCols <= Regions.maxY f
             /\ c mod gridCols < gridCols /\ c / gridCols < gridRows)%nat).
  { intros c Hc. destruct (Hbox c Hc) as [Hx Hy].
    destruct (cellCoords_bounds gridCols gridRows c (Hlt c Hc)) as [Hcx Hcy].
    repeat split; lia. }
  destruct done as [|c0 done']; [congruence|].
  assert (Hfit : (Regions.minX f <= Regions.maxX f /\ Regions.minX f < gridCols
                  /\ Regions.minY f <= Regions.maxY f /\ Regions.minY f < gridRows)%nat).
  { destruct (Hcoords c0 (list_elem_of_here _ _)) as (Hx0 & Hy0 & Hcx0 & Hcy0).
    revert Hx0 Hy0 Hcx0 Hcy0.
    generalize (c0 mod gridCols)%nat (c0 / gridCols)%nat. intros cx0 cy0. lia. }
  destruct Hfit as (HfitX & HfitC & HfitY & HfitR).
  set (boxW := (Regions.maxX f + 1 - Regions.minX f)%nat) in *.
  set (boxH := (Regions.maxY f + 1 - Regions.minY f)%nat) in *.
  assert (Harea : (Z.of_nat (Regions.totalPixels f)
                   <= (Z.of_nat (Regions.maxX f) - Z.of_nat (Regions.minX f) + 1) * 32
                      * ((Z.of_nat (Regions.maxY f) - Z.of_nat (Regions.minY f) + 1) * 32))%Z).
  { assert (Hnat : (Regions.totalPixels f <= (boxW * 32) * (boxH * 32))%nat) by nia.
    apply Nat2Z.inj_le in Hnat. rewrite !Nat2Z.inj_mul in Hnat.
    subst boxW boxH. rewrite !Nat2Z.inj_sub, !Nat2Z.inj_add in Hnat by lia.
    lia. }
  assert (Hpos : (0 < (Z.of_nat (Regions.maxX f) - Z.of_nat (Regions.minX f) + 1) * 32
                      * ((Z.of_nat (Regions.maxY f) - Z.of_nat (Regions.minY f) + 1) * 32))%Z)
    by nia.
  set (w0 := Nat.min (32 * boxW) (width - 32 * Regions.minX f)).
  set (h0 := Nat.min (32 * boxH) (height - 32 * Regions.minY f)).
  assert (Hrect : (Regions.totalPixels f <= w0 * h0)%nat).
  { rewrite Hbright.
    rewrite <- (rectPixels_length (32 * Regions.minX f) w0 (32 * Regions.minY f) h0).
    apply submseteq_length, NoDup_submseteq.
    - apply NoDup_filter, pixels_NoDup.
    - intros [px py] Hin. apply list_elem_of_filter in Hin as [[_ Hcell] Hpix].
      apply pixels_bound in Hpix as [Hpx Hpy]. cbn [fst snd] in Hcell.
      apply list_elem_of_fmap in Hcell as (c & Hc & Hin).
      assert (Hgx : (px / 32)%nat = (c mod gridCols)%nat) by exact (f_equal fst Hc).
      assert (Hgy : (py / 32)%nat = (c / gridCols)%nat) by exact (f_equal snd Hc).
      destruct (Hcoords c Hin) as (Hx & Hy & _ & _).
      rewrite <- Hgx in Hx. rewrite <- Hgy in Hy. clear Hgx Hgy Hc.
      pose proof (Nat.div_mod_eq px 32). pose proof (Nat.mod_upper_bound px 32 ltac:(lia)).
      pose proof (Nat.div_mod_eq py 32). pose proof (Nat.mod_upper_bound py 32 ltac:(lia)).
      apply rectPixels_elem; subst w0 h0 boxW boxH; lia. }
  unfold goodRegion, Regions.makeRegion, Regions.gridSize.
  cbn [DiffRegion.pixelCount DiffRegion.width DiffRegion.height DiffRegion.diffIntensity].
  change (Z.of_nat 32) with 32%Z.
  split; [exact Hsize|]. split; [lia|]. split; [lia|].
  assert (Hcount : (Z.of_nat (Regions.totalPixels f)
            <= Z.min ((Z.of_nat (Regions.maxX f) - Z.of_nat (Regions.minX f) + 1) * 32)
                     (Z.of_nat width - Z.of_nat (Regions.minX f) * 32)
               * Z.min ((Z.of_nat (Regions.maxY f) - Z.of_nat (Regions.minY f) + 1) * 32)
                       (Z.of_nat height - Z.of_nat (Regions.minY f) * 32))%Z).
  { apply Nat2Z.inj_le in Hrect. rewrite Nat2Z.inj_mul in Hrect.
    replace (Z.min ((Z.of_nat (Regions.maxX f) - Z.of_nat (Regions.minX f) + 1) * 32)
                   (Z.of_nat width - Z.of_nat (Regions.minX f) * 32))
      with (Z.of_nat w0) by (subst w0 boxW; lia).
    replace (Z.min ((Z.of_nat (Regions.maxY f) - Z.of_nat (Regions.minY f) + 1) * 32)
                   (Z.of_nat height - Z.of_nat (Regions.minY f) * 32))
      with (Z.of_nat h0) by (subst h0 boxH; lia).
    exact Hrect. }
  split; [|split; [|exact Hcount]].
  - apply Z.ltb_lt in Hpos as Hposb. rewrite Hposb.
    rewrite Zlt_Qlt in Hpos. rewrite Zle_Qle in Harea.
    assert (H0 : 0 <= inject_Z (Z.of_nat (Regions.totalPixels f))).
    { rewrite <- (Zle_Qle 0). lia. }
    split.
    + apply Qle_shift_div_l; [exact Hpos|]. rewrite Qmult_0_l. exact H0.
    + apply Qle_shift_div_r; [exact Hpos|]. rewrite Qmult_1_l. exact Harea.
  - exists (cellCoords gridCols <$> (c0 :: done')). split; [|split].
    + apply NoDup_fmap_2_strong; [|exact Hnd].
      intros c1 c2 _ _. apply cellCoords_inj.
    + apply Forall_forall. intros [gx gy] Hin.
      apply list_elem_of_fmap in Hin as (c & Hc & Hin).
      assert (Hgx : gx = (c mod gridCols)%nat) by exact (f_equal fst Hc).
      assert (Hgy : gy = (c / gridCols)%nat) by exact (f_equal snd Hc).
      destruct (Hcoords c Hin) as (Hx & Hy & Hcx & Hcy).
      rewrite <- Hgx in Hx, Hcx. rewrite <- Hgy in Hy, Hcy.
      clear Hgx Hgy Hc.
      unfold Spec.cellInBox, Regions.makeRegion, Regions.gridSize.
      cbn [DiffRegion.x DiffRegion.y DiffRegion.width DiffRegion.height fst snd].
      change (Z.of_nat 32) with 32%Z. lia.
    + unfold Regions.makeRegion. cbn [DiffRegion.pixelCount].
      rewrite Hbright. reflexivity.
Qed.

(** One turn of the scan over the grid keeps all regions good, and does
    not fail. *)
Lemma scanCell_good visited regions i :
  (i < n)%nat ->
  Forall (goodRegion width height rawData minRegionSize) regions ->
  exists visited' regions',
    Regions.scanCell width height gridCols gridRows grid minRegionSize
                     (Some (visited, regions)) i
    = Some (visited', regions')
    /\ Forall (goodRegion width height rawData minRegionSize) regions'.
Proof.
  intros Hi Hgood. unfold Regions.scanCell. cbn [mbind option_bind].
  destruct (bool_decide (grid !! i = Some O) || bool_decide (i ∈ visited)) eqn:Hskip.
  { exists visited, regions. split; [reflexivity | exact Hgood]. }
  apply orb_false_iff in Hskip as [_ Hfresh]. apply bool_decide_eq_false in Hfresh.
  set (f0 := {| Regions.minX := gridCols; Regions.maxX := O;
                Regions.minY := gridRows; Regions.maxY := O;
                Regions.totalPixels := O; Regions.queue := [i];
                Regions.visited := {[i]} ∪ visited |}).
  assert (Hinv0 : FillInv gridCols n grid [] f0).
  { split; cbn [Regions.queue Regions.visited Regions.totalPixels app].
    - apply NoDup_singleton.
    - intros c Hc. apply list_elem_of_singleton in Hc. subst c.
      split; [apply elem_of_union; left; apply elem_of_singleton; reflexivity | exact Hi].
    - reflexivity.
    - intros c Hc. inversion Hc. }
  destruct (fillLoop_inv gridCols gridRows grid (length grid) [] f0 Hinv0)
    as (f & done & Hrun & Hinv & Hempty & _ & Hhead).
  { unfold grid. rewrite grid_length. fold gridCols gridRows. simpl. lia. }
  rewrite Hrun. cbn [mbind option_bind].
  destruct (Num.lt _ minRegionSize) eqn:Hsmall.
  - exists (Regions.visited f), regions. split; [reflexivity | exact Hgood].
  - exists (Regions.visited f), (regions ++ [Regions.makeRegion width height f]).
    split; [reflexivity|]. apply Forall_app. split; [exact Hgood|].
    apply Forall_singleton. apply NumFacts.lt_false in Hsmall.
    apply (makeRegion_good done f Hinv Hempty); [|exact Hsmall].
    intros ->. specialize (Hhead i eq_refl). inversion Hhead.
Qed.

Lemma scan_good cells : forall visited regions,
  (forall i, i ∈ cells -> (i < n)%nat) ->
  Forall (goodRegion width height rawData minRegionSize) regions ->
  exists visited' regions',
    fold_left (Regions.scanCell width height gridCols gridRows grid minRegionSize)
              cells (Some (visited, regions))
    = Some (visited', regions')
    /\ Forall (goodRegion width height rawData minRegionSize) regions'.
Proof.
  induction cells as [|i cells IH]; intros visited regions Hlt Hgood.
  - exists visited, regions. split; [reflexivity | exact Hgood].
  - destruct (scanCell_good visited regions i (Hlt i (list_elem_of_here _ _)) Hgood)
      as (v1 & r1 & Hstep & Hgood1).
    cbn [fold_left]. rewrite Hstep. apply IH; [|exact Hgood1].
    intros j Hj. apply Hlt. right. exact Hj.
Qed.

End RegionGood.

(** The scan never fails, so [findDiffRegions] always returns. *)
Lemma findDiffRegions_total width height rawData minRegionSize :
  is_Some (Regions.findDiffRegions width height rawData minRegionSize).
Proof.
  unfold Regions.findDiffRegions.
  destruct (scan_good width height rawData minRegionSize
              (seq 0 (length (Regions.buildGrid width height rawData))) ∅ [])
    as (visited & regions & Hscan & _).
  { intros i Hi. apply elem_of_seq in Hi. rewrite grid_length in Hi. lia. }
  { constructor. }
  rewrite Hscan. cbn [mbind option_bind]. eauto.
Qed.

(** C5. [findDiffRegions] returns, for every diff image and every
    [minRegionSize], a list in descending order of [diffIntensity] in
    which every region has a pixel count of at least [minRegionSize], a
    positive width and height and an intensity in the unit interval; the
    pixel count is the number of bright pixels in the region's grid
    cells, not the area of its bounding box, which it never exceeds. *)
Theorem findDiffRegions_sorted_and_bounded width height rawData minRegionSize :
  exists regions,
    Regions.findDiffRegions width height rawData minRegionSize = Some regions
    /\ Spec.descendingIntensity regions
    /\ Forall (fun r =>
                 minRegionSize <= inject_Z (DiffRegion.pixelCount r)
                 /\ (0 < DiffRegion.width r)%Z
                 /\ (0 < DiffRegion.height r)%Z
                 /\ Spec.inUnit (DiffRegion.diffIntensity r)
                 /\ Spec.countsBrightPixels width height rawData r
                 /\ (DiffRegion.pixelCount r
                     <= DiffRegion.width r * DiffRegion.height r)%Z)
              regions.
Proof.
  unfold Regions.findDiffRegions.
  destruct (scan_good width height rawData minRegionSize
              (seq 0 (length (Regions.buildGrid width height rawData))) ∅ [])
    as (visited & regions & Hscan & Hgood).
  { intros i Hi. apply elem_of_seq in Hi. rewrite grid_length in Hi. lia. }
  { constructor. }
  rewrite Hscan. cbn [mbind option_bind snd].
  eexists. split; [reflexivity|]. split.
  - unfold Spec.descendingIntensity.
    eapply StronglySorted_weaken;
      [|apply (Array_sort_sorted _ (fun r => - DiffRegion.diffIntensity r));
        intros a b; ring].
    intros a b Hab. simpl in Hab. lra.
  - rewrite Array_sort_perm. exact Hgood.
Qed.

(** ** [compareImages] *)

Lemma computeSSIM_clamped width height designGray screenshotGray elapsed r :
  SSIM.computeSSIM width height designGray screenshotGray elapsed = Some r ->
  exists m, mssim r = Num.clamp01 m.
Proof.
  unfold SSIM.computeSSIM. intros H.
  destruct (for_upto _ _ _ _ _ _) as [[totalSSIM windowCount]|]; [|discriminate].
  cbn [mbind option_bind] in H. injection H as <-. cbn [mssim]. eauto.
Qed.

Lemma computeSSIM_windows_witness :
  exists vals,
    mapM (fun o => SSIM.windowSSIM 16 (replicate 128 10%Z) (replicate 128 200%Z)
                                   (fst o) (snd o))
         (Spec.windowOrigins 16 8) = Some vals
    /\ (forall x y, (x, y) ∈ Spec.windowOrigins 16 8
          <-> exists i j : nat,
                x = Z.of_nat (8 * i) /\ y = Z.of_nat (8 * j)
                /\ (8 * i + 8 <= 16)%nat /\ (8 * j + 8 <= 8)%nat)
    /\ SSIM.computeSSIM 16 8 (replicate 128 10%Z) (replicate 128 200%Z) 0
       = Some {| mssim := Num.clamp01 (Spec.meanOr1 vals); performanceMs := 0 |}
    /\ (vals = [] <-> (16 < 8 \/ 8 < 8)%nat)
    /\ ((16 < 8 \/ 8 < 8)%nat -> Num.clamp01 (Spec.meanOr1 vals) = 1)
    /\ Spec.inUnit (Num.clamp01 (Spec.meanOr1 vals)).
Proof.
  apply (computeSSIM_windows 16 8 (replicate 128 10%Z) (replicate 128 200%Z) 0).
  - rewrite length_replicate. lia.
  - rewrite length_replicate. lia.
Defined.

(** C9. The composite score of a [ComparisonResult] is its SSIM score:
    [compareImages] passes only [ssim] to the scorer, and the SSIM score is
    already clamped.  Layout and vision play no part in it; the vision
    score is blended in afterwards by the loop.  On aligned images
    [compareImages] does produce a result. *)
Theorem compareImages_composite_is_ssim :
  (forall d,
      (d_width d * d_height d <= length (d_designGray d))%nat ->
      (d_width d * d_height d <= length (d_screenshotGray d))%nat ->
      exists cr, compareImages d = Some cr)
  /\ (forall d cr,
        compareImages d = Some cr ->
        compositeScore cr = mssim (ssim cr)
        /\ compositeScore cr
           = computeCompositeScore
               {| s_ssim := mssim (ssim cr); s_layout := None; s_vision := None |}
        /\ loopCompositeScore cr None = compositeScore cr
        /\ forall v, loopCompositeScore cr (Some v)
                     == Num.clamp01 (0.4 * mssim (ssim cr) + 0.6 * v)).
Proof.
  split.
  - intros d Hd Hs. unfold compareImages.
    destruct (computeSSIM_mean (d_width d) (d_height d) (d_designGray d)
                (d_screenshotGray d) (d_elapsed d) Hd Hs) as (vals & _ & ->).
    destruct (findDiffRegions_total (d_width d) (d_height d) (d_diffRaw d) 100)
      as [regions ->].
    cbn [mbind option_bind]. eauto.
  - intros d cr H. unfold compareImages in H.
    destruct (SSIM.computeSSIM _ _ _ _ _) as [ssimResult|] eqn:Hssim; [|discriminate].
    destruct (Regions.findDiffRegions _ _ _ _) as [regions|]; [|discriminate].
    cbn [mbind option_bind] in H. injection H as <-.
    cbn [compositeScore ssim]. unfold loopCompositeScore. cbn [ssim].
    apply computeSSIM_clamped in Hssim as [m Hm].
    split; [|split; [reflexivity|split; [reflexivity|]]].
    + unfold computeCompositeScore. cbn [s_vision s_layout s_ssim].
      rewrite Hm. apply NumFacts.clamp01_idem.
    + intros v. unfold computeCompositeScore. cbn [s_vision s_layout s_ssim].
      apply clamp01_proper. ring.
Qed.

Lemma compareImages_composite_is_ssim_witness :
  (exists cr, compareImages sampleDecoded = Some cr)
  /\ match compareImages sampleDecoded with
     | Some cr => compositeScore cr = mssim (ssim cr)
     | None => False
     end.
Proof.
  split.
  - apply (proj1 compareImages_composite_is_ssim sampleDecoded).
    + vm_compute. lia.
    + vm_compute. lia.
  - destruct (compareImages sampleDecoded) as [cr|] eqn:Hcr.
    + apply (proj2 compareImages_composite_is_ssim sampleDecoded cr Hcr).
    + vm_compute in Hcr. discriminate.
Defined.

(** ** The embedding evaluated on sample inputs *)

Example categorizeIteration_tests :
  categorizeIteration 0.5 None 0.95 0.01 = first
  /\ categorizeIteration 0.95 (Some 0.9) 0.95 0.01 = achieved
  /\ categorizeIteration 0.85 (Some 0.83) 0.95 0.01 = improved
  /\ categorizeIteration 0.85 (Some 0.845) 0.95 0.01 = stalled
  /\ categorizeIteration 0.851 (Some 0.84) 0.95 0.01 = improved
  /\ categorizeIteration 0.8499 (Some 0.84) 0.95 0.01 = stalled.
Proof. repeat split. Qed.

Example suggestStrategy_tests :
  rec_strategy (suggestStrategy 0.65 [] mockConfig) = full_regen
  /\ rec_strategy (suggestStrategy 0.75 [] mockConfig) = surgical_patch
  /\ rollbackTo (suggestStrategy 0.75 regressionHistory mockConfig) = Some 1%Z.
Proof. repeat split. Qed.

Example analyzeDifferences_mock :
  map region (regions (analyzeDifferences mockComparisonResult None))
  = [largeRegion; smallRegion]
  /\ map priority (regions (analyzeDifferences mockComparisonResult None))
     = [Priority.high; Priority.low]
  /\ summary (analyzeDifferences mockComparisonResult None)
     = FoundDifferences 2 true 1 0 1.
Proof. repeat split. Qed.

Example classifyRegion_labels :
  classifyRegion smallRegion (Some (labelled "spacing")) = Classification.spacing
  /\ classifyRegion smallRegion (Some (labelled "layout")) = Classification.unknown.
Proof. split; vm_compute; reflexivity. Qed.

Example findDiffRegions_sample :
  Regions.findDiffRegions 70 40 sampleDiffRaw 100
  = Some [ {| DiffRegion.x := 0; DiffRegion.y := 0;
              DiffRegion.width := 64; DiffRegion.height := 40;
              DiffRegion.diffIntensity := 1600 # 4096;
              DiffRegion.pixelCount := 1600 |} ].
Proof. vm_compute. reflexivity. Qed.

Example findDiffRegions_below_floor :
  Regions.findDiffRegions 70 40 sampleDiffRaw 2000 = Some [].
Proof. vm_compute. reflexivity. Qed.

Example computeSSIM_identical :
  SSIM.computeSSIM 16 8 (replicate 128 10%Z) (replicate 128 10%Z) 0
  = Some {| mssim := 1; performanceMs := 0 |}.
Proof. vm_compute. reflexivity. Qed.

Example computeSSIM_no_window :
  SSIM.computeSSIM 7 20 (replicate 140 10%Z) (replicate 140 200%Z) 0
  = Some {| mssim := 1; performanceMs := 0 |}.
Proof. vm_compute. reflexivity. Qed.

(** When every pixel of the box is bright the count reaches the area of
    the reported box, while the intensity is taken over the unclipped
    64 x 32 grid box. *)
Example findDiffRegions_all_bright :
  Regions.findDiffRegions 40 3 allBrightRaw 100
  = Some [ {| DiffRegion.x := 0; DiffRegion.y := 0;
              DiffRegion.width := 40; DiffRegion.height := 3;
              DiffRegion.diffIntensity := 120 # 2048;
              DiffRegion.pixelCount := 120 |} ].
Proof. vm_compute. reflexivity. Qed.

(** * Further properties *)

(** ** The composite score as a weighted mean *)

Lemma clamp01_mono a b : a <= b -> Num.clamp01 a <= Num.clamp01 b.
Proof.
  intros Hab. unfold Num.clamp01, Num.max, Num.min.
  destruct (Qle_bool 1 a) eqn:Ha1, (Qle_bool 1 b) eqn:Hb1; cbn [Qle_bool].
  - apply Qle_refl.
  - apply Qle_bool_iff in Ha1. apply (NumFacts.ge_false b 1) in Hb1. lra.
  - change (Qle_bool 0 1) with true. cbv iota.
    destruct (Qle_bool 0 a) eqn:Ha0.
    + apply (NumFacts.ge_false a 1) in Ha1. lra.
    + discriminate.
  - destruct (Qle_bool 0 a) eqn:Ha0, (Qle_bool 0 b) eqn:Hb0.
    + exact Hab.
    + apply Qle_bool_iff in Ha0. apply (NumFacts.ge_false b 0) in Hb0. lra.
    + apply Qle_bool_iff in Hb0. exact Hb0.
    + apply Qle_refl.
Qed.




(** X2. The composite score is monotone: raising any of the signals
    (with the same signals present) never lowers it, also for signals
    outside the unit interval. *)
Theorem computeCompositeScore_monotone s1 s2 :
  s_ssim s1 <= s_ssim s2 ->
  option_Forall2 Qle (s_layout s1) (s_layout s2) ->
  option_Forall2 Qle (s_vision s1) (s_vision s2) ->
  computeCompositeScore s1 <= computeCompositeScore s2.
Proof.
  intros Hs Hl Hv. destruct s1 as [a1 l1 v1], s2 as [a2 l2 v2].
  cbn [s_ssim s_layout s_vision] in *. unfold computeCompositeScore.
  cbn [s_ssim s_layout s_vision].
  destruct Hl as [l1 l2 Hl|], Hv as [v1 v2 Hv|]; apply clamp01_mono; lra.
Qed.

Lemma computeCompositeScore_monotone_witness :
  computeCompositeScore {| s_ssim := 0.4; s_layout := None; s_vision := Some 0.5 |}
  <= computeCompositeScore {| s_ssim := 0.6; s_layout := None; s_vision := Some 2 |}.
Proof.
  apply computeCompositeScore_monotone; cbn [s_ssim s_layout s_vision].
  - vm_compute. discriminate.
  - constructor.
  - constructor. vm_compute. discriminate.
Defined.

(** ** More on the per-round decision *)

Lemma firstBest_elem history best :
  Spec.firstBest history best -> best ∈ history.
Proof. intros (i & Hi & _). exact (list_elem_of_lookup_2 _ _ _ Hi). Qed.

Lemma last_elem {A} (l : list A) (d : A) : l <> [] -> List.last l d ∈ l.
Proof.
  induction l as [|a l IH]; intros Hne; [congruence|].
  destruct l as [|b l]; [left|]. right. apply IH. discriminate.
Qed.

(** X3. A rollback always goes to a strictly better round: whenever
    [suggestStrategy] asks for a rollback, the target is the iteration
    number of a history entry whose score is above the current score and
    at least every score in the history, and the recommendation does not
    stop. *)
Theorem suggestStrategy_rollback_target currentScore history config :
  shouldRollback (suggestStrategy currentScore history config) = true ->
  exists best,
    best ∈ history
    /\ rollbackTo (suggestStrategy currentScore history config) = Some (iteration best)
    /\ currentScore < score best
    /\ (forall r, r ∈ history -> score r <= score best)
    /\ shouldStop (suggestStrategy currentScore history config) = false.
Proof.
  unfold suggestStrategy.
  destruct (Num.ge currentScore _); [discriminate|].
  destruct (Num.ge (historyLength history) _); [discriminate|].
  destruct (_ && _); [discriminate|].
  destruct history as [|h0 rest]; [discriminate|].
  destruct (Num.gt _ currentScore) eqn:Hreg; [|destruct (Num.lt _ _); discriminate].
  intros _. cbn [rollbackTo shouldStop].
  pose proof (bestOf_firstBest h0 rest) as Hbest.
  exists (bestOf h0 (h0 :: rest)).
  split; [exact (firstBest_elem _ _ Hbest)|]. split; [reflexivity|].
  destruct Hbest as (i & Hi & Hmax & _).
  split; [|split; [exact Hmax | reflexivity]].
  apply NumFacts.gt_true in Hreg.
  pose proof (Hmax _ (last_elem (h0 :: rest) h0 ltac:(discriminate))) as Hlast.
  lra.
Qed.

Lemma suggestStrategy_rollback_target_witness :
  exists best,
    best ∈ rollbackHistory
    /\ rollbackTo (suggestStrategy 0.75 rollbackHistory mockConfig) = Some (iteration best)
    /\ 0.75 < score best
    /\ (forall r, r ∈ rollbackHistory -> score r <= score best)
    /\ shouldStop (suggestStrategy 0.75 rollbackHistory mockConfig) = false.
Proof.
  apply (suggestStrategy_rollback_target 0.75 rollbackHistory mockConfig).
  vm_compute. reflexivity.
Defined.

(** X4. Category and decision agree when the previous score is the score
    of the last history entry (as in the loop) and the improvement
    threshold is not negative: the category is [achieved] exactly when the
    decision is a [success] stop, a rollback is only asked for a
    [regressed] round, and a [regressed] round is rolled back unless the
    decision stops. *)
Theorem category_matches_decision currentScore history config lastRecord :
  let cfg := comparison config in
  let cat := categorizeIteration currentScore (Some (score lastRecord))
                                 (threshold cfg) (improvementThreshold cfg) in
  let r := suggestStrategy currentScore history config in
  last history = Some lastRecord ->
  0 <= improvementThreshold cfg ->
  (cat = achieved <-> stopReason r = Some success)
  /\ (shouldRollback r = true -> cat = regressed)
  /\ (cat = regressed -> shouldStop r = false -> shouldRollback r = true).
Proof.
  intros cfg cat r Hlast Hit. subst cfg cat r.
  unfold categorizeIteration, suggestStrategy. cbv zeta.
  destruct history as [|h0 rest]; [discriminate|].
  rewrite (last_with_default _ h0 _ Hlast).
  destruct (Num.ge currentScore _) eqn:Hthr.
  { cbn [stopReason shouldRollback shouldStop]. repeat split; intros; congruence. }
  repeat match goal with
         | |- context [if ?c then _ else _] =>
             let E := fresh "E" in destruct c eqn:E
         end;
    cbn [stopReason shouldRollback shouldStop];
    repeat split; intros; try congruence;
    exfalso; num_props; lra.
Qed.

Lemma category_matches_decision_witness :
  (categorizeIteration 0.75 (Some 0.8) 0.95 0.01 = achieved
   <-> stopReason (suggestStrategy 0.75 rollbackHistory mockConfig) = Some success)
  /\ (shouldRollback (suggestStrategy 0.75 rollbackHistory mockConfig) = true ->
      categorizeIteration 0.75 (Some 0.8) 0.95 0.01 = regressed)
  /\ (categorizeIteration 0.75 (Some 0.8) 0.95 0.01 = regressed ->
      shouldStop (suggestStrategy 0.75 rollbackHistory mockConfig) = false ->
      shouldRollback (suggestStrategy 0.75 rollbackHistory mockConfig) = true).
Proof.
  apply (category_matches_decision 0.75 rollbackHistory mockConfig
           (testRecord 3 0.8 regressed)).
  - reflexivity.
  - vm_compute. discriminate.
Defined.

(** ** Regions lie inside the image, and so do their crops *)

Section ScanForall.
Context (width height : nat) (rawData : list Z) (minRegionSize : Q).
Context (P : DiffRegion.t -> Prop).

Let gridCols := Regions.ceilDiv width Regions.gridSize.
Let gridRows := Regions.ceilDiv height Regions.gridSize.
Let grid := Regions.buildGrid width height rawData.
Let n := (gridCols * gridRows)%nat.

Context (P_made : forall done f,
  FillInv gridCols n grid done f -> Regions.queue f = [] -> done <> [] ->
  P (Regions.makeRegion width height f)).

Lemma scanCell_forall visited regions i :
  (i < n)%nat ->
  Forall P regions ->
  exists visited' regions',
    Regions.scanCell width height gridCols gridRows grid minRegionSize
                     (Some (visited, regions)) i
    = Some (visited', regions')
    /\ Forall P regions'.
Proof.
  intros Hi Hgood. unfold Regions.scanCell. cbn [mbind option_bind].
  destruct (bool_decide (grid !! i = Some O) || bool_decide (i ∈ visited)).
  { exists visited, regions. split; [reflexivity | exact Hgood]. }
  set (f0 := {| Regions.minX := gridCols; Regions.maxX := O;
                Regions.minY := gridRows; Regions.maxY := O;
                Regions.totalPixels := O; Regions.queue := [i];
                Regions.visited := {[i]} ∪ visited |}).
  assert (Hinv0 : FillInv gridCols n grid [] f0).
  { split; cbn [Regions.queue Regions.visited Regions.totalPixels app].
    - apply NoDup_singleton.
    - intros c Hc. apply list_elem_of_singleton in Hc. subst c.
      split; [apply elem_of_union; left; apply elem_of_singleton; reflexivity | exact Hi].
    - reflexivity.
    - intros c Hc. inversion Hc. }
  destruct (fillLoop_inv gridCols gridRows grid (length grid) [] f0 Hinv0)
    as (f & done & Hrun & Hinv & Hempty & _ & Hhead).
  { unfold grid. rewrite grid_length. fold gridCols gridRows. simpl. lia. }
  rewrite Hrun. cbn [mbind option_bind].
  destruct (Num.lt _ minRegionSize).
  - exists (Regions.visited f), regions. split; [reflexivity | exact Hgood].
  - exists (Regions.visited f), (regions ++ [Regions.makeRegion width height f]).
    split; [reflexivity|]. apply Forall_app. split; [exact Hgood|].
    apply Forall_singleton. apply (P_made done f Hinv Hempty).
    intros ->. specialize (Hhead i eq_refl). inversion Hhead.
Qed.

Lemma scan_forall cells : forall visited regions,
  (forall i, i ∈ cells -> (i < n)%nat) ->
  Forall P regions ->
  exists visited' regions',
    fold_left (Regions.scanCell width height gridCols gridRows grid minRegionSize)
              cells (Some (visited, regions))
    = Some (visited', regions')
    /\ Forall P regions'.
Proof.
  induction cells as [|i cells IH]; intros visited regions Hlt Hgood.
  - exists visited, regions. split; [reflexivity | exact Hgood].
  - destruct (scanCell_forall visited regions i (Hlt i (list_elem_of_here _ _)) Hgood)
      as (v1 & r1 & Hstep & Hgood1).
    cbn [fold_left]. rewrite Hstep. apply IH; [|exact Hgood1].
    intros j Hj. apply Hlt. right. exact Hj.
Qed.

(** Whatever holds of every region made from a finished fill holds of
    every region that [findDiffRegions] returns. *)
Lemma findDiffRegions_forall regions :
  Regions.findDiffRegions width height rawData minRegionSize = Some regions ->
  Forall P regions.
Proof.
  unfold Regions.findDiffRegions. fold gridCols gridRows grid.
  destruct (scan_forall (seq 0 (length grid)) ∅ []) as (visited & rs & Hscan & Hgood).
  { intros i Hi. apply elem_of_seq in Hi. unfold grid in Hi.
    rewrite grid_length in Hi. fold gridCols gridRows in Hi. lia. }
  { constructor. }
  rewrite Hscan. cbn [mbind option_bind snd]. intros H. injection H as <-.
  rewrite Array_sort_perm. exact Hgood.
Qed.

End ScanForall.

Lemma makeRegion_inImage width height rawData done f :
  FillInv (Regions.ceilDiv width Regions.gridSize)
          (Regions.ceilDiv width Regions.gridSize * Regions.ceilDiv height Regions.gridSize)
          (Regions.buildGrid width height rawData) done f ->
  Regions.queue f = [] -> done <> [] ->
  regionInImage width height (Regions.makeRegion width height f).
Proof.
  intros [Hnd Hseen _ Hbox] Hq Hne.
  rewrite Hq, app_nil_r in Hseen.
  destruct done as [|c0 done']; [congruence|].
  destruct (Hseen c0 (list_elem_of_here _ _)) as [_ Hlt].
  destruct (cellCoords_bounds _ _ c0 Hlt) as [Hcx Hcy].
  destruct (Hbox c0 (list_elem_of_here _ _)) as [Hx Hy].
  pose proof (ceilDiv_bounds width) as Hw. pose proof (ceilDiv_bounds height) as Hh.
  revert Hcx Hcy Hx Hy Hw Hh.
  generalize (c0 mod Regions.ceilDiv width Regions.gridSize)%nat
             (c0 / Regions.ceilDiv width Regions.gridSize)%nat
             (Regions.ceilDiv width Regions.gridSize)
             (Regions.ceilDiv height Regions.gridSize).
  intros cx cy gridCols gridRows Hcx Hcy Hx Hy Hw Hh.
  unfold regionInImage, Regions.makeRegion, Regions.gridSize.
  cbn [DiffRegion.x DiffRegion.y DiffRegion.width DiffRegion.height].
  change (Z.of_nat 32) with 32%Z.
  repeat split; try lia.
  - exists (Z.of_nat (Regions.minX f)). reflexivity.
  - exists (Z.of_nat (Regions.minY f)). reflexivity.
Qed.

(** X5. Every region that [findDiffRegions] returns lies inside the diff
    image and starts on the 32-pixel grid. *)
Theorem findDiffRegions_inside_image width height rawData minRegionSize regions :
  Regions.findDiffRegions width height rawData minRegionSize = Some regions ->
  Forall (regionInImage width height) regions.
Proof.
  apply findDiffRegions_forall. intros done f. apply makeRegion_inImage.
Qed.

Lemma findDiffRegions_inside_image_witness :
  Forall (regionInImage 70 40) [sampleRegion].
Proof.
  apply (findDiffRegions_inside_image 70 40 sampleDiffRaw 100).
  vm_compute. reflexivity.
Defined.

Lemma cropRegion_inside imgWidth imgHeight r padding :
  (0 <= padding)%Z ->
  (0 <= DiffRegion.x r)%Z -> (0 <= DiffRegion.y r)%Z ->
  (0 < DiffRegion.width r)%Z -> (0 < DiffRegion.height r)%Z ->
  (DiffRegion.x r + DiffRegion.width r <= imgWidth)%Z ->
  (DiffRegion.y r + DiffRegion.height r <= imgHeight)%Z ->
  insideImage imgWidth imgHeight (cropRegion imgWidth imgHeight r padding)
  /\ coversRegion (cropRegion imgWidth imgHeight r padding) r.
Proof.
  intros. unfold insideImage, coversRegion, cropRegion.
  cbn [e_left e_top e_width e_height]. lia.
Qed.

(** X6. Cropping composes with region extraction: for an image at least
    as large as the diff image and a padding that is not negative, the
    rectangle that [cropRegion] requests for a region returned by
    [findDiffRegions] is non-empty, lies inside the image and covers the
    region. *)
Theorem cropRegion_of_found_region
    width height rawData minRegionSize regions r imgWidth imgHeight padding :
  Regions.findDiffRegions width height rawData minRegionSize = Some regions ->
  r ∈ regions ->
  (Z.of_nat width <= imgWidth)%Z -> (Z.of_nat height <= imgHeight)%Z ->
  (0 <= padding)%Z ->
  insideImage imgWidth imgHeight (cropRegion imgWidth imgHeight r padding)
  /\ coversRegion (cropRegion imgWidth imgHeight r padding) r.
Proof.
  intros Hfind Hin Hw Hh Hpad.
  pose proof (findDiffRegions_forall width height rawData minRegionSize
                (regionInImage width height)
                (fun done f => makeRegion_inImage width height rawData done f)
                regions Hfind) as Hinside.
  pose proof (findDiffRegions_forall width height rawData minRegionSize
                (fun r => (0 < DiffRegion.width r)%Z /\ (0 < DiffRegion.height r)%Z))
    as Hpos.
  rewrite Forall_forall in Hinside. specialize (Hinside r Hin).
  destruct Hinside as (Hx & Hy & Hxw & Hyh & _ & _).
  assert (Hsize : (0 < DiffRegion.width r)%Z /\ (0 < DiffRegion.height r)%Z).
  { refine (proj1 (Forall_forall _ _) (Hpos _ regions Hfind) r Hin).
    intros done f Hinv Hq Hne.
    assert (Hany : 0 <= inject_Z (Z.of_nat (Regions.totalPixels f))).
    { rewrite <- (Zle_Qle 0). lia. }
    destruct (makeRegion_good width height rawData 0 done f Hinv Hq Hne Hany)
      as (_ & Hpw & Hph & _).
    split; assumption. }
  destruct Hsize as [Hpw Hph].
  apply cropRegion_inside; lia.
Qed.

Lemma cropRegion_of_found_region_witness :
  insideImage 70 40 (cropRegion 70 40 sampleRegion defaultPadding)
  /\ coversRegion (cropRegion 70 40 sampleRegion defaultPadding) sampleRegion.
Proof.
  apply (cropRegion_of_found_region 70 40 sampleDiffRaw 100 [sampleRegion]
           sampleRegion 70 40 defaultPadding).
  - vm_compute. reflexivity.
  - left.
  - lia.
  - lia.
  - vm_compute. discriminate.
Defined.

(** ** Reports: counts, text and the regions of a surgical patch *)



Lemma reportItems_cons r rs k :
  mjoin (imap (fun i => reportItem (k + i)) (r :: rs))
  = reportItem k r ++ mjoin (imap (fun i => reportItem (Datatypes.S k + i)) rs).
Proof.
  rewrite imap_cons. cbn [mjoin list_join]. rewrite Nat.add_0_r. f_equal.
  change (list_join ?l) with (mjoin l). f_equal.
  apply imap_ext. intros i x _. unfold compose.
  replace (k + Datatypes.S i)%nat with (Datatypes.S k + i)%nat by lia. reflexivity.
Qed.

Lemma reportItems_badges rs : forall k,
  badges (mjoin (imap (fun i => reportItem (k + i)) rs))
  = map (fun r => badgeOf (priority r)) rs.
Proof.
  induction rs as [|r rs IH]; intros k; [reflexivity|].
  rewrite reportItems_cons. unfold badges in *. rewrite omap_app, IH.
  unfold reportItem. destruct (truthy (cssSuggestion r)); reflexivity.
Qed.





Lemma analyzeRegion_unlabelled visionScore i r :
  analyzeRegion (loopVisionAnalysis visionScore) i r = analyzeRegion None i r.
Proof.
  unfold analyzeRegion, loopVisionAnalysis.
  destruct visionScore as [v|]; [|reflexivity].
  cbn [fmap option_fmap option_map mbind option_bind differences].
  rewrite lookup_nil. reflexivity.
Qed.


Lemma generateReportText_badges report :
  badges (generateReportText report)
  = map (fun r => badgeOf (priority r)) (regions report).
Proof.
  unfold generateReportText. destruct (regions report) as [|r rs]; [reflexivity|].
  cbn [length Nat.eqb app badges omap list_omap].
  change (imap reportItem (r :: rs)) with (imap (fun i => reportItem (0 + i)) (r :: rs)).
  apply (reportItems_badges (r :: rs) 0).
Qed.





Lemma analysed_unlabelled visionScore regs :
  imap (analyzeRegion (loopVisionAnalysis visionScore)) regs
  = map (analyzeRegion None 0) regs.
Proof.
  rewrite <- imap_const. apply imap_ext. intros i r _.
  rewrite analyzeRegion_unlabelled. reflexivity.
Qed.

Lemma unlabelled_kinds r :
  let a := analyzeRegion None 0 r in
  region a = r /\ cssSuggestion a = None
  /\ ((isLarge r /\ classification a = Classification.position
       /\ priority a = Priority.high)
      \/ (~ isLarge r /\ priority a = Priority.low
          /\ (classification a = Classification.color
              \/ classification a = Classification.unknown))).
Proof.
  unfold analyzeRegion, classifyRegion, isLarge.
  cbn [mbind option_bind region cssSuggestion classification priority fmap
       option_fmap option_map].
  split; [reflexivity|]. split; [reflexivity|].
  destruct (200 <? DiffRegion.width r)%Z eqn:Hw;
    destruct (200 <? DiffRegion.height r)%Z eqn:Hh;
    cbn [orb assignPriority];
    try (left; split; [|split; reflexivity];
         first [left; apply Z.ltb_lt; exact Hw | right; apply Z.ltb_lt; exact Hh]).
  right. apply Z.ltb_ge in Hw, Hh. split; [lia|].
  destruct (Num.gt _ _); cbn [assignPriority]; split; auto.
Qed.

Lemma filter_high_unlabelled regs :
  map region (filter (fun a => priority a = Priority.high)
                     (map (analyzeRegion None 0) regs))
  = filter isLarge regs.
Proof.
  induction regs as [|r regs IH]; [reflexivity|].
  cbn [map]. rewrite !filter_cons.
  destruct (unlabelled_kinds r) as (Hreg & _ & [(Hl & _ & Hp)|(Hl & Hp & _)]).
  - rewrite decide_True by exact Hp. rewrite decide_True by exact Hl.
    cbn [map]. rewrite IH, Hreg. reflexivity.
  - rewrite decide_False by (rewrite Hp; discriminate).
    rewrite decide_False by exact Hl. exact IH.
Qed.

(** X10. In the loop, where [analyzeDifferences] gets a vision score but
    never a label, every region of the report is classified by the
    heuristics: it is [position] with high priority when it is wider or
    taller than 200 px, and [color] or [unknown] with low priority
    otherwise, and it has no fix suggestion.  So the regions that
    [surgicalPatch] keeps (priority not low) are exactly the large diff
    regions, in the order of the comparison, and the report text has no
    [MED] line and no "Fix:" line. *)
Theorem loop_report_is_heuristic comparison visionScore :
  let report := analyzeDifferences comparison (loopVisionAnalysis visionScore) in
  (forall a, a ∈ regions report ->
     cssSuggestion a = None
     /\ ((isLarge (region a) /\ classification a = Classification.position
          /\ priority a = Priority.high)
         \/ (~ isLarge (region a) /\ priority a = Priority.low
             /\ (classification a = Classification.color
                 \/ classification a = Classification.unknown))))
  /\ map region (highMedRegions report) = filter isLarge (diffRegions comparison)
  /\ (BadgeMed ∉ badges (generateReportText report))
  /\ (forall s, FixLine s ∉ generateReportText report).
Proof.
  intros report.
  assert (Hkinds : forall a, a ∈ regions report ->
     cssSuggestion a = None
     /\ ((isLarge (region a) /\ classification a = Classification.position
          /\ priority a = Priority.high)
         \/ (~ isLarge (region a) /\ priority a = Priority.low
             /\ (classification a = Classification.color
                 \/ classification a = Classification.unknown)))).
  { intros a Ha. subst report.
    rewrite (report_regions_perm comparison _), analysed_unlabelled in Ha.
    apply list_elem_of_fmap in Ha as (r & -> & _).
    destruct (unlabelled_kinds r) as (Hreg & Hcss & Hk).
    split; [exact Hcss|]. rewrite Hreg. exact Hk. }
  split; [exact Hkinds|]. split; [|split].
  - unfold highMedRegions.
    rewrite (filter_iff_in (fun r => priority r <> Priority.low)
                           (fun r => priority r = Priority.high)).
    + subst report. unfold analyzeDifferences. cbn [regions].
      rewrite Array_sort_filter.
      * rewrite analysed_unlabelled. apply filter_high_unlabelled.
      * intros a b -> ->. apply NumFacts.gt_false. lra.
    + intros a Ha. destruct (Hkinds a Ha) as (_ & [(_ & _ & ->)|(_ & -> & _)]);
        split; congruence.
  - rewrite generateReportText_badges. intros Hin.
    apply list_elem_of_fmap in Hin as (a & Hb & Ha).
    destruct (Hkinds a Ha) as (_ & [(_ & _ & Hp)|(_ & Hp & _)]);
      rewrite Hp in Hb; discriminate.
  - intros s Hin. unfold generateReportText in Hin.
    destruct (length (regions report) =? 0)%nat.
    + apply elem_of_app in Hin as [Hin|Hin].
      * repeat (apply elem_of_cons in Hin as [Hin|Hin]; [discriminate|]).
        inversion Hin.
      * apply list_elem_of_singleton in Hin. discriminate.
    + apply elem_of_app in Hin as [Hin|Hin].
      * repeat (apply elem_of_cons in Hin as [Hin|Hin]; [discriminate|]).
        inversion Hin.
      * apply list_elem_of_join in Hin as (item & Hin & Hitem).
        apply elem_of_lookup_imap_1 in Hitem as (i & a & -> & Hlook).
        apply list_elem_of_lookup_2 in Hlook.
        destruct (Hkinds a Hlook) as (Hcss & _).
        unfold reportItem in Hin. rewrite Hcss in Hin. cbn [truthy] in Hin.
        apply list_elem_of_singleton in Hin. discriminate.
Qed.

(** ** Structural similarity of an image with itself, and symmetry *)

Lemma accumulate_balanced width gray x y k s w s' :
  (0 <= k)%Z ->
  Balanced k s ->
  SSIM.accumulate width gray gray x y (Some s) w = Some s' ->
  Balanced (k + 1) s'.
Proof.
  intros Hk (HB & HBB & HAB & Hsq & Hcs). destruct w as [wy wx].
  unfold SSIM.accumulate. cbn [mbind option_bind].
  destruct (gray !! _) as [a|]; [|discriminate].
  cbn [mbind option_bind]. intros H. injection H as <-.
  unfold Balanced. cbn [SSIM.sumA SSIM.sumB SSIM.sumAA SSIM.sumBB SSIM.sumAB].
  rewrite HB, HBB, HAB.
  split; [reflexivity|]. split; [reflexivity|]. split; [reflexivity|]. split.
  - intros t. specialize (Hsq t). pose proof (Z.square_nonneg (a - t)) as Hsqr.
    replace (SSIM.sumAA s + a * a - 2 * t * (SSIM.sumA s + a) + (k + 1) * t * t)%Z
      with ((SSIM.sumAA s - 2 * t * SSIM.sumA s + k * t * t) + (a - t) * (a - t))%Z
      by ring.
    lia.
  - specialize (Hsq a).
    replace ((k + 1) * (SSIM.sumAA s + a * a))%Z
      with (k * SSIM.sumAA s + (SSIM.sumAA s - 2 * a * SSIM.sumA s + k * a * a)
            + (2 * a * SSIM.sumA s + a * a))%Z by ring.
    replace ((SSIM.sumA s + a) * (SSIM.sumA s + a))%Z
      with (SSIM.sumA s * SSIM.sumA s + (2 * a * SSIM.sumA s + a * a))%Z by ring.
    lia.
Qed.

Lemma fold_accumulate_balanced width gray x y offsets : forall k s s',
  (0 <= k)%Z ->
  Balanced k s ->
  fold_left (SSIM.accumulate width gray gray x y) offsets (Some s) = Some s' ->
  Balanced (k + Z.of_nat (length offsets)) s'.
Proof.
  induction offsets as [|w offsets IH]; intros k s s' Hk Hbal Hfold.
  - simpl in *. injection Hfold as <-. rewrite Z.add_0_r. exact Hbal.
  - cbn [fold_left] in Hfold.
    destruct (SSIM.accumulate width gray gray x y (Some s) w) as [s1|] eqn:Hacc.
    + pose proof (accumulate_balanced _ _ _ _ _ _ _ _ Hk Hbal Hacc) as Hbal1.
      specialize (IH (k + 1)%Z s1 s' ltac:(lia) Hbal1 Hfold).
      replace (k + Z.of_nat (length (w :: offsets)))%Z
        with (k + 1 + Z.of_nat (length offsets))%Z by (cbn [length]; lia).
      exact IH.
    + exfalso. clear -Hfold.
      assert (Hnone : forall l, fold_left (SSIM.accumulate width gray gray x y) l None = None).
      { induction l as [|[wy wx] l IHl]; [reflexivity|]. exact IHl. }
      rewrite Hnone in Hfold. discriminate.
Qed.

Lemma windowSums_balanced width gray x y s :
  SSIM.windowSums width gray gray x y = Some s -> Balanced 64 s.
Proof.
  intros H. unfold SSIM.windowSums in H.
  apply (fold_accumulate_balanced _ _ _ _ _ 0%Z SSIM.zeroSums) in H.
  - exact H.
  - lia.
  - unfold Balanced, SSIM.zeroSums. cbn. repeat split; try reflexivity.
    intros t. lia.
Qed.

Lemma ssimOfSums_balanced s : Balanced 64 s -> SSIM.ssimOfSums s == 1.
Proof.
  intros (HB & HBB & HAB & _ & Hcs). unfold SSIM.ssimOfSums.
  rewrite HB, HBB, HAB.
  change (inject_Z (Z.of_nat (SSIM.windowSize * SSIM.windowSize))) with 64.
  set (qa := inject_Z (SSIM.sumA s)). set (qaa := inject_Z (SSIM.sumAA s)).
  assert (Hq : qa * qa <= 64 * qaa).
  { subst qa qaa. rewrite <- !inject_Z_mult. change 64 with (inject_Z 64).
    rewrite <- inject_Z_mult, <- Zle_Qle. exact Hcs. }
  set (m := qa / 64). set (v := qaa / 64 - m * m).
  assert (Hv : 0 <= v).
  { assert (Heq : v == (64 * qaa - qa * qa) / 4096) by (subst v m; field).
    rewrite Heq. apply Qle_shift_div_l; [reflexivity|]. lra. }
  assert (Hm : 0 <= m * m).
  { destruct (Qlt_le_dec m 0) as [Hneg|Hpos]; nra. }
  assert (Hc1 : 0 < SSIM.c1) by reflexivity.
  assert (Hc2 : 0 < SSIM.c2) by reflexivity.
  assert (Hden : 0 < (m * m + m * m + SSIM.c1) * (v + v + SSIM.c2)).
  { apply Qmult_lt_0_compat; lra. }
  assert (Hnum : (2 * m * m + SSIM.c1) * (2 * v + SSIM.c2)
                 == (m * m + m * m + SSIM.c1) * (v + v + SSIM.c2)) by ring.
  rewrite Hnum. unfold Qdiv. apply Qmult_inv_r. intros Hzero.
  rewrite Hzero in Hden. exact (Qlt_irrefl 0 Hden).
Qed.

Lemma clamp01_of_one v : v == 1 -> Num.clamp01 v = 1.
Proof.
  intros H. unfold Num.clamp01, Num.max, Num.min.
  assert (H1 : Qle_bool 1 v = true) by (apply Qle_bool_iff; rewrite H; apply Qle_refl).
  rewrite H1. reflexivity.
Qed.

Lemma fold_Qplus_ones vals : forall a,
  Forall (fun v => v == 1) vals ->
  fold_left Qplus vals a == a + inject_Z (Z.of_nat (length vals)).
Proof.
  induction vals as [|v vals IH]; intros a Hall.
  - simpl. change (inject_Z 0) with 0. ring.
  - apply Forall_cons in Hall as [Hv Hall]. cbn [fold_left length].
    rewrite IH by exact Hall. rewrite Hv, Nat2Z.inj_succ.
    unfold Z.succ. rewrite inject_Z_plus. change (inject_Z 1) with 1. ring.
Qed.

Lemma meanOr1_ones vals : Forall (fun v => v == 1) vals -> Spec.meanOr1 vals == 1.
Proof.
  intros Hall. unfold Spec.meanOr1. destruct vals as [|v vs]; [reflexivity|].
  rewrite fold_Qplus_ones by exact Hall.
  assert (Hpos : 0 < inject_Z (Z.of_nat (length (v :: vs)))).
  { rewrite <- (Zlt_Qlt 0). cbn [length]. lia. }
  field. intros Hz. rewrite Hz in Hpos. exact (Qlt_irrefl 0 Hpos).
Qed.

(** Every window of an image compared with itself has SSIM 1. *)
Lemma windowValues_same width height gray vals :
  mapM (fun o => SSIM.windowSSIM width gray gray (fst o) (snd o))
       (Spec.windowOrigins width height) = Some vals ->
  Forall (fun v => v == 1) vals.
Proof.
  intros Hvals. apply mapM_Some in Hvals.
  induction Hvals as [|o v origins vals Hv _ IH]; constructor; [|exact IH].
  unfold SSIM.windowSSIM in Hv.
  destruct (SSIM.windowSums width gray gray o.1 o.2) as [s|] eqn:Hs; [|discriminate].
  injection Hv as <-. apply ssimOfSums_balanced, (windowSums_balanced _ _ _ _ _ Hs).
Qed.

(** X11. An image compared with itself has structural similarity exactly
    1, whatever its size and content: in every window the two means and
    the three second moments coincide, the variance is not negative, and
    so the SSIM quotient is 1. *)
Theorem computeSSIM_same_image width height gray elapsed :
  (width * height <= length gray)%nat ->
  SSIM.computeSSIM width height gray gray elapsed
  = Some {| mssim := 1; performanceMs := elapsed |}.
Proof.
  intros Hlen.
  destruct (computeSSIM_mean width height gray gray elapsed Hlen Hlen)
    as (vals & Hvals & ->).
  f_equal. f_equal. apply clamp01_of_one, meanOr1_ones.
  exact (windowValues_same width height gray vals Hvals).
Qed.

Lemma computeSSIM_same_image_witness :
  SSIM.computeSSIM 16 8 (replicate 128 10%Z) (replicate 128 10%Z) 7
  = Some {| mssim := 1; performanceMs := 7 |}.
Proof.
  apply (computeSSIM_same_image 16 8 (replicate 128 10%Z) 7).
  rewrite length_replicate. lia.
Defined.

(** Exchanging the two images exchanges the roles of the sums. *)
Lemma accumulate_swap width designGray screenshotGray x y acc w :
  SSIM.accumulate width screenshotGray designGray x y (swapSums <$> acc) w
  = swapSums <$> SSIM.accumulate width designGray screenshotGray x y acc w.
Proof.
  destruct w as [wy wx]. unfold SSIM.accumulate.
  destruct acc as [s|]; [|reflexivity]. cbn [fmap option_fmap option_map mbind option_bind].
  destruct (designGray !! _) as [a|], (screenshotGray !! _) as [b|];
    cbn [fmap option_fmap option_map mbind option_bind]; try reflexivity.
  unfold swapSums. cbn [SSIM.sumA SSIM.sumB SSIM.sumAA SSIM.sumBB SSIM.sumAB].
  f_equal. f_equal. lia.
Qed.

Lemma windowSums_swap width designGray screenshotGray x y :
  SSIM.windowSums width screenshotGray designGray x y
  = swapSums <$> SSIM.windowSums width designGray screenshotGray x y.
Proof.
  unfold SSIM.windowSums.
  change (Some SSIM.zeroSums) with (swapSums <$> Some SSIM.zeroSums) at 1.
  generalize (Some SSIM.zeroSums).
  induction SSIM.windowOffsets as [|w l IH]; intros acc; [reflexivity|].
  cbn [fold_left]. rewrite accumulate_swap. apply IH.
Qed.

Lemma ssimOfSums_swap s : SSIM.ssimOfSums (swapSums s) == SSIM.ssimOfSums s.
Proof.
  unfold SSIM.ssimOfSums, swapSums.
  cbn [SSIM.sumA SSIM.sumB SSIM.sumAA SSIM.sumBB SSIM.sumAB].
  apply Qdiv_comp; ring.
Qed.

Lemma fold_Qplus_proper vals1 vals2 : forall a1 a2,
  a1 == a2 -> Forall2 Qeq vals1 vals2 ->
  fold_left Qplus vals1 a1 == fold_left Qplus vals2 a2.
Proof.
  intros a1 a2 Ha Hvals. revert a1 a2 Ha.
  induction Hvals as [|v1 v2 l1 l2 Hv _ IH]; intros a1 a2 Ha; [exact Ha|].
  cbn [fold_left]. apply IH. rewrite Ha, Hv. reflexivity.
Qed.

Lemma meanOr1_proper vals1 vals2 :
  Forall2 Qeq vals1 vals2 -> Spec.meanOr1 vals1 == Spec.meanOr1 vals2.
Proof.
  intros Hvals. pose proof (Forall2_length _ _ _ Hvals) as Hlen.
  pose proof (fold_Qplus_proper vals1 vals2 0 0 (Qeq_refl 0) Hvals) as Hsum.
  unfold Spec.meanOr1.
  destruct vals1 as [|v1 l1], vals2 as [|v2 l2]; try discriminate; [reflexivity|].
  rewrite Hlen. apply Qdiv_comp; [exact Hsum | reflexivity].
Qed.

(** X12. The structural similarity does not depend on which image is the
    design and which the screenshot: with the two buffers exchanged
    [computeSSIM] returns the same score. *)
Theorem computeSSIM_symmetric width height designGray screenshotGray elapsed :
  (width * height <= length designGray)%nat ->
  (width * height <= length screenshotGray)%nat ->
  exists r1 r2,
    SSIM.computeSSIM width height designGray screenshotGray elapsed = Some r1
    /\ SSIM.computeSSIM width height screenshotGray designGray elapsed = Some r2
    /\ mssim r1 == mssim r2.
Proof.
  intros Hd Hs.
  destruct (computeSSIM_mean width height designGray screenshotGray elapsed Hd Hs)
    as (vals1 & Hvals1 & ->).
  destruct (computeSSIM_mean width height screenshotGray designGray elapsed Hs Hd)
    as (vals2 & Hvals2 & ->).
  eexists _, _. split; [reflexivity|]. split; [reflexivity|].
  cbn [mssim]. apply clamp01_proper, meanOr1_proper.
  apply mapM_Some in Hvals1, Hvals2. revert vals2 Hvals2.
  induction Hvals1 as [|o v1 origins vals1 Hv1 _ IH]; intros vals2 Hvals2.
  - inversion Hvals2. constructor.
  - inversion Hvals2 as [|o' v2 origins' l2 Hv2 Hrest]; subst.
    constructor; [|apply IH; exact Hrest].
    unfold SSIM.windowSSIM in Hv1, Hv2. rewrite windowSums_swap in Hv2.
    destruct (SSIM.windowSums width designGray screenshotGray o.1 o.2) as [s|];
      [|discriminate].
    cbn [fmap option_fmap option_map] in Hv1, Hv2.
    injection Hv1 as <-. injection Hv2 as <-. symmetry. apply ssimOfSums_swap.
Qed.

Lemma computeSSIM_symmetric_witness :
  exists r1 r2,
    SSIM.computeSSIM 16 8 (replicate 128 10%Z) (replicate 128 200%Z) 0 = Some r1
    /\ SSIM.computeSSIM 16 8 (replicate 128 200%Z) (replicate 128 10%Z) 0 = Some r2
    /\ mssim r1 == mssim r2.
Proof.
  apply (computeSSIM_symmetric 16 8 (replicate 128 10%Z) (replicate 128 200%Z) 0).
  - rewrite length_replicate. lia.
  - rewrite length_replicate. lia.
Defined.

(** ** The flood fill finds the connected components *)

Section NeighbourFacts.
Context (gridCols gridRows : nat) (grid : list nat).

Lemma visitNeighbour_cases cx cy q v d :
  Regions.visitNeighbour gridCols gridRows grid cx cy (q, v) d
  = match neighbourIndex gridCols gridRows cx cy d with
    | Some ni =>
        if Regions.active grid ni && negb (bool_decide (ni ∈ v))
        then (q ++ [ni], {[ni]} ∪ v) else (q, v)
    | None => (q, v)
    end.
Proof.
  unfold Regions.visitNeighbour, neighbourIndex. destruct d as [dx dy].
  destruct (_ && _ && _ && _); reflexivity.
Qed.

(** The four neighbour visits append the fresh active neighbours to the
    queue and to the visited set; afterwards every active neighbour is
    visited. *)
Lemma neighbours_fold cx cy ds : forall q v,
  exists new,
    fold_left (Regions.visitNeighbour gridCols gridRows grid cx cy) ds (q, v)
    = (q ++ new, list_to_set new ∪ v)
    /\ NoDup new
    /\ (forall ni, ni ∈ new ->
          (ni ∉ v) /\ Regions.active grid ni = true
          /\ exists d, d ∈ ds /\ neighbourIndex gridCols gridRows cx cy d = Some ni)
    /\ (forall d ni, d ∈ ds -> neighbourIndex gridCols gridRows cx cy d = Some ni ->
          Regions.active grid ni = true -> ni ∈ (list_to_set new ∪ v : gset nat)).
Proof.
  induction ds as [|d ds IH]; intros q v.
  - exists []. cbn [fold_left list_to_set]. rewrite app_nil_r.
    split; [f_equal; set_solver|]. split; [constructor|].
    split; [intros ni Hni; inversion Hni|]. intros d ni Hd. inversion Hd.
  - cbn [fold_left]. rewrite visitNeighbour_cases.
    destruct (neighbourIndex gridCols gridRows cx cy d) as [ni|] eqn:Hn.
    + destruct (Regions.active grid ni && negb (bool_decide (ni ∈ v))) eqn:Hpush.
      * apply andb_true_iff in Hpush as [Hact Hfresh].
        apply negb_true_iff, bool_decide_eq_false in Hfresh.
        destruct (IH (q ++ [ni]) ({[ni]} ∪ v)) as (new & Hfold & Hnd & Hnew & Hall).
        exists (ni :: new). rewrite Hfold.
        split; [f_equal; [rewrite <- app_assoc; reflexivity | set_solver]|].
        split.
        { constructor; [|exact Hnd]. intros Hin.
          destruct (Hnew ni Hin) as (Hnotin & _). set_solver. }
        split.
        { intros c Hc. apply elem_of_cons in Hc as [->|Hc].
          - split; [exact Hfresh|]. split; [exact Hact|]. exists d. split; [left | exact Hn].
          - destruct (Hnew c Hc) as (Hnotin & Hactc & d' & Hd' & Hn').
            split; [set_solver|]. split; [exact Hactc|].
            exists d'. split; [right; exact Hd' | exact Hn']. }
        intros d' c Hd' Hn' Hactc. apply elem_of_cons in Hd' as [->|Hd'].
        -- rewrite Hn in Hn'. injection Hn' as <-. set_solver.
        -- specialize (Hall d' c Hd' Hn' Hactc). set_solver.
      * destruct (IH q v) as (new & Hfold & Hnd & Hnew & Hall).
        exists new. rewrite Hfold. split; [reflexivity|]. split; [exact Hnd|].
        split.
        { intros c Hc. destruct (Hnew c Hc) as (Hnotin & Hactc & d' & Hd' & Hn').
          split; [exact Hnotin|]. split; [exact Hactc|].
          exists d'. split; [right; exact Hd' | exact Hn']. }
        intros d' c Hd' Hn' Hactc. apply elem_of_cons in Hd' as [->|Hd'].
        -- rewrite Hn in Hn'. injection Hn' as <-.
           apply andb_false_iff in Hpush as [Hpush|Hpush]; [congruence|].
           apply negb_false_iff, bool_decide_eq_true in Hpush. set_solver.
        -- exact (Hall d' c Hd' Hn' Hactc).
    + destruct (IH q v) as (new & Hfold & Hnd & Hnew & Hall).
      exists new. rewrite Hfold. split; [reflexivity|]. split; [exact Hnd|].
      split.
      { intros c Hc. destruct (Hnew c Hc) as (Hnotin & Hactc & d' & Hd' & Hn').
        split; [exact Hnotin|]. split; [exact Hactc|].
        exists d'. split; [right; exact Hd' | exact Hn']. }
      intros d' c Hd' Hn' Hactc. apply elem_of_cons in Hd' as [->|Hd'].
      -- congruence.
      -- exact (Hall d' c Hd' Hn' Hactc).
Qed.

End NeighbourFacts.

Section FillTraceFacts.
Context (gridCols gridRows : nat) (grid : list nat).
Context (visited0 : gset nat) (seed : nat).

(** The state in which a fill starts satisfies the trace invariant. *)
Lemma fillStart_trace :
  seed ∉ visited0 -> Regions.active grid seed = true ->
  FillTrace gridCols gridRows grid visited0 seed []
    {| Regions.minX := gridCols; Regions.maxX := O;
       Regions.minY := gridRows; Regions.maxY := O;
       Regions.totalPixels := O; Regions.queue := [seed];
       Regions.visited := {[seed]} ∪ visited0 |}.
Proof.
  intros Hfresh Hact.
  split; cbn [Regions.queue Regions.visited Regions.minX Regions.maxX
              Regions.minY Regions.maxY app map fold_left]; try reflexivity.
  - cbn [list_to_set]. set_solver.
  - intros c Hc. apply list_elem_of_singleton in Hc. subst c. exact Hfresh.
  - intros c Hc. apply list_elem_of_singleton in Hc. subst c. exact Hact.
  - intros c c' Hc. inversion Hc.
  - intros k c Hk. destruct k as [|k]; [left; reflexivity | discriminate].
Qed.

(** One turn of the loop keeps the trace invariant. *)
Lemma fillStep_trace done cell rest f :
  FillTrace gridCols gridRows grid visited0 seed done f ->
  Regions.queue f = cell :: rest ->
  FillTrace gridCols gridRows grid visited0 seed (done ++ [cell])
            (Regions.fillStep gridCols gridRows grid cell rest f).
Proof.
  intros [Hvis Hfresh Hact Hclosed Hseed Hparent HminX HmaxX HminY HmaxY] Hq.
  rewrite Hq in Hvis, Hfresh, Hact, Hseed, Hparent.
  unfold Regions.fillStep.
  destruct (neighbours_fold gridCols gridRows grid
              (cell mod gridCols) (cell / gridCols) Regions.directions
              rest (Regions.visited f))
    as (new & Hfold & Hnd & Hnew & Hall).
  rewrite Hfold.
  assert (Hlist : (done ++ [cell]) ++ rest ++ new = (done ++ cell :: rest) ++ new).
  { rewrite <- !app_assoc. reflexivity. }
  split; cbn [Regions.queue Regions.visited Regions.minX Regions.maxX
              Regions.minY Regions.maxY]; rewrite ?Hlist.
  - rewrite Hvis, list_to_set_app_L. set_solver.
  - intros c Hc. apply elem_of_app in Hc as [Hc|Hc]; [exact (Hfresh c Hc)|].
    destruct (Hnew c Hc) as (Hnotin & _). rewrite Hvis in Hnotin. set_solver.
  - intros c Hc. apply elem_of_app in Hc as [Hc|Hc]; [exact (Hact c Hc)|].
    destruct (Hnew c Hc) as (_ & Hactc & _). exact Hactc.
  - intros c c' Hc Hadj Hactc'. apply elem_of_app in Hc as [Hc|Hc].
    + specialize (Hclosed c c' Hc Hadj Hactc'). set_solver.
    + apply list_elem_of_singleton in Hc. subst c.
      destruct Hadj as (d & Hd & Hn). exact (Hall d c' Hd Hn Hactc').
  - rewrite lookup_app_l; [exact Hseed|].
    apply lookup_lt_Some in Hseed. exact Hseed.
  - intros k c Hk.
    destruct (decide (k < length (done ++ cell :: rest))%nat) as [Hlt|Hge].
    + rewrite lookup_app_l in Hk by exact Hlt.
      destruct (Hparent k c Hk) as [->|(j & p & Hj & Hp & Hadj)]; [left; reflexivity|].
      right. exists j, p. split; [exact Hj|]. split; [|exact Hadj].
      rewrite lookup_app_l by lia. exact Hp.
    + rewrite lookup_app_r in Hk by lia.
      apply list_elem_of_lookup_2 in Hk as Hin.
      destruct (Hnew c Hin) as (_ & _ & d & Hd & Hn).
      right. exists (length done), cell. split.
      { rewrite length_app in Hge. simpl in Hge. lia. }
      split.
      { rewrite lookup_app_l by (rewrite length_app; simpl; lia).
        rewrite lookup_app_r by lia. rewrite Nat.sub_diag. reflexivity. }
      exists d. split; [exact Hd | exact Hn].
  - rewrite map_app, fold_left_app, <- HminX. reflexivity.
  - rewrite map_app, fold_left_app, <- HmaxX. reflexivity.
  - rewrite map_app, fold_left_app, <- HminY. reflexivity.
  - rewrite map_app, fold_left_app, <- HmaxY. reflexivity.
Qed.

(** The fill ends with both invariants and an empty queue. *)
Lemma fillLoop_trace fuel : forall done f,
  FillInv gridCols (gridCols * gridRows) grid done f ->
  FillTrace gridCols gridRows grid visited0 seed done f ->
  (gridCols * gridRows <= fuel + length done)%nat ->
  exists f' done',
    Regions.fillLoop fuel gridCols gridRows grid f = Some f'
    /\ FillInv gridCols (gridCols * gridRows) grid done' f'
    /\ FillTrace gridCols gridRows grid visited0 seed done' f'
    /\ Regions.queue f' = [].
Proof.
  induction fuel as [|fuel IH]; intros done f Hinv Htrace Hfuel.
  - destruct (Regions.queue f) as [|cell rest] eqn:Hq.
    + exists f, done. simpl. rewrite Hq.
      split; [reflexivity|]. split; [exact Hinv|]. split; [exact Htrace | reflexivity].
    + exfalso. destruct Hinv as [Hnd Hseen _ _]. rewrite Hq in Hnd, Hseen.
      pose proof (bounded_NoDup_length _ _ Hnd (fun c Hc => proj2 (Hseen c Hc))) as Hlen.
      rewrite length_app in Hlen. simpl in Hlen. lia.
  - destruct (Regions.queue f) as [|cell rest] eqn:Hq.
    + exists f, done. simpl. rewrite Hq.
      split; [reflexivity|]. split; [exact Hinv|]. split; [exact Htrace | reflexivity].
    + destruct (IH (done ++ [cell])
                   (Regions.fillStep gridCols gridRows grid cell rest f))
        as (f' & done' & Hrun & Hinv' & Htrace' & Hempty).
      * apply fillStep_inv; assumption.
      * apply fillStep_trace; assumption.
      * rewrite length_app. simpl. lia.
      * exists f', done'. simpl. rewrite Hq.
        split; [exact Hrun|]. split; [exact Hinv'|]. split; [exact Htrace' | exact Hempty].
Qed.

End FillTraceFacts.

(** ** Neighbours on cell coordinates *)

Lemma touching_sym a b : touching a b -> touching b a.
Proof. unfold touching. lia. Qed.

Lemma index_of_coords gridCols c :
  (c = c / gridCols * gridCols + c mod gridCols)%nat.
Proof. pose proof (Nat.div_mod_eq c gridCols). lia. Qed.

(** For a grid index [c], the neighbour test of the source selects
    exactly the grid indices whose cell shares an edge with the cell of
    [c]. *)
Lemma adjacent_touching gridCols gridRows c c' :
  (c < gridCols * gridRows)%nat ->
  adjacent gridCols gridRows c c'
  <-> (c' < gridCols * gridRows)%nat
      /\ touching (cellCoords gridCols c) (cellCoords gridCols c').
Proof.
  intros Hc. destruct (cellCoords_bounds _ _ c Hc) as [Hcx Hcy].
  unfold adjacent, touching, cellCoords. cbn [fst snd]. split.
  - intros (d & Hd & Hn). unfold neighbourIndex in Hn. destruct d as [dx dy].
    destruct (_ && _ && _ && _) eqn:Hin; [|discriminate].
    injection Hn as Hn.
    repeat (apply andb_true_iff in Hin as [Hin ?]).
    set (nx := Z.to_nat (Z.of_nat (c mod gridCols) + dx)).
    set (ny := Z.to_nat (Z.of_nat (c / gridCols) + dy)).
    assert (Hc' : c' = (ny * gridCols + nx)%nat) by (subst nx ny; nia).
    assert (Hnx : (nx < gridCols)%nat) by (subst nx; lia).
    assert (Hny : (ny < gridRows)%nat) by (subst ny; lia).
    pose proof (cellCoords_of_index gridCols nx ny Hnx) as Hco.
    rewrite <- Hc' in Hco. unfold cellCoords in Hco.
    assert (Hmx : (c' mod gridCols)%nat = nx) by exact (f_equal fst Hco).
    assert (Hmy : (c' / gridCols)%nat = ny) by exact (f_equal snd Hco).
    rewrite Hmx, Hmy. split; [nia|].
    clear Hmx Hmy Hco Hnx Hny Hc'. subst nx ny. revert Hcx Hcy Hin H H0 H1.
    generalize (c mod gridCols)%nat (c / gridCols)%nat.
    intros cx cy Hcx Hcy Hin H H0 H1.
    unfold Regions.directions in Hd.
    repeat (apply elem_of_cons in Hd as [Hd|Hd];
            [injection Hd as -> ->; lia|]).
    inversion Hd.
  - intros [Hc' Htouch].
    destruct (cellCoords_bounds _ _ c' Hc') as [Hcx' Hcy'].
    pose proof (index_of_coords gridCols c') as Hidx.
    revert Hcx Hcy Hcx' Hcy' Hidx Htouch.
    generalize (c mod gridCols)%nat (c / gridCols)%nat
               (c' mod gridCols)%nat (c' / gridCols)%nat.
    intros cx cy cx' cy' Hcx Hcy Hcx' Hcy' Hidx Htouch.
    assert (Hdir : exists d, d ∈ Regions.directions
                             /\ (Z.of_nat cx + fst d = Z.of_nat cx')%Z
                             /\ (Z.of_nat cy + snd d = Z.of_nat cy')%Z).
    { unfold Regions.directions.
      destruct Htouch as [[Hx [Hy|Hy]]|[Hy [Hx|Hx]]].
      - exists (0, -1)%Z. split; [set_solver | cbn [fst snd]; lia].
      - exists (0, 1)%Z. split; [set_solver | cbn [fst snd]; lia].
      - exists (-1, 0)%Z. split; [set_solver | cbn [fst snd]; lia].
      - exists (1, 0)%Z. split; [set_solver | cbn [fst snd]; lia]. }
    destruct Hdir as ([dx dy] & Hd & Hx & Hy). cbn [fst snd] in Hx, Hy.
    exists (dx, dy). split; [exact Hd|]. unfold neighbourIndex.
    rewrite Hx, Hy.
    replace (_ && _ && _ && _) with true
      by (symmetry; repeat (apply andb_true_iff; split); lia).
    f_equal. nia.
Qed.

Lemma adjacent_sym gridCols gridRows c c' :
  (c < gridCols * gridRows)%nat ->
  adjacent gridCols gridRows c c' -> adjacent gridCols gridRows c' c.
Proof.
  intros Hc Hadj. apply (adjacent_touching _ _ _ _ Hc) in Hadj as [Hc' Htouch].
  apply (adjacent_touching _ _ _ _ Hc'). split; [exact Hc | apply touching_sym, Htouch].
Qed.

(** ** The scan over the grid *)

Section ScanTrace.
Context (width height : nat) (rawData : list Z) (minRegionSize : Q).

Let gridCols := Regions.ceilDiv width Regions.gridSize.
Let gridRows := Regions.ceilDiv height Regions.gridSize.
Let grid := Regions.buildGrid width height rawData.
Let n := (gridCols * gridRows)%nat.

Lemma scanStart_trace :
  ScanInv width height gridCols gridRows grid minRegionSize O ∅ [] [].
Proof.
  split.
  - reflexivity.
  - reflexivity.
  - constructor.
  - constructor.
  - intros a b Ha. set_solver.
  - intros j Hj. inversion Hj.
Qed.

Lemma fills_visited_lt fills c :
  Forall (ComponentOK gridCols gridRows grid) fills ->
  c ∈ mjoin (fst <$> fills) -> (c < n)%nat.
Proof.
  intros Hfills Hc. apply list_elem_of_join in Hc as (done & Hc & Hdone).
  apply list_elem_of_fmap in Hdone as (t & -> & Ht).
  rewrite Forall_forall in Hfills. destruct (Hfills t Ht) as [Hinv Hq _ _ _ _ _ _ _].
  destruct Hinv as [_ Hseen _ _]. rewrite Hq, app_nil_r in Hseen.
  exact (proj2 (Hseen c Hc)).
Qed.

(** One pass of the scan keeps the invariant; a pass that is not skipped
    adds one finished fill. *)
Lemma scanCell_trace visited regions fills i :
  (i < n)%nat ->
  ScanInv width height gridCols gridRows grid minRegionSize i visited regions fills ->
  exists visited' regions' fills',
    Regions.scanCell width height gridCols gridRows grid minRegionSize
                     (Some (visited, regions)) i
    = Some (visited', regions')
    /\ ScanInv width height gridCols gridRows grid minRegionSize
               (Datatypes.S i) visited' regions' fills'.
Proof.
  intros Hi [Hregions Hvisited Hnd Hfills Htogether Hcovered].
  pose proof (grid_lookup width height rawData i Hi) as Hgrid.
  fold grid in Hgrid.
  unfold Regions.scanCell. cbn [mbind option_bind].
  destruct (bool_decide (grid !! i = Some O) || bool_decide (i ∈ visited)) eqn:Hskip.
  { exists visited, regions, fills. split; [reflexivity|].
    split; try assumption.
    intros j Hj Hact. destruct (decide (j = i)) as [->|Hne]; [|apply Hcovered; [lia | exact Hact]].
    apply orb_true_iff in Hskip as [Hzero|Hseen].
    - apply bool_decide_eq_true in Hzero. unfold Regions.active in Hact.
      rewrite Hzero in Hact. discriminate.
    - apply bool_decide_eq_true in Hseen. exact Hseen. }
  apply orb_false_iff in Hskip as [Hzero Hfresh].
  apply bool_decide_eq_false in Hfresh. apply bool_decide_eq_false in Hzero.
  assert (Hact : Regions.active grid i = true).
  { unfold Regions.active. rewrite Hgrid in Hzero |- *.
    apply Nat.ltb_lt. destruct (brightInCell _ _ _ _ _); [congruence | lia]. }
  set (f0 := {| Regions.minX := gridCols; Regions.maxX := O;
                Regions.minY := gridRows; Regions.maxY := O;
                Regions.totalPixels := O; Regions.queue := [i];
                Regions.visited := {[i]} ∪ visited |}).
  assert (Hinv0 : FillInv gridCols n grid [] f0).
  { split; cbn [Regions.queue Regions.visited Regions.totalPixels app].
    - apply NoDup_singleton.
    - intros c Hc. apply list_elem_of_singleton in Hc. subst c.
      split; [apply elem_of_union; left; apply elem_of_singleton; reflexivity | exact Hi].
    - reflexivity.
    - intros c Hc. inversion Hc. }
  pose proof (fillStart_trace gridCols gridRows grid visited i Hfresh Hact) as Htrace0.
  destruct (fillLoop_trace gridCols gridRows grid visited i (length grid) [] f0
              Hinv0 Htrace0)
    as (f & done & Hrun & Hinv & Htrace & Hempty).
  { unfold grid. rewrite grid_length. fold gridCols gridRows. simpl. lia. }
  rewrite Hrun. cbn [mbind option_bind].
  destruct Htrace as [Tvis Tfresh Tact Tclosed Tseed Tparent TminX TmaxX TminY TmaxY].
  rewrite Hempty, app_nil_r in Tvis, Tfresh, Tact, Tseed, Tparent.
  assert (Hok : ComponentOK gridCols gridRows grid (done, f)).
  { split; cbn [fst snd]; try assumption.
    intros ->. discriminate. }
  assert (Hconcat : mjoin (fst <$> fills ++ [(done, f)]) = mjoin (fst <$> fills) ++ done).
  { rewrite fmap_app, join_app. cbn [fmap list_fmap mjoin list_join fst].
    rewrite app_nil_r. reflexivity. }
  exists (Regions.visited f),
    (map (fun t => Regions.makeRegion width height (snd t))
         (filter (kept minRegionSize) (fills ++ [(done, f)]))),
    (fills ++ [(done, f)]).
  split.
  { rewrite filter_app, map_app, filter_cons, filter_nil, Hregions.
    destruct (Num.lt _ minRegionSize) eqn:Hsmall.
    - rewrite decide_False by (unfold kept; cbn [snd]; rewrite Hsmall; discriminate).
      cbn [map]. rewrite app_nil_r. reflexivity.
    - rewrite decide_True by (unfold kept; cbn [snd]; exact Hsmall). reflexivity. }
  split.
  - reflexivity.
  - rewrite Hconcat, Tvis, Hvisited, list_to_set_app_L. set_solver.
  - rewrite Hconcat. apply NoDup_app. split; [exact Hnd|]. split.
    + intros c Hc Hc'. apply (Tfresh c Hc'). rewrite Hvisited.
      apply elem_of_list_to_set. exact Hc.
    + destruct Hinv as [Hnd' _ _ _]. rewrite Hempty, app_nil_r in Hnd'. exact Hnd'.
  - apply Forall_app. split; [exact Hfills | apply Forall_singleton, Hok].
  - intros a b Ha Hadj Hactb. rewrite Tvis in Ha.
    apply elem_of_union in Ha as [Ha|Ha].
    + apply elem_of_list_to_set in Ha.
      pose proof (Tclosed a b Ha Hadj Hactb) as Hb. rewrite Tvis in Hb.
      apply elem_of_union in Hb as [Hb|Hb].
      * apply elem_of_list_to_set in Hb. exists (done, f).
        split; [apply elem_of_app; right; left | split; assumption].
      * exfalso.
        assert (Hblt : (b < n)%nat).
        { apply (fills_visited_lt fills); [exact Hfills|].
          rewrite Hvisited in Hb. apply elem_of_list_to_set in Hb. exact Hb. }
        pose proof (adjacent_sym gridCols gridRows b a) as Hsym.
        destruct (Htogether b a Hb) as (t & Ht & _ & Hat).
        { apply adjacent_sym; [|exact Hadj].
          destruct Hinv as [_ Hseen _ _]. rewrite Hempty, app_nil_r in Hseen.
          exact (proj2 (Hseen a Ha)). }
        { exact (Tact a Ha). }
        apply (Tfresh a Ha). rewrite Hvisited. apply elem_of_list_to_set.
        apply list_elem_of_join. exists (fst t). split; [exact Hat|].
        apply list_elem_of_fmap. exists t. split; [reflexivity | exact Ht].
    + destruct (Htogether a b Ha Hadj Hactb) as (t & Ht & Hat & Hbt).
      exists t. split; [apply elem_of_app; left; exact Ht | split; assumption].
  - intros j Hj Hactj. rewrite Tvis.
    destruct (decide (j = i)) as [->|Hne].
    + apply elem_of_union. left. apply elem_of_list_to_set.
      exact (list_elem_of_lookup_2 _ _ _ Tseed).
    + apply elem_of_union. right. apply Hcovered; [lia | exact Hactj].
Qed.

Lemma scan_trace len : forall i visited regions fills,
  (i + len <= n)%nat ->
  ScanInv width height gridCols gridRows grid minRegionSize i visited regions fills ->
  exists visited' regions' fills',
    fold_left (Regions.scanCell width height gridCols gridRows grid minRegionSize)
              (seq i len) (Some (visited, regions))
    = Some (visited', regions')
    /\ ScanInv width height gridCols gridRows grid minRegionSize
               (i + len) visited' regions' fills'.
Proof.
  induction len as [|len IH]; intros i visited regions fills Hlen Hinv.
  - exists visited, regions, fills. rewrite Nat.add_0_r. split; [reflexivity | exact Hinv].
  - destruct (scanCell_trace visited regions fills i ltac:(lia) Hinv)
      as (v1 & r1 & fs1 & Hstep & Hinv1).
    cbn [seq fold_left]. rewrite Hstep.
    destruct (IH (Datatypes.S i) v1 r1 fs1 ltac:(lia) Hinv1)
      as (v2 & r2 & fs2 & Hrest & Hinv2).
    exists v2, r2, fs2. split; [exact Hrest|].
    replace (i + Datatypes.S len)%nat with (Datatypes.S i + len)%nat by lia. exact Hinv2.
Qed.

(** The regions returned are the sorted regions of the fills that reach
    the floor, and the fills satisfy the scan invariant for the whole
    grid. *)
Lemma findDiffRegions_trace regions :
  Regions.findDiffRegions width height rawData minRegionSize = Some regions ->
  exists visited fills,
    regions
    = Array_sort (fun a b => DiffRegion.diffIntensity b - DiffRegion.diffIntensity a)
        (map (fun t => Regions.makeRegion width height (snd t))
             (filter (kept minRegionSize) fills))
    /\ ScanInv width height gridCols gridRows grid minRegionSize n visited
               (map (fun t => Regions.makeRegion width height (snd t))
                    (filter (kept minRegionSize) fills))
               fills.
Proof.
  unfold Regions.findDiffRegions. fold gridCols gridRows grid.
  destruct (scan_trace (length grid) O ∅ [] [])
    as (visited & rs & fills & Hscan & Hinv).
  { unfold grid. rewrite grid_length. fold gridCols gridRows n. lia. }
  { exact scanStart_trace. }
  rewrite Hscan. cbn [mbind option_bind snd]. intros H. injection H as <-.
  exists visited, fills.
  assert (Hlen : (O + length grid)%nat = n).
  { unfold grid. rewrite grid_length. reflexivity. }
  rewrite Hlen in Hinv. pose proof (s_regions _ _ _ _ _ _ _ _ _ _ Hinv) as ->.
  split; [reflexivity | exact Hinv].
Qed.

End ScanTrace.

(** ** From grid indices to cell coordinates *)

Lemma fold_min_default (l : list nat) (d : nat) :
  l <> [] -> (forall a, a ∈ l -> (a <= d)%nat) ->
  fold_left Nat.min l d = minimumOf l.
Proof.
  destruct l as [|a l']; [congruence|]. intros _ Hle. cbn [fold_left minimumOf].
  rewrite Nat.min_r; [reflexivity|]. apply Hle. left.
Qed.

Lemma fold_max_default (l : list nat) :
  fold_left Nat.max l O = maximumOf l.
Proof.
  destruct l as [|a l']; [reflexivity|]. reflexivity.
Qed.

Lemma join_fmap_fmap {A B} (g : A -> B) (ls : list (list A)) :
  mjoin (fmap g <$> ls) = g <$> mjoin ls.
Proof.
  induction ls as [|l ls IH]; [reflexivity|].
  cbn [fmap list_fmap mjoin list_join]. rewrite fmap_app. f_equal. exact IH.
Qed.

Lemma linked_sym comp : Symmetric (linked comp).
Proof.
  intros a b (Ha & Hb & Htouch). split; [exact Hb|]. split; [exact Ha|].
  apply touching_sym, Htouch.
Qed.

Lemma sumPixelCounts_app rs1 rs2 :
  sumPixelCounts (rs1 ++ rs2) = (sumPixelCounts rs1 + sumPixelCounts rs2)%Z.
Proof.
  unfold sumPixelCounts. induction rs1 as [|r rs1 IH]; [reflexivity|].
  cbn [app map foldr]. rewrite IH. lia.
Qed.

Lemma sumPixelCounts_perm rs1 rs2 :
  Permutation rs1 rs2 -> sumPixelCounts rs1 = sumPixelCounts rs2.
Proof.
  unfold sumPixelCounts.
  induction 1 as [|r rs1 rs2 _ IH|r1 r2 rs|rs1 rs2 rs3 _ IH1 _ IH2];
    cbn [map foldr]; lia.
Qed.

Section Components.
Context (width height : nat) (rawData : list Z) (minRegionSize : Q).

Let gridCols := Regions.ceilDiv width Regions.gridSize.
Let gridRows := Regions.ceilDiv height Regions.gridSize.
Let grid := Regions.buildGrid width height rawData.
Let n := (gridCols * gridRows)%nat.

(** The cells of a finished fill, as coordinates. *)
Let cellsOf (t : FinishedFill) : list (nat * nat) := cellCoords gridCols <$> fst t.

Lemma brightInCell_coords c :
  (c < n)%nat ->
  brightInCell width height rawData gridCols c
  = brightCount width height rawData [cellCoords gridCols c].
Proof.
  intros Hc.
  pose proof (sumCells_bright width height rawData [c]) as Hsum.
  fold gridCols grid in Hsum. unfold brightCount.
  change [cellCoords gridCols c] with (cellCoords gridCols <$> [c]).
  rewrite <- (Hsum (NoDup_singleton c)).
  - pose proof (grid_lookup width height rawData c Hc) as Hgrid.
    fold grid gridCols in Hgrid.
    unfold sumCells. cbn [sum_list_with]. rewrite Hgrid. unfold default. cbn [from_option id]. lia.
  - intros c' Hc'. apply list_elem_of_singleton in Hc'. subst c'. exact Hc.
Qed.

Lemma active_activeCell c :
  (c < n)%nat ->
  Regions.active grid c = true
  <-> activeCell width height rawData (cellCoords gridCols c).
Proof.
  intros Hc. unfold Regions.active, activeCell.
  pose proof (grid_lookup width height rawData c Hc) as Hgrid.
  fold grid gridCols in Hgrid. rewrite Hgrid, (brightInCell_coords c Hc).
  unfold brightCount. rewrite Nat.ltb_lt.
  destruct (Spec.brightPixelsIn _ _ _ _); cbn [length]; split; intros; try lia; congruence.
Qed.

Lemma activeCell_index cell :
  activeCell width height rawData cell ->
  exists c, (c < n)%nat /\ cellCoords gridCols c = cell.
Proof.
  unfold activeCell, Spec.brightPixelsIn. intros Hne.
  destruct (filter _ _) as [|p ps] eqn:Hfilter; [congruence|].
  assert (Hp : p ∈ p :: ps) by left. rewrite <- Hfilter in Hp.
  apply list_elem_of_filter in Hp as [[_ Hcell] Hpix].
  apply list_elem_of_singleton in Hcell.
  destruct (cellIndex_lt width height p Hpix) as (Hgx & _ & Hlt).
  fold gridCols gridRows in Hgx, Hlt.
  exists (cellIndex gridCols p). split; [exact Hlt|].
  rewrite <- Hcell. apply cellCoords_of_index. exact Hgx.
Qed.

Lemma fill_cells_lt t c :
  ComponentOK gridCols gridRows grid t -> c ∈ fst t -> (c < n)%nat.
Proof.
  intros [Hinv Hq _ _ _ _ _ _ _] Hc. destruct Hinv as [_ Hseen _ _].
  rewrite Hq, app_nil_r in Hseen. exact (proj2 (Hseen c Hc)).
Qed.

Lemma fill_brightCount t :
  ComponentOK gridCols gridRows grid t ->
  Regions.totalPixels (snd t) = brightCount width height rawData (cellsOf t).
Proof.
  intros Hok. pose proof (fun c => fill_cells_lt t c Hok) as Hlt.
  destruct Hok as [Hinv Hq _ _ _ _ _ _ _]. destruct Hinv as [Hnd _ Htotal _].
  rewrite Hq, app_nil_r in Hnd. rewrite Htotal.
  apply (sumCells_bright width height rawData (fst t) Hnd).
  intros c Hc. apply Hlt. exact Hc.
Qed.

Lemma fill_box_nonempty t :
  ComponentOK gridCols gridRows grid t ->
  (Regions.minX (snd t) <= Regions.maxX (snd t)
   /\ Regions.minY (snd t) <= Regions.maxY (snd t))%nat.
Proof.
  intros [Hinv _ Hne _ _ _ _ _ _]. destruct Hinv as [_ _ _ Hbox].
  destruct (fst t) as [|c0 done']; [congruence|].
  specialize (Hbox c0 (list_elem_of_here _ _)). lia.
Qed.

(** The region pushed for a finished fill is the region of its cells. *)
Lemma makeRegion_regionOf t :
  ComponentOK gridCols gridRows grid t ->
  Regions.makeRegion width height (snd t)
  = regionOf width height rawData (cellsOf t).
Proof.
  intros Hok. pose proof (fill_brightCount t Hok) as Hcount.
  pose proof (fill_box_nonempty t Hok) as [Hbx Hby].
  pose proof (fun c => fill_cells_lt t c Hok) as Hlt.
  destruct Hok as [_ _ Hne _ _ HminX HmaxX HminY HmaxY].
  assert (Hxs : map fst (cellsOf t) = map (fun c : nat => (c mod gridCols)%nat) (fst t)).
  { unfold cellsOf. generalize (fst t). intros l.
    induction l as [|c l IH]; [reflexivity|].
    cbn [fmap list_fmap map]. f_equal. exact IH. }
  assert (Hys : map snd (cellsOf t) = map (fun c : nat => (c / gridCols)%nat) (fst t)).
  { unfold cellsOf. generalize (fst t). intros l.
    induction l as [|c l IH]; [reflexivity|].
    cbn [fmap list_fmap map]. f_equal. exact IH. }
  rewrite fold_min_default in HminX, HminY; cycle 1.
  { intros Hnil. apply map_eq_nil in Hnil. exact (Hne Hnil). }
  { intros a Ha. apply list_elem_of_fmap in Ha as (c & -> & Hc).
    destruct (cellCoords_bounds gridCols gridRows c (Hlt c Hc)). lia. }
  { intros Hnil. apply map_eq_nil in Hnil. exact (Hne Hnil). }
  { intros a Ha. apply list_elem_of_fmap in Ha as (c & -> & Hc).
    destruct (cellCoords_bounds gridCols gridRows c (Hlt c Hc)). lia. }
  rewrite fold_max_default in HmaxX, HmaxY.
  unfold Regions.makeRegion, regionOf.
  rewrite Hxs, Hys, <- HminX, <- HmaxX, <- HminY, <- HmaxY, <- Hcount.
  change (Z.of_nat Regions.gridSize) with 32%Z.
  replace (0 <? _)%Z with true by (symmetry; apply Z.ltb_lt; nia).
  reflexivity.
Qed.

Lemma kept_reaches t :
  ComponentOK gridCols gridRows grid t ->
  kept minRegionSize t <-> reaches width height rawData minRegionSize (cellsOf t).
Proof.
  intros Hok. unfold kept, reaches. rewrite (fill_brightCount t Hok). reflexivity.
Qed.

Lemma regions_of_fills fills :
  Forall (ComponentOK gridCols gridRows grid) fills ->
  map (fun t => Regions.makeRegion width height (snd t)) (filter (kept minRegionSize) fills)
  = regionOf width height rawData
      <$> filter (reaches width height rawData minRegionSize) (cellsOf <$> fills).
Proof.
  induction 1 as [|t fills Hok _ IH]; [reflexivity|].
  rewrite fmap_cons, !filter_cons.
  destruct (decide (kept minRegionSize t)) as [Hk|Hk].
  - rewrite decide_True by (apply (kept_reaches t Hok), Hk).
    cbn [map]. rewrite fmap_cons, IH, (makeRegion_regionOf t Hok). reflexivity.
  - rewrite decide_False by (intros Hr; apply Hk, (kept_reaches t Hok), Hr).
    exact IH.
Qed.

(** The cells of a finished fill are connected. *)
Lemma fill_connected t :
  ComponentOK gridCols gridRows grid t -> connectedCells (cellsOf t).
Proof.
  intros Hok. pose proof (fun c => fill_cells_lt t c Hok) as Hlt.
  destruct Hok as [_ _ Hne _ Hparent _ _ _ _].
  split.
  { unfold cellsOf. intros Hnil. apply fmap_nil_inv in Hnil. exact (Hne Hnil). }
  destruct (fst t) as [|seed done'] eqn:Hdone; [congruence|].
  assert (Hin : forall c, c ∈ fst t -> cellCoords gridCols c ∈ cellsOf t).
  { intros c Hc. unfold cellsOf. apply list_elem_of_fmap. exists c. split; [reflexivity | exact Hc]. }
  assert (Hfrom : forall k c, (seed :: done') !! k = Some c ->
            rtc (linked (cellsOf t)) (cellCoords gridCols seed) (cellCoords gridCols c)).
  { induction k as [k IH] using lt_wf_ind. intros c Hk.
    destruct (Hparent k c Hk) as [->|(j & p & Hj & Hp & Hadj)].
    - injection Hk as <-. reflexivity.
    - apply rtc_r with (cellCoords gridCols p); [exact (IH j Hj p Hp)|].
      assert (Hpin : p ∈ fst t) by (rewrite Hdone; exact (list_elem_of_lookup_2 _ _ _ Hp)).
      assert (Hcin : c ∈ fst t) by (rewrite Hdone; exact (list_elem_of_lookup_2 _ _ _ Hk)).
      split; [exact (Hin p Hpin)|]. split; [exact (Hin c Hcin)|].
      apply (adjacent_touching gridCols gridRows p c
               (Hlt p (list_elem_of_lookup_2 _ _ _ Hp))) in Hadj as [_ Htouch].
      exact Htouch. }
  intros a b Ha Hb. unfold cellsOf in Ha, Hb. rewrite Hdone in Ha, Hb.
  apply list_elem_of_fmap in Ha as (ca & -> & Ha).
  apply list_elem_of_fmap in Hb as (cb & -> & Hb).
  apply list_elem_of_lookup_1 in Ha as [ka Hka]. apply list_elem_of_lookup_1 in Hb as [kb Hkb].
  transitivity (cellCoords gridCols seed).
  - pose proof (@rtc_equivalence _ (linked (cellsOf t)) (linked_sym _)) as Heq.
    symmetry. exact (Hfrom ka ca Hka).
  - exact (Hfrom kb cb Hkb).
Qed.

End Components.

(** X13. [findDiffRegions] computes the connected components of the
    grid cells that hold a bright pixel.  There is a list of cell sets
    that partitions those cells, each set connected through shared edges
    and no two different sets touching, such that the returned regions
    are, up to order, the bounding-box regions of the sets holding at
    least [minRegionSize] bright pixels. *)
Theorem findDiffRegions_components width height rawData minRegionSize regions :
  Regions.findDiffRegions width height rawData minRegionSize = Some regions ->
  exists comps : list (list (nat * nat)),
    NoDup (mjoin comps)
    /\ (forall cell, cell ∈ mjoin comps <-> activeCell width height rawData cell)
    /\ Forall connectedCells comps
    /\ (forall a b, a ∈ mjoin comps -> b ∈ mjoin comps -> touching a b ->
          exists comp, comp ∈ comps /\ a ∈ comp /\ b ∈ comp)
    /\ Permutation regions
         (regionOf width height rawData
            <$> filter (reaches width height rawData minRegionSize) comps).
Proof.
  intros Hfind.
  destruct (findDiffRegions_trace width height rawData minRegionSize regions Hfind)
    as (visited & fills & Hregions & Hinv).
  destruct Hinv as [_ Hvisited Hnd Hfills Htogether Hcovered].
  set (gridCols := Regions.ceilDiv width Regions.gridSize) in *.
  set (gridRows := Regions.ceilDiv height Regions.gridSize) in *.
  set (grid := Regions.buildGrid width height rawData) in *.
  pose proof (fills_visited_lt width height rawData fills) as Hlt.
  fold gridCols gridRows grid in Hlt. specialize (fun c => Hlt c Hfills).
  exists ((fun t : FinishedFill => cellCoords gridCols <$> fst t) <$> fills).
  assert (Hjoin : mjoin ((fun t : FinishedFill => cellCoords gridCols <$> fst t) <$> fills)
                  = cellCoords gridCols <$> mjoin (fst <$> fills)).
  { rewrite <- join_fmap_fmap, <- list_fmap_compose. reflexivity. }
  rewrite Hjoin.
  assert (Hmem : forall c, c ∈ mjoin (fst <$> fills) <-> c ∈ visited).
  { intros c. rewrite Hvisited, elem_of_list_to_set. reflexivity. }
  assert (Hact : forall c, c ∈ mjoin (fst <$> fills) -> Regions.active grid c = true).
  { intros c Hc. apply list_elem_of_join in Hc as (done & Hc & Hdone).
    apply list_elem_of_fmap in Hdone as (t & -> & Ht).
    rewrite Forall_forall in Hfills. exact (c_active _ _ _ _ (Hfills t Ht) c Hc). }
  split; [|split; [|split; [|split]]].
  - apply NoDup_fmap_2_strong; [|exact Hnd].
    intros c1 c2 _ _. apply cellCoords_inj.
  - intros cell. split.
    + intros Hcell. apply list_elem_of_fmap in Hcell as (c & -> & Hc).
      apply (active_activeCell width height rawData c (Hlt c Hc)), Hact, Hc.
    + intros Hcell.
      destruct (activeCell_index width height rawData cell Hcell) as (c & Hc & <-).
      apply list_elem_of_fmap. exists c. split; [reflexivity|].
      apply Hmem, Hcovered; [exact Hc|].
      apply (active_activeCell width height rawData c Hc), Hcell.
  - apply Forall_fmap. rewrite Forall_forall in Hfills |- *.
    intros t Ht. exact (fill_connected width height rawData t (Hfills t Ht)).
  - intros a b Ha Hb Htouch.
    apply list_elem_of_fmap in Ha as (ca & -> & Ha).
    apply list_elem_of_fmap in Hb as (cb & -> & Hb).
    destruct (Htogether ca cb) as (t & Ht & Hat & Hbt).
    + apply Hmem, Ha.
    + apply (adjacent_touching gridCols gridRows ca cb (Hlt ca Ha)).
      split; [exact (Hlt cb Hb) | exact Htouch].
    + exact (Hact cb Hb).
    + exists (cellCoords gridCols <$> fst t).
      split; [apply list_elem_of_fmap; exists t; split; [reflexivity | exact Ht]|].
      split; apply list_elem_of_fmap; eexists; (split; [reflexivity|]); assumption.
  - rewrite Hregions. etransitivity; [apply Array_sort_perm|].
    pose proof (regions_of_fills width height rawData minRegionSize fills Hfills) as Hr.
    match goal with
    | |- Permutation ?l1 ?l2 => assert (Heq : l1 = l2) by exact Hr; rewrite Heq
    end.
    reflexivity.
Qed.

Lemma findDiffRegions_components_witness :
  exists comps : list (list (nat * nat)),
    NoDup (mjoin comps)
    /\ (forall cell, cell ∈ mjoin comps <-> activeCell 70 40 sampleDiffRaw cell)
    /\ Forall connectedCells comps
    /\ (forall a b, a ∈ mjoin comps -> b ∈ mjoin comps -> touching a b ->
          exists comp, comp ∈ comps /\ a ∈ comp /\ b ∈ comp)
    /\ Permutation [sampleRegion]
         (regionOf 70 40 sampleDiffRaw <$> filter (reaches 70 40 sampleDiffRaw 100) comps).
Proof.
  apply (findDiffRegions_components 70 40 sampleDiffRaw 100 [sampleRegion]).
  vm_compute. reflexivity.
Defined.

(** ** Pixel counts of the regions *)

Lemma sumPixelCounts_makeRegion width height (fills : list FinishedFill) :
  sumPixelCounts (map (fun t => Regions.makeRegion width height (snd t)) fills)
  = Z.of_nat (sum_list_with (fun t : FinishedFill => Regions.totalPixels (snd t)) fills).
Proof.
  unfold sumPixelCounts. induction fills as [|t fills IH]; [reflexivity|].
  cbn [map foldr sum_list_with]. rewrite IH.
  unfold Regions.makeRegion at 1. cbn [DiffRegion.pixelCount]. lia.
Qed.

Lemma sum_filter_le {A} (P : A -> Prop) `{!forall a, Decision (P a)}
    (g : A -> nat) (l : list A) :
  (sum_list_with g (filter P l) <= sum_list_with g l)%nat.
Proof.
  induction l as [|a l IH]; [reflexivity|].
  rewrite filter_cons. destruct (decide (P a)); cbn [sum_list_with]; lia.
Qed.

Lemma filter_all {A} (P : A -> Prop) `{!forall a, Decision (P a)} (l : list A) :
  Forall P l -> filter P l = l.
Proof.
  induction 1 as [|a l Ha _ IH]; [reflexivity|].
  rewrite filter_cons, decide_True by exact Ha. f_equal. exact IH.
Qed.

Lemma sumCells_join grid (ls : list (list nat)) :
  sum_list_with (sumCells grid) ls = sumCells grid (mjoin ls).
Proof.
  induction ls as [|l ls IH]; [reflexivity|].
  cbn [sum_list_with mjoin list_join]. unfold sumCells at 3.
  rewrite sum_list_with_app. fold (sumCells grid l). rewrite IH. reflexivity.
Qed.

Section PixelTotals.
Context (width height : nat) (rawData : list Z) (minRegionSize : Q).

Let gridCols := Regions.ceilDiv width Regions.gridSize.
Let gridRows := Regions.ceilDiv height Regions.gridSize.
Let grid := Regions.buildGrid width height rawData.
Let n := (gridCols * gridRows)%nat.

(** The fills of a whole scan account for every bright pixel once. *)
Lemma fills_total visited regions fills :
  ScanInv width height gridCols gridRows grid minRegionSize n visited regions fills ->
  sum_list_with (fun t : FinishedFill => Regions.totalPixels (snd t)) fills
  = length (brightPixels width height rawData).
Proof.
  intros [_ Hvisited Hnd Hfills _ Hcovered].
  pose proof (fills_visited_lt width height rawData fills) as Hlt.
  fold gridCols gridRows grid n in Hlt. specialize (fun c => Hlt c Hfills).
  transitivity (sum_list_with (sumCells grid) (fst <$> fills)).
  { clear Hnd Hlt Hvisited Hcovered.
    induction Hfills as [|t fills Hok _ IH]; [reflexivity|].
    cbn [fmap list_fmap sum_list_with]. rewrite IH. f_equal.
    destruct Hok as [Hinv _ _ _ _ _ _ _ _]. exact (inv_total _ _ _ _ _ Hinv). }
  rewrite sumCells_join.
  pose proof (sumCells_bright width height rawData (mjoin (fst <$> fills)) Hnd Hlt) as Hsum.
  fold grid gridCols in Hsum. rewrite Hsum.
  unfold Spec.brightPixelsIn, brightPixels. f_equal. apply filter_iff_in.
  intros [x y] Hpix. unfold bright. cbn [fst snd]. split; [tauto|].
  intros Hbright. split; [exact Hbright|].
  destruct (cellIndex_lt width height (x, y) Hpix) as (Hgx & _ & Hc).
  fold gridCols gridRows n in Hgx, Hc. cbn [fst snd] in Hgx.
  pose proof (cellCoords_of_index gridCols (x / 32) (y / 32) Hgx) as Hco.
  change (y / 32 * gridCols + x / 32)%nat with (cellIndex gridCols (x, y)) in Hco.
  rewrite <- Hco. apply list_elem_of_fmap. exists (cellIndex gridCols (x, y)).
  split; [reflexivity|].
  assert (Hin : cellIndex gridCols (x, y) ∈ visited).
  { apply Hcovered; [exact Hc|].
    apply (active_activeCell width height rawData _ Hc).
    fold gridCols. rewrite Hco. unfold activeCell, Spec.brightPixelsIn.
    intros Hnil.
    apply (not_elem_of_nil (x, y)). rewrite <- Hnil.
    apply list_elem_of_filter. split; [|exact Hpix]. cbn [fst snd].
    split; [exact Hbright | left]. }
  rewrite Hvisited in Hin. apply elem_of_list_to_set in Hin. exact Hin.
Qed.

(** A finished fill counted at least one bright pixel. *)
Lemma fill_total_pos t :
  ComponentOK gridCols gridRows grid t -> (1 <= Regions.totalPixels (snd t))%nat.
Proof.
  intros [Hinv _ Hne Hact _ _ _ _ _].
  rewrite (inv_total _ _ _ _ _ Hinv).
  destruct (fst t) as [|c done']; [congruence|].
  specialize (Hact c (list_elem_of_here _ _)). unfold Regions.active in Hact.
  unfold sumCells. cbn [sum_list_with].
  destruct (grid !! c) as [k|]; [|discriminate].
  apply Nat.ltb_lt in Hact. unfold default. cbn [from_option id]. lia.
Qed.

End PixelTotals.

(** X14. The regions never count a pixel twice: the [pixelCount]s of the
    regions returned by [findDiffRegions] add up to at most the number
    of bright pixels of the diff image, and to exactly that number when
    [minRegionSize] is at most 1.  When the whole image has fewer than
    [minRegionSize] bright pixels, no region is returned. *)
Theorem findDiffRegions_pixel_total width height rawData minRegionSize regions :
  Regions.findDiffRegions width height rawData minRegionSize = Some regions ->
  let total := Z.of_nat (length (brightPixels width height rawData)) in
  (sumPixelCounts regions <= total)%Z
  /\ (minRegionSize <= 1 -> sumPixelCounts regions = total)
  /\ (inject_Z total < minRegionSize -> regions = []).
Proof.
  intros Hfind total.
  destruct (findDiffRegions_trace width height rawData minRegionSize regions Hfind)
    as (visited & fills & Hregions & Hinv).
  pose proof (fills_total width height rawData minRegionSize _ _ _ Hinv) as Htotal.
  pose proof (s_fills _ _ _ _ _ _ _ _ _ _ Hinv) as Hfills.
  assert (Hsum : sumPixelCounts regions
                 = Z.of_nat (sum_list_with
                               (fun t : FinishedFill => Regions.totalPixels (snd t))
                               (filter (kept minRegionSize) fills))).
  { rewrite Hregions, (sumPixelCounts_perm _ _ (Array_sort_perm _ _)).
    apply sumPixelCounts_makeRegion. }
  pose proof (sum_filter_le (kept minRegionSize)
                (fun t : FinishedFill => Regions.totalPixels (snd t)) fills) as Hle.
  split; [|split].
  - rewrite Hsum. unfold total. rewrite <- Htotal. apply Nat2Z.inj_le. exact Hle.
  - intros Hfloor. rewrite Hsum, filter_all; [unfold total; rewrite <- Htotal; reflexivity|].
    rewrite Forall_forall in Hfills |- *. intros t Ht.
    pose proof (fill_total_pos width height rawData t (Hfills t Ht)) as Hpos.
    unfold kept. apply NumFacts.lt_false.
    assert (H1 : 1 <= inject_Z (Z.of_nat (Regions.totalPixels (snd t)))).
    { rewrite <- (Zle_Qle 1). lia. }
    lra.
  - intros Hfew.
    destruct (filter (kept minRegionSize) fills) as [|t kept_fills] eqn:Hkept.
    + rewrite Hregions. reflexivity.
    + exfalso.
      assert (Ht : t ∈ filter (kept minRegionSize) fills) by (rewrite Hkept; left).
      apply list_elem_of_filter in Ht as [Hk _]. unfold kept in Hk.
      apply NumFacts.lt_false in Hk.
      assert (Hle' : (sum_list_with (fun t : FinishedFill => Regions.totalPixels (snd t))
                                    (t :: kept_fills)
                      <= sum_list_with (fun t : FinishedFill => Regions.totalPixels (snd t))
                                       fills)%nat).
      { rewrite <- Hkept. apply sum_filter_le. }
      cbn [sum_list_with] in Hle'.
      assert (Hbound : inject_Z (Z.of_nat (Regions.totalPixels (snd t))) <= inject_Z total).
      { rewrite <- Zle_Qle. unfold total. rewrite <- Htotal. apply Nat2Z.inj_le.
        etransitivity; [|exact Hle']. apply Nat.le_add_r. }
      lra.
Qed.

Lemma findDiffRegions_pixel_total_witness :
  (sumPixelCounts [sampleRegion] <= Z.of_nat (length (brightPixels 70 40 sampleDiffRaw)))%Z
  /\ (1 <= 1 -> sumPixelCounts [sampleRegion]
                = Z.of_nat (length (brightPixels 70 40 sampleDiffRaw)))
  /\ (inject_Z (Z.of_nat (length (brightPixels 70 40 sampleDiffRaw))) < 1
      -> [sampleRegion] = []).
Proof.
  apply (findDiffRegions_pixel_total 70 40 sampleDiffRaw 1 [sampleRegion]).
  vm_compute. reflexivity.
Defined.

(** ** The file operations of the patcher *)

Lemma elem_of_keysOf (code : Loop.Code) p : p ∈ Loop.keysOf code <-> is_Some (code !! p).
Proof.
  unfold Loop.keysOf. rewrite list_elem_of_fmap. split.
  - intros ([p' c] & -> & Hin). apply elem_of_map_to_list in Hin. exists c. exact Hin.
  - intros [c Hc]. exists (p, c). split; [reflexivity | apply elem_of_map_to_list, Hc].
Qed.

(** What the copy loop leaves in the target: a listed file that exists
    in the source is copied, everything else stays. *)
Lemma foldl_copyFile_lookup source paths p : forall target,
  foldl (Loop.copyFile source) target paths !! p
  = match (if decide (p ∈ paths) then source !! p else None) with
    | Some content => Some content
    | None => target !! p
    end.
Proof.
  induction paths as [|q paths IH]; intros target.
  - cbn [foldl]. rewrite decide_False by apply not_elem_of_nil. reflexivity.
  - cbn [foldl]. rewrite IH. unfold Loop.copyFile.
    destruct (decide (p ∈ paths)) as [Hin|Hnotin].
    + rewrite decide_True by (right; exact Hin).
      destruct (source !! p) as [c|] eqn:Hp; [reflexivity|].
      destruct (source !! q) as [cq|] eqn:Hq; [|reflexivity].
      rewrite lookup_insert_ne; [reflexivity|]. intros ->. congruence.
    + destruct (decide (p = q)) as [->|Hne].
      * rewrite decide_True by left.
        destruct (source !! q) as [cq|]; [apply lookup_insert_eq | reflexivity].
      * rewrite decide_False by (intros Hin; apply elem_of_cons in Hin as [?|?]; tauto).
        destruct (source !! q) as [cq|]; [|reflexivity].
        apply lookup_insert_ne. congruence.
Qed.

(** Copying the files of [code] out of a directory that holds them lays
    [code] over the target. *)
Lemma copy_written_code (code : Loop.Code) source target :
  code ⊆ source ->
  foldl (Loop.copyFile source) target (Loop.keysOf code) = code ∪ target.
Proof.
  intros Hsub. apply map_eq. intros p.
  rewrite foldl_copyFile_lookup, lookup_union.
  destruct (decide (p ∈ Loop.keysOf code)) as [Hin|Hnotin].
  - apply elem_of_keysOf in Hin as [c Hc].
    rewrite (lookup_weaken _ _ _ _ Hc Hsub), Hc.
    destruct (target !! p); reflexivity.
  - assert (Hnone : code !! p = None).
    { destruct (code !! p) as [c|] eqn:Hc; [|reflexivity].
      exfalso. apply Hnotin, elem_of_keysOf. exists c. exact Hc. }
    rewrite Hnone. destruct (target !! p); reflexivity.
Qed.

Lemma written_code_on_disk (code : Loop.Code) fs :
  code ⊆ Loop.files (Loop.writeCodeToFiles code fs).
Proof. unfold Loop.writeCodeToFiles. cbn [Loop.files]. apply map_union_subseteq_l. Qed.


(** ** What the boulder loop returns *)

Lemma loopCompositeScore_range comparison visionScore :
  0 <= loopCompositeScore comparison visionScore
  /\ loopCompositeScore comparison visionScore <= 1.
Proof.
  unfold loopCompositeScore, computeCompositeScore. cbn [s_vision s_layout s_ssim].
  destruct visionScore; apply NumFacts.clamp01_range.
Qed.

(** The four ways [suggestStrategy] can answer. *)
Lemma suggestStrategy_cases currentScore history config :
  let cfg := comparison config in
  let r := suggestStrategy currentScore history config in
  (Num.ge currentScore (threshold cfg) = true
   /\ shouldStop r = true /\ stopReason r = Some success)
  \/ (Num.ge currentScore (threshold cfg) = false
      /\ Num.ge (historyLength history) (maxIterations cfg) = true
      /\ shouldStop r = true /\ stopReason r = Some max_iterations)
  \/ (Num.ge currentScore (threshold cfg) = false
      /\ Num.ge (historyLength history) (maxIterations cfg) = false
      /\ Spec.lastThreeStalled history
      /\ shouldStop r = true /\ stopReason r = Some stop_converged)
  \/ (Num.ge currentScore (threshold cfg) = false
      /\ Num.ge (historyLength history) (maxIterations cfg) = false
      /\ shouldStop r = false).
Proof.
  intros cfg r. subst cfg r. unfold suggestStrategy. cbv zeta.
  destruct (Num.ge currentScore _) eqn:Hthr; [left; repeat split|].
  destruct (Num.ge (historyLength history) _) eqn:Hmax;
    [right; left; repeat split|].
  destruct (_ && _) eqn:Hstall.
  { right; right; left. apply slice_last_three_stalled in Hstall. repeat split; assumption. }
  right; right; right. split; [reflexivity|]. split; [reflexivity|].
  destruct history as [|h0 rest]; [reflexivity|].
  destruct (Num.gt _ currentScore); reflexivity.
Qed.


Lemma evaluate_Some options k obs st ev :
  Loop.evaluate options k obs st = Some ev ->
  Loop.ev_recommendation ev
  = suggestStrategy (Loop.ev_compositeScore ev) (Loop.st_history st) (Loop.config options)
  /\ iteration (Loop.ev_record ev) = k
  /\ score (Loop.ev_record ev) = Loop.ev_compositeScore ev
  /\ strategy (Loop.ev_record ev) = Loop.st_strategy st
  /\ 0 <= Loop.ev_compositeScore ev /\ Loop.ev_compositeScore ev <= 1.
Proof.
  unfold Loop.evaluate.
  destruct (Loop.decoded obs ≫= compareImages) as [comparison|]; [|discriminate].
  cbn [mbind option_bind]. intros H. injection H as <-.
  cbn [Loop.ev_recommendation Loop.ev_compositeScore Loop.ev_record
       Loop.buildIterationRecord iteration score strategy].
  repeat split; apply loopCompositeScore_range.
Qed.

Lemma last_snoc_score (history : list IterationRecord) r :
  score <$> last (history ++ [r]) = Some (score r).
Proof. rewrite last_snoc. reflexivity. Qed.

Lemma floor_between (q : Q) (k : Z) :
  inject_Z k <= q -> q < inject_Z (k + 1) -> Qfloor q = k.
Proof.
  intros Hle Hlt.
  pose proof (Qfloor_le q) as H1. pose proof (Qlt_floor q) as H2.
  assert (Ha : (k < Qfloor q + 1)%Z).
  { rewrite Zlt_Qlt. lra. }
  assert (Hb : (Qfloor q < k + 1)%Z).
  { rewrite Zlt_Qlt. lra. }
  lia.
Qed.

Section LoopResult.
Context (options : Loop.BoulderLoopOptions) (env : Loop.Environment).

Let cfg := comparison (Loop.config options).

Lemma initialState_inv fs st :
  Loop.initialState options env fs = Some st -> LoopInv options 1 st.
Proof.
  unfold Loop.initialState. intros H.
  destruct (match Loop.existingCode options with
            | Some code => Some (code, fs)
            | None => _ end) as [[code fs']|]; [|discriminate].
  cbn [mbind option_bind] in H. injection H as <-.
  split; cbn [Loop.st_history Loop.st_previousScore length].
  - lia.
  - left. reflexivity.
  - reflexivity.
  - intros i r Hi. discriminate.
  - constructor.
  - reflexivity.
Qed.

(** Between two iterations the last score is below the threshold. *)
Lemma previous_below_threshold k st :
  LoopInv options k st ->
  ~ (Loop.st_history st <> []
     /\ threshold cfg <= default 0 (Loop.st_previousScore st)).
Proof.
  intros [Hk Hpassed Hlen Hnum Hscores Hprev] [Hne Hthr].
  rewrite Hprev in Hthr.
  destruct (last (Loop.st_history st)) as [rec|] eqn:Hlast.
  - rewrite Forall_forall in Hscores.
    destruct (Hscores rec) as (_ & _ & Hlt).
    { apply last_Some in Hlast as [l' ->]. apply elem_of_app. right. left. }
    unfold default in Hthr.
    cbn [fmap option_fmap option_map from_option id] in Hthr. unfold cfg in *. lra.
  - apply last_None in Hlast. congruence.
Qed.

Lemma history_numbered k st i rec :
  LoopInv options k st ->
  Loop.st_history st !! i = Some rec ->
  iteration rec = (Z.of_nat i + 1)%Z /\ 0 <= score rec /\ score rec <= 1.
Proof.
  intros [Hk Hpassed Hlen Hnum Hscores Hprev] Hi. split; [exact (Hnum i rec Hi)|].
  rewrite Forall_forall in Hscores.
  destruct (Hscores rec (list_elem_of_lookup_2 _ _ _ Hi)) as (H0 & H1 & _).
  split; assumption.
Qed.

(** The result of a timeout. *)
Lemma timeout_good k st elapsed :
  LoopInv options k st ->
  GoodResult options
    {| Loop.finalScore := default 0 (Loop.st_previousScore st);
       Loop.totalIterations := inject_Z (k - 1);
       Loop.r_stopReason := Some timeout;
       Loop.finalCode := Loop.st_currentCode st;
       Loop.r_history := Loop.st_history st;
       Loop.r_elapsedMs := elapsed |}.
Proof.
  intros Hinv.
  split; cbn [Loop.finalScore Loop.totalIterations Loop.r_stopReason Loop.r_history].
  - intros i rec. apply (history_numbered k st i rec Hinv).
  - rewrite (li_previous _ _ _ Hinv). reflexivity.
  - right; right; left. reflexivity.
  - split; [discriminate|]. intros H. exfalso.
    exact (previous_below_threshold k st Hinv H).
  - intros _. rewrite (li_length _ _ _ Hinv). reflexivity.
  - discriminate.
  - discriminate.
Qed.

(** The result when the loop has run out of iterations. *)
Lemma exhausted_good k st elapsed :
  LoopInv options k st ->
  maxIterations cfg < inject_Z k ->
  GoodResult options
    {| Loop.finalScore := default 0 (Loop.st_previousScore st);
       Loop.totalIterations := maxIterations cfg;
       Loop.r_stopReason := Some max_iterations;
       Loop.finalCode := Loop.st_currentCode st;
       Loop.r_history := Loop.st_history st;
       Loop.r_elapsedMs := elapsed |}.
Proof.
  intros Hinv Hend.
  split; cbn [Loop.finalScore Loop.totalIterations Loop.r_stopReason Loop.r_history].
  - intros i rec. apply (history_numbered k st i rec Hinv).
  - rewrite (li_previous _ _ _ Hinv). reflexivity.
  - right; right; right. reflexivity.
  - split; [discriminate|]. intros H. exfalso.
    exact (previous_below_threshold k st Hinv H).
  - congruence.
  - intros _. split; [reflexivity|]. unfold Loop.loopFuel. fold cfg.
    pose proof (li_length _ _ _ Hinv) as Hlen.
    pose proof (li_iteration _ _ _ Hinv) as Hk.
    destruct (li_passed _ _ _ Hinv) as [->|Hpassed].
    + pose proof (Qfloor_le (maxIterations cfg)) as Hfl.
      assert (Hlt : (Qfloor (maxIterations cfg) < 1)%Z) by (rewrite Zlt_Qlt; lra).
      lia.
    + fold cfg in Hpassed.
      rewrite (floor_between (maxIterations cfg) (k - 1) Hpassed).
      * lia.
      * replace (k - 1 + 1)%Z with k by lia. exact Hend.
  - discriminate.
Qed.

(** One pass through the loop body keeps the invariant, or returns a
    good result. *)
Lemma iterationBody_inv k st :
  LoopInv options k st ->
  inject_Z k <= maxIterations cfg ->
  match Loop.iterationBody options k (Loop.observe env k) st with
  | Loop.Continue st' => LoopInv options (k + 1) st'
  | Loop.Return r _ => GoodResult options r
  | Loop.Throw => True
  end.
Proof.
  intros Hinv Hle. unfold Loop.iterationBody.
  set (obs := Loop.observe env k).
  destruct (Num.gt _ _).
  { apply timeout_good, Hinv. }
  destruct (Loop.evaluate options k obs st) as [ev|] eqn:Hev; [|exact I].
  destruct (evaluate_Some options k obs st ev Hev)
    as (Hrec & Hiter & Hscore & _ & Hs0 & Hs1).
  destruct Hinv as [Hk Hpassed Hlen Hnum Hscores Hprev].
  assert (Hnum' : forall i r, (Loop.st_history st ++ [Loop.ev_record ev]) !! i = Some r ->
                    iteration r = (Z.of_nat i + 1)%Z).
  { intros i r Hi. apply lookup_app_Some in Hi as [Hi|[Hge Hi]].
    - exact (Hnum i r Hi).
    - apply list_lookup_singleton_Some in Hi as [Hi <-]. rewrite Hiter. lia. }
  assert (Hhist : Num.ge (historyLength (Loop.st_history st)) (maxIterations cfg) = false).
  { apply NumFacts.ge_false. unfold historyLength. rewrite Hlen.
    assert (inject_Z (k - 1) < inject_Z k) by (rewrite <- Zlt_Qlt; lia). lra. }
  pose proof (suggestStrategy_cases (Loop.ev_compositeScore ev) (Loop.st_history st)
                (Loop.config options)) as Hcases.
  cbv zeta in Hcases. fold cfg in Hcases. rewrite <- Hrec in Hcases.
  destruct Hcases as [(Hthr & Hstop & Hreason)
                     |[(_ & Hmax & _)
                     |[(Hthr & _ & Hstalled & Hstop & Hreason)
                     |(Hthr & _ & Hstop)]]].
  - (* success *)
    rewrite Hstop. apply NumFacts.ge_true in Hthr.
    split; cbn [Loop.finalScore Loop.totalIterations Loop.r_stopReason Loop.r_history].
    + intros i rec Hi. split; [exact (Hnum' i rec Hi)|].
      apply lookup_app_Some in Hi as [Hi|[_ Hi]].
      * rewrite Forall_forall in Hscores.
        destruct (Hscores rec (list_elem_of_lookup_2 _ _ _ Hi)) as (H0 & H1 & _).
        split; assumption.
      * apply list_lookup_singleton_Some in Hi as [_ <-]. rewrite Hscore.
        split; assumption.
    + rewrite last_snoc_score, Hscore. reflexivity.
    + left. exact Hreason.
    + split; [|intros _; exact Hreason]. intros _. split; [|exact Hthr].
      intros Hnil. apply app_eq_nil in Hnil as [_ Hnil]. discriminate.
    + intros _. rewrite length_app, Nat2Z.inj_add, Hlen. cbn [length].
      f_equal. lia.
    + rewrite Hreason. discriminate.
    + rewrite Hreason. discriminate.
  - congruence.
  - (* converged *)
    rewrite Hstop. apply NumFacts.ge_false in Hthr.
    split; cbn [Loop.finalScore Loop.totalIterations Loop.r_stopReason Loop.r_history].
    + intros i rec Hi. split; [exact (Hnum' i rec Hi)|].
      apply lookup_app_Some in Hi as [Hi|[_ Hi]].
      * rewrite Forall_forall in Hscores.
        destruct (Hscores rec (list_elem_of_lookup_2 _ _ _ Hi)) as (H0 & H1 & _).
        split; assumption.
      * apply list_lookup_singleton_Some in Hi as [_ <-]. rewrite Hscore.
        split; assumption.
    + rewrite last_snoc_score, Hscore. reflexivity.
    + right; left. exact Hreason.
    + rewrite Hreason. split; [discriminate|]. intros [_ Habs]. exfalso.
      unfold cfg in *. lra.
    + intros _. rewrite length_app, Nat2Z.inj_add, Hlen. cbn [length].
      f_equal. lia.
    + rewrite Hreason. discriminate.
    + intros _. destruct Hstalled as (older & a & b & c & -> & Ha & Hb & Hc).
      exists older, a, b, c, (Loop.ev_record ev).
      split; [rewrite <- app_assoc; reflexivity|]. repeat split; assumption.
  - (* the loop goes on *)
    rewrite Hstop. apply NumFacts.ge_false in Hthr.
    destruct (Loop.restore _ _ _ _) as [[[code paths] fs']|]; [|exact I].
    destruct (Loop.patchReply obs _ code _) as [extracted|]; [|exact I].
    split; cbn [Loop.st_history Loop.st_previousScore].
    + lia.
    + right. replace (k + 1 - 1)%Z with k by lia. exact Hle.
    + rewrite length_app, Nat2Z.inj_add, Hlen. cbn [length]. lia.
    + exact Hnum'.
    + apply Forall_app. split; [exact Hscores|]. apply Forall_singleton.
      rewrite Hscore. repeat split; assumption.
    + rewrite last_snoc_score, Hscore. reflexivity.
Qed.

(** The loop ends within its fuel, and what it returns is good. *)
Lemma iterations_good fuel : forall k st,
  LoopInv options k st ->
  (Z.to_nat (Qfloor (maxIterations cfg)) <= fuel + Z.to_nat (k - 1))%nat ->
  exists outcome,
    Loop.iterations fuel options env k st = Some outcome
    /\ forall r fs, outcome = Loop.Returned r fs -> GoodResult options r.
Proof.
  induction fuel as [|fuel IH]; intros k st Hinv Hfuel;
    cbn [Loop.iterations]; fold cfg;
    pose proof (li_iteration _ _ _ Hinv) as Hk;
    destruct (Num.le (inject_Z k) (maxIterations cfg)) eqn:Htest.
  - exfalso. apply NumFacts.le_true in Htest.
    pose proof (Qfloor_resp_le _ _ Htest) as Hfloor. rewrite Qfloor_Z in Hfloor. lia.
  - eexists. split; [reflexivity|]. intros r fs Hr. injection Hr as <- _.
    apply NumFacts.le_false in Htest. apply (exhausted_good k); assumption.
  - apply NumFacts.le_true in Htest.
    pose proof (iterationBody_inv k st Hinv Htest) as Hbody.
    destruct (Loop.iterationBody options k (Loop.observe env k) st) as [st'|r fs|].
    + apply IH; [exact Hbody | lia].
    + eexists. split; [reflexivity|]. intros r' fs' Hr. injection Hr as <- _. exact Hbody.
    + eexists. split; [reflexivity|]. intros r' fs' Hr. discriminate.
  - eexists. split; [reflexivity|]. intros r fs Hr. injection Hr as <- _.
    apply NumFacts.le_false in Htest. apply (exhausted_good k); assumption.
Qed.

Lemma runBoulderLoop_good fs :
  exists outcome,
    Loop.runBoulderLoop options env fs = Some outcome
    /\ forall r fs', outcome = Loop.Returned r fs' -> GoodResult options r.
Proof.
  unfold Loop.runBoulderLoop.
  destruct (Loop.initialState options env fs) as [st|] eqn:Hinit.
  - apply iterations_good; [exact (initialState_inv fs st Hinit)|].
    unfold Loop.loopFuel. fold cfg. lia.
  - eexists. split; [reflexivity|]. intros r fs' Hr. discriminate.
Qed.

End LoopResult.

(** X16. [runBoulderLoop] always ends, by returning or throwing.  When
    it returns, the history numbers its records 1, 2, ... with scores
    in the unit interval, [finalScore] is the score of the last record
    (0 without one), and the stop reason is one of success, converged,
    timeout and max_iterations.  The reason is success exactly when the
    last score reaches the threshold.  [totalIterations] is the length
    of the history unless the iterations ran out, in which case it is
    [maxIterations] and the history has as many records as whole
    iterations fit.  A run that converged ended on a record that comes
    after three stalled ones. *)
Theorem runBoulderLoop_result options env fs :
  exists outcome,
    Loop.runBoulderLoop options env fs = Some outcome
    /\ forall r fs',
         outcome = Loop.Returned r fs' ->
         let cfg := comparison (Loop.config options) in
         (forall i rec, Loop.r_history r !! i = Some rec ->
            iteration rec = (Z.of_nat i + 1)%Z /\ 0 <= score rec /\ score rec <= 1)
         /\ Loop.finalScore r = default 0 (score <$> last (Loop.r_history r))
         /\ (Loop.r_stopReason r = Some success
             \/ Loop.r_stopReason r = Some stop_converged
             \/ Loop.r_stopReason r = Some timeout
             \/ Loop.r_stopReason r = Some max_iterations)
         /\ (Loop.r_stopReason r = Some success
             <-> (Loop.r_history r <> [] /\ threshold cfg <= Loop.finalScore r))
         /\ (Loop.r_stopReason r <> Some max_iterations ->
             Loop.totalIterations r = inject_Z (Z.of_nat (length (Loop.r_history r))))
         /\ (Loop.r_stopReason r = Some max_iterations ->
             Loop.totalIterations r = maxIterations cfg
             /\ length (Loop.r_history r) = Z.to_nat (Qfloor (maxIterations cfg)))
         /\ (Loop.r_stopReason r = Some stop_converged ->
             exists older a b c final,
               Loop.r_history r = older ++ [a; b; c; final]
               /\ category a = stalled /\ category b = stalled
               /\ category c = stalled).
Proof.
  destruct (runBoulderLoop_good options env fs) as (outcome & Hrun & Hgood).
  exists outcome. split; [exact Hrun|]. intros r fs' Hr cfg.
  destruct (Hgood r fs' Hr) as [H1 H2 H3 H4 H5 H6 H7].
  repeat (split; [assumption|]). exact H7.
Qed.

(** ** Backups and rollback in the boulder loop *)

Lemma stateAfter_snoc options env n : forall start st st_n,
  Loop.stateAfter n options env start st = Some st_n ->
  Loop.stateAfter (Datatypes.S n) options env start st
  = match Loop.iterationBody options (start + Z.of_nat n)
            (Loop.observe env (start + Z.of_nat n)) st_n with
    | Loop.Continue st' => Some st'
    | _ => None
    end.
Proof.
  induction n as [|n IH]; intros start st st_n Hn.
  - cbn [Loop.stateAfter] in Hn |- *. injection Hn as <-.
    replace (start + Z.of_nat 0)%Z with start by lia.
    destruct (Loop.iterationBody _ _ _ _); reflexivity.
  - cbn [Loop.stateAfter] in Hn.
    change (Loop.stateAfter (Datatypes.S (Datatypes.S n)) options env start st)
      with (match Loop.iterationBody options start (Loop.observe env start) st with
            | Loop.Continue st' =>
                Loop.stateAfter (Datatypes.S n) options env (start + 1) st'
            | _ => None
            end).
    destruct (Loop.iterationBody options start (Loop.observe env start) st)
      as [st1| |]; try discriminate.
    rewrite (IH _ _ _ Hn).
    replace (start + 1 + Z.of_nat n)%Z with (start + Z.of_nat (Datatypes.S n))%Z by lia.
    reflexivity.
Qed.

Lemma stateAt_next options env fs0 k st :
  (1 <= k)%nat ->
  Loop.stateAt options env fs0 k = Some st ->
  Loop.stateAt options env fs0 (k + 1)
  = match Loop.iterationBody options (Z.of_nat k) (Loop.observe env (Z.of_nat k)) st with
    | Loop.Continue st' => Some st'
    | _ => None
    end.
Proof.
  unfold Loop.stateAt. intros Hk Hst.
  destruct (Loop.initialState options env fs0) as [st0|]; [|discriminate].
  cbn [mbind option_bind] in Hst |- *.
  replace (k + 1 - 1)%nat with (Datatypes.S (k - 1)) by lia.
  rewrite (stateAfter_snoc _ _ _ _ _ _ Hst).
  replace (1 + Z.of_nat (k - 1))%Z with (Z.of_nat k) by lia. reflexivity.
Qed.

Section BackupFacts.
Context (options : Loop.BoulderLoopOptions) (env : Loop.Environment).
Context (fs0 : Loop.FileSystem).

Lemma initialState_backups st :
  Loop.initialState options env fs0 = Some st ->
  BackupInv options env fs0 1 st.
Proof.
  intros Hinit.
  assert (Hst : Loop.stateAt options env fs0 1 = Some st).
  { unfold Loop.stateAt. rewrite Hinit. reflexivity. }
  unfold Loop.initialState in Hinit.
  destruct (Loop.existingCode options) as [code|] eqn:Hexisting.
  - cbn [mbind option_bind] in Hinit. injection Hinit as <-.
    split; cbn [Loop.st_history Loop.st_filePaths Loop.st_currentCode Loop.st_fs length];
      try reflexivity; try lia.
    + exact Hst.
    + intros i rec Hi. discriminate.
    + intros [Hnone|Hk]; [rewrite Hexisting in Hnone; discriminate | lia].
    + tauto.
  - destruct (Loop.initialReply env) as [code|]; [|discriminate].
    cbn [mbind option_bind] in Hinit. injection Hinit as <-.
    split; cbn [Loop.st_history Loop.st_filePaths Loop.st_currentCode Loop.st_fs length];
      try reflexivity; try lia.
    + exact Hst.
    + intros i rec Hi. discriminate.
    + intros _. apply written_code_on_disk.
    + intros p [c Hp]. unfold Loop.writeCodeToFiles. cbn [Loop.files].
      rewrite lookup_union. rewrite Hp. destruct (code !! p); eexists; reflexivity.
Qed.

(** After the backup at the top of iteration [k], every backup
    [1 .. k - 1] holds the code with which the next iteration started. *)
Lemma backupBefore_backups k st j :
  BackupInv options env fs0 k st ->
  (1 <= j)%nat -> (j + 1 <= k)%nat ->
  exists next,
    Loop.stateAt options env fs0 (j + 1) = Some next
    /\ Loop.backups (Loop.backupBefore (Z.of_nat k) st) !! Z.of_nat j
       = Some (Loop.st_currentCode next ∪ default ∅ (Loop.backups fs0 !! Z.of_nat j)).
Proof.
  intros [Hst Hlen Hrecs Hpaths Hdisk Hkept Hbackups Huntouched] Hj Hjk.
  unfold Loop.backupBefore.
  replace (1 <? Z.of_nat k)%Z with true by (symmetry; apply Z.ltb_lt; lia).
  unfold Loop.createBackup. cbn [Loop.backups].
  destruct (decide (j + 1 = k)%nat) as [Heq|Hne].
  - exists st. replace (Z.of_nat k - 1)%Z with (Z.of_nat j) by lia.
    rewrite Heq. split; [exact Hst|]. rewrite lookup_insert_eq.
    assert (Htwo : Loop.existingCode options = None \/ (2 <= k)%nat) by (right; lia).
    rewrite Hpaths, (copy_written_code _ _ _ (Hdisk Htwo)).
    rewrite (Huntouched (Z.of_nat j) ltac:(lia)). reflexivity.
  - destruct (Hbackups j Hj ltac:(lia)) as (next & Hnext & Hb).
    exists next. split; [exact Hnext|].
    rewrite lookup_insert_ne by lia. exact Hb.
Qed.

Lemma backupBefore_files k st :
  Loop.files (Loop.backupBefore k st) = Loop.files (Loop.st_fs st).
Proof. unfold Loop.backupBefore. destruct (1 <? k)%Z; reflexivity. Qed.

Lemma backupBefore_untouched k st id :
  (k <= id)%Z ->
  Loop.backups (Loop.backupBefore k st) !! id = Loop.backups (Loop.st_fs st) !! id.
Proof.
  intros Hid. unfold Loop.backupBefore. destruct (1 <? k)%Z; [|reflexivity].
  unfold Loop.createBackup. cbn [Loop.backups]. apply lookup_insert_ne. lia.
Qed.

Lemma restore_backups recommendation code paths fs code' paths' fs' :
  Loop.restore recommendation code paths fs = Some (code', paths', fs') ->
  Loop.backups fs' = Loop.backups fs
  /\ paths' = (if shouldRollback recommendation
               then match rollbackTo recommendation with
                    | Some _ => Loop.keysOf code'
                    | None => paths
                    end
               else paths).
Proof.
  unfold Loop.restore, Loop.rollbackToBackup.
  destruct (shouldRollback recommendation); [|intros H; injection H as <- <- <-; tauto].
  destruct (rollbackTo recommendation) as [target|];
    [|intros H; injection H as <- <- <-; tauto].
  destruct (Loop.backups fs !! target) as [b|]; [|discriminate].
  cbn [mbind option_bind]. intros H. injection H as <- <- <-. tauto.
Qed.

Lemma restore_files recommendation code paths fs code' paths' fs' :
  Loop.restore recommendation code paths fs = Some (code', paths', fs') ->
  forall p, is_Some (Loop.files fs !! p) -> is_Some (Loop.files fs' !! p).
Proof.
  unfold Loop.restore, Loop.rollbackToBackup.
  destruct (shouldRollback recommendation); [|intros H; injection H as <- <- <-; tauto].
  destruct (rollbackTo recommendation) as [target|];
    [|intros H; injection H as <- <- <-; tauto].
  destruct (Loop.backups fs !! target) as [b|]; [|discriminate].
  cbn [mbind option_bind]. intros H. injection H as <- <- <-.
  intros p [c Hp]. cbn [Loop.files]. rewrite lookup_union, Hp.
  destruct (b !! p); eexists; reflexivity.
Qed.

(** One pass through the loop body keeps the backup invariant. *)
Lemma iterationBody_backups k st st' :
  (1 <= k)%nat ->
  BackupInv options env fs0 k st ->
  Loop.iterationBody options (Z.of_nat k) (Loop.observe env (Z.of_nat k)) st
  = Loop.Continue st' ->
  BackupInv options env fs0 (k + 1) st'.
Proof.
  intros Hk Hinv Hbody.
  pose proof (stateAt_next options env fs0 k st Hk (bi_state _ _ _ _ _ Hinv)) as Hnext.
  rewrite Hbody in Hnext.
  pose proof (fun j => backupBefore_backups k st j Hinv) as Hsaved.
  destruct Hinv as [Hst Hlen Hrecs Hpaths Hdisk Hkept Hbackups Huntouched].
  unfold Loop.iterationBody in Hbody.
  destruct (Num.gt _ _); [discriminate|].
  destruct (Loop.evaluate options (Z.of_nat k) _ st) as [ev|] eqn:Hev; [|discriminate].
  destruct (shouldStop _); [discriminate|].
  destruct (Loop.restore _ _ _ _) as [[[code paths] fs']|] eqn:Hrestore; [|discriminate].
  destruct (Loop.patchReply _ _ code _) as [extracted|]; [|discriminate].
  injection Hbody as <-.
  destruct (restore_backups _ _ _ _ _ _ _ Hrestore) as [Hsame _].
  pose proof (restore_files _ _ _ _ _ _ _ Hrestore) as Hfiles.
  split; cbn [Loop.st_history Loop.st_filePaths Loop.st_currentCode Loop.st_fs
              Loop.writeCodeToFiles Loop.files Loop.backups].
  - exact Hnext.
  - rewrite length_app, Hlen. cbn [length]. lia.
  - intros i rec Hi. apply lookup_app_Some in Hi as [Hi|[Hge Hi]].
    + exact (Hrecs i rec Hi).
    + apply list_lookup_singleton_Some in Hi as [Hi <-].
      exists st, ev. rewrite Hlen in Hi, Hge.
      replace (i + 1)%nat with k by lia. split; [exact Hst|]. split; [exact Hev | reflexivity].
  - reflexivity.
  - intros _. apply map_union_subseteq_l.
  - intros p Hp. rewrite lookup_union.
    destruct (Hfiles p) as [c Hc].
    { rewrite backupBefore_files. exact (Hkept p Hp). }
    rewrite Hc. destruct (Loop.patchCode _ _ _ !! p); eexists; reflexivity.
  - intros j Hj Hjk. rewrite Hsame. apply Hsaved; [exact Hj | lia].
  - intros id Hid. rewrite Hsame, backupBefore_untouched by lia.
    apply Huntouched. lia.
Qed.

(** Every state that a run reaches satisfies the backup invariant. *)
Lemma stateAt_backups k : forall st,
  (1 <= k)%nat ->
  Loop.stateAt options env fs0 k = Some st ->
  BackupInv options env fs0 k st.
Proof.
  induction k as [|k IH]; intros st Hk Hst; [lia|].
  destruct (decide (k = 0)%nat) as [->|Hpos].
  - apply initialState_backups. unfold Loop.stateAt in Hst.
    destruct (Loop.initialState options env fs0) as [st0|]; [|discriminate].
    cbn [mbind option_bind Loop.stateAfter Nat.sub] in Hst. congruence.
  - assert (Hprev : exists st_k, Loop.stateAt options env fs0 k = Some st_k).
    { unfold Loop.stateAt in Hst |- *.
      destruct (Loop.initialState options env fs0) as [st0|]; [|discriminate].
      cbn [mbind option_bind] in Hst |- *.
      replace (Datatypes.S k - 1)%nat with (Datatypes.S (k - 1)) in Hst by lia.
      destruct (Loop.stateAfter (k - 1) options env 1 st0) as [st_k|] eqn:Hk1.
      - exists st_k. reflexivity.
      - exfalso. clear -Hst Hk1.
        revert Hst Hk1. generalize 1%Z, st0. generalize (k - 1)%nat.
        induction n as [|n IHn]; intros start s Hs Hn; [discriminate|].
        cbn [Loop.stateAfter] in Hn.
        change (Loop.stateAfter (Datatypes.S (Datatypes.S n)) options env start s)
          with (match Loop.iterationBody options start (Loop.observe env start) s with
                | Loop.Continue st' =>
                    Loop.stateAfter (Datatypes.S n) options env (start + 1) st'
                | _ => None
                end) in Hs.
        destruct (Loop.iterationBody options start (Loop.observe env start) s)
          as [s1| |]; try discriminate.
        exact (IHn _ _ Hs Hn). }
    destruct Hprev as [st_k Hst_k].
    pose proof (stateAt_next options env fs0 k st_k ltac:(lia) Hst_k) as Hnext.
    replace (k + 1)%nat with (Datatypes.S k) in Hnext by lia.
    rewrite Hst in Hnext.
    destruct (Loop.iterationBody options (Z.of_nat k) (Loop.observe env (Z.of_nat k)) st_k)
      as [st'| |] eqn:Hbody; try discriminate.
    injection Hnext as ->.
    replace (Datatypes.S k) with (k + 1)%nat by lia.
    apply (iterationBody_backups k st_k st' ltac:(lia)); [|exact Hbody].
    apply IH; [lia | exact Hst_k].
Qed.

End BackupFacts.



(** ** A screenshot that matches the design *)




(** ** The final code, its score and the project files *)

Section LoopReturns.
Context (options : Loop.BoulderLoopOptions) (env : Loop.Environment).
Context (fs0 : Loop.FileSystem).

(** Inside the loop [suggestStrategy] stops for success or convergence
    only: the history is shorter than [maxIterations]. *)
Lemma loop_stop_reason k st ev :
  LoopInv options k st ->
  inject_Z k <= maxIterations (comparison (Loop.config options)) ->
  Loop.evaluate options k (Loop.observe env k) st = Some ev ->
  shouldStop (Loop.ev_recommendation ev) = true ->
  stopReason (Loop.ev_recommendation ev) = Some success
  \/ stopReason (Loop.ev_recommendation ev) = Some stop_converged.
Proof.
  intros Hinv Hle Hev Hstop.
  destruct (evaluate_Some _ _ _ _ _ Hev) as (Hrec & _).
  assert (Hhist : Num.ge (historyLength (Loop.st_history st))
                         (maxIterations (comparison (Loop.config options))) = false).
  { apply NumFacts.ge_false. unfold historyLength. rewrite (li_length _ _ _ Hinv).
    assert (inject_Z (k - 1) < inject_Z k) by (rewrite <- Zlt_Qlt; lia). lra. }
  pose proof (suggestStrategy_cases (Loop.ev_compositeScore ev) (Loop.st_history st)
                (Loop.config options)) as Hcases.
  cbv zeta in Hcases. rewrite <- Hrec in Hcases.
  destruct Hcases as [(_ & _ & Hreason)
                     |[(_ & Hmax & _)
                     |[(_ & _ & _ & _ & Hreason)
                     |(_ & _ & Hgo)]]].
  - left. exact Hreason.
  - congruence.
  - right. exact Hreason.
  - congruence.
Qed.

Lemma iterations_returns fuel : forall (k : nat) st r fs',
  (1 <= k)%nat ->
  Loop.stateAt options env fs0 k = Some st ->
  LoopInv options (Z.of_nat k) st ->
  Loop.iterations fuel options env (Z.of_nat k) st = Some (Loop.Returned r fs') ->
  exists (k' : nat) st',
    (k <= k')%nat
    /\ Loop.stateAt options env fs0 k' = Some st'
    /\ ReturnsAt options env k' st' r fs'.
Proof.
  induction fuel as [|fuel IH]; intros k st r fs' Hk Hst Hinv Hrun;
    cbn [Loop.iterations] in Hrun;
    destruct (Num.le (inject_Z (Z.of_nat k)) _) eqn:Htest; try discriminate.
  - injection Hrun as <- <-. exists k, st. split; [lia|]. split; [exact Hst|].
    split; [reflexivity|]. split; [reflexivity|]. left.
    split; [right; reflexivity|]. split; reflexivity.
  - apply NumFacts.le_true in Htest.
    pose proof (iterationBody_inv options env (Z.of_nat k) st Hinv Htest) as Hbody.
    pose proof (stateAt_next options env fs0 k st Hk Hst) as Hnext.
    destruct (Loop.iterationBody options (Z.of_nat k) (Loop.observe env (Z.of_nat k)) st)
      as [st1|r1 fs1|] eqn:Hstep; try discriminate.
    + replace (Z.of_nat k + 1)%Z with (Z.of_nat (k + 1)) in Hrun, Hbody by lia.
      destruct (IH (k + 1)%nat st1 r fs' ltac:(lia) Hnext Hbody Hrun)
        as (k' & st' & Hle & Hst' & Hret).
      exists k', st'. split; [lia|]. split; assumption.
    + injection Hrun as <- <-. exists k, st. split; [lia|]. split; [exact Hst|].
      clear Hbody Hnext. unfold Loop.iterationBody in Hstep.
      destruct (Num.gt _ _).
      { injection Hstep as <- <-.
        split; [reflexivity|]. split; [reflexivity|]. left.
        split; [left; reflexivity|]. split; reflexivity. }
      destruct (Loop.evaluate options (Z.of_nat k) _ st) as [ev|] eqn:Hev; [|discriminate].
      destruct (shouldStop (Loop.ev_recommendation ev)) eqn:Hstop.
      * injection Hstep as <- <-.
        split; [reflexivity|]. split; [apply backupBefore_files|]. right.
        split; [exact (loop_stop_reason _ _ _ Hinv Htest Hev Hstop)|].
        exists ev. split; [exact Hev|]. split; reflexivity.
      * destruct (Loop.restore _ _ _ _) as [[[code paths] fs2]|]; [|discriminate].
        destruct (Loop.patchReply _ _ code _); discriminate.
  - injection Hrun as <- <-. exists k, st. split; [lia|]. split; [exact Hst|].
    split; [reflexivity|]. split; [reflexivity|]. left.
    split; [right; reflexivity|]. split; reflexivity.
Qed.

Lemma runBoulderLoop_returns r fs' :
  Loop.runBoulderLoop options env fs0 = Some (Loop.Returned r fs') ->
  exists (k : nat) st,
    (1 <= k)%nat
    /\ Loop.stateAt options env fs0 k = Some st
    /\ ReturnsAt options env k st r fs'.
Proof.
  unfold Loop.runBoulderLoop.
  destruct (Loop.initialState options env fs0) as [st0|] eqn:Hinit; [|discriminate].
  intros Hrun.
  destruct (iterations_returns (Loop.loopFuel options) 1%nat st0 r fs' ltac:(lia))
    as (k & st & Hk & Hst & Hret).
  - unfold Loop.stateAt. rewrite Hinit. reflexivity.
  - exact (initialState_inv options env fs0 st0 Hinit).
  - exact Hrun.
  - exists k, st. split; [exact Hk|]. split; assumption.
Qed.

End LoopReturns.

(** X19. The final score is not always the score of the final code.  A
    run that stops by success or convergence in iteration [k] returns
    the code that iteration [k] scored, with that score.  A run that
    ends by timeout or because the iterations ran out returns the code
    with which iteration [k] would have started, the output of the last
    patch, which was never rendered nor scored; its final score is the
    score of the code of iteration [k - 1], or 0 when no iteration
    ran. *)
Theorem final_score_and_final_code options env fs r fs' :
  Loop.runBoulderLoop options env fs = Some (Loop.Returned r fs') ->
  exists (k : nat) st,
    (1 <= k)%nat
    /\ Loop.stateAt options env fs k = Some st
    /\ Loop.finalCode r = Loop.st_currentCode st
    /\ (((Loop.r_stopReason r = Some success \/ Loop.r_stopReason r = Some stop_converged)
         /\ length (Loop.r_history r) = k
         /\ exists ev,
              Loop.evaluate options (Z.of_nat k) (Loop.observe env (Z.of_nat k)) st
              = Some ev
              /\ Loop.finalScore r = Loop.ev_compositeScore ev)
        \/ ((Loop.r_stopReason r = Some timeout \/ Loop.r_stopReason r = Some max_iterations)
            /\ length (Loop.r_history r) = (k - 1)%nat
            /\ (k = 1%nat -> Loop.finalScore r = 0)
            /\ ((2 <= k)%nat ->
                exists st_prev ev_prev,
                  Loop.stateAt options env fs (k - 1) = Some st_prev
                  /\ Loop.evaluate options (Z.of_nat (k - 1))
                       (Loop.observe env (Z.of_nat (k - 1))) st_prev = Some ev_prev
                  /\ Loop.finalScore r = Loop.ev_compositeScore ev_prev))).
Proof.
  intros Hrun.
  destruct (runBoulderLoop_returns options env fs r fs' Hrun)
    as (k & st & Hk & Hst & Hcode & _ & Hcases).
  pose proof (stateAt_backups options env fs k st Hk Hst) as Hinv.
  pose proof (bi_length _ _ _ _ _ Hinv) as Hlen.
  exists k, st. split; [exact Hk|]. split; [exact Hst|]. split; [exact Hcode|].
  destruct Hcases as [(Hreason & Hhist & Hfinal)|(Hreason & ev & Hev & Hhist & Hfinal)].
  - right. split; [exact Hreason|]. rewrite Hhist. split; [exact Hlen|].
    destruct (runBoulderLoop_good options env fs) as (outcome & Hrun' & Hgood).
    rewrite Hrun in Hrun'. injection Hrun' as <-.
    pose proof (gr_final _ _ (Hgood r fs' eq_refl)) as Hlast. rewrite Hhist in Hlast.
    split.
    + intros ->. destruct (Loop.st_history st); [exact Hlast | discriminate].
    + intros Htwo.
      destruct (last (Loop.st_history st)) as [rec|] eqn:Hrec.
      * rewrite last_lookup in Hrec. rewrite Hlen in Hrec.
        destruct (bi_records _ _ _ _ _ Hinv _ rec Hrec) as (st_i & ev_i & Hst_i & Hev_i & ->).
        replace (Init.Nat.pred (k - 1) + 1)%nat with (k - 1)%nat in Hst_i, Hev_i by lia.
        exists st_i, ev_i. split; [exact Hst_i|]. split; [exact Hev_i|].
        rewrite Hlast. destruct (evaluate_Some _ _ _ _ _ Hev_i) as (_ & _ & Hscore & _).
        unfold default. cbn [fmap option_fmap option_map from_option id]. exact Hscore.
      * apply last_None in Hrec. rewrite Hrec in Hlen. cbn [length] in Hlen. lia.
  - left. split; [exact Hreason|]. rewrite Hhist, length_app, Hlen. cbn [length].
    split; [lia|]. exists ev. split; assumption.
Qed.

Lemma final_score_and_final_code_witness :
  exists (k : nat) st,
    (1 <= k)%nat
    /\ Loop.stateAt strictOptions sampleEnvironment emptyProject k = Some st
    /\ Loop.finalCode sampleResult = Loop.st_currentCode st
    /\ (((Loop.r_stopReason sampleResult = Some success
          \/ Loop.r_stopReason sampleResult = Some stop_converged)
         /\ length (Loop.r_history sampleResult) = k
         /\ exists ev,
              Loop.evaluate strictOptions (Z.of_nat k)
                (Loop.observe sampleEnvironment (Z.of_nat k)) st = Some ev
              /\ Loop.finalScore sampleResult = Loop.ev_compositeScore ev)
        \/ ((Loop.r_stopReason sampleResult = Some timeout
             \/ Loop.r_stopReason sampleResult = Some max_iterations)
            /\ length (Loop.r_history sampleResult) = (k - 1)%nat
            /\ (k = 1%nat -> Loop.finalScore sampleResult = 0)
            /\ ((2 <= k)%nat ->
                exists st_prev ev_prev,
                  Loop.stateAt strictOptions sampleEnvironment emptyProject (k - 1)
                  = Some st_prev
                  /\ Loop.evaluate strictOptions (Z.of_nat (k - 1))
                       (Loop.observe sampleEnvironment (Z.of_nat (k - 1))) st_prev
                     = Some ev_prev
                  /\ Loop.finalScore sampleResult = Loop.ev_compositeScore ev_prev))).
Proof.
  apply (final_score_and_final_code strictOptions sampleEnvironment emptyProject
           sampleResult sampleProject).
  vm_compute. reflexivity.
Defined.


